(** * micro-conf.h: a shallow embedding of [micro_conf_parse]

    The development follows [src/micro-conf.h].  A [char*] is modelled as
    the list of bytes from the pointer to the end of the buffer that
    [getline] filled; the byte after the last one is the terminating NUL
    that [getline] stores, so reading at the end of the list yields NUL.
    Pointer arithmetic [p + n] is [drop n p], a store through a pointer is a
    list update, and every C string function stops at the first NUL of the
    list, as the C library does.

    Destinations ([void *value]) are slots of a store, a finite map from
    addresses to typed values; two bindings may hold the same address.

    Modelling assumptions, all of them about the platform and not about the
    parser: [long] is 64 bits and [int] is 32 bits wide and a narrowing
    conversion wraps; the size computations passed to [left_space] do not
    overflow an [int] (lines are shorter than [INT_MAX] bytes); [strdup]
    does not run out of memory; [double] and [float] are the binary64 and
    binary32 formats of IEC 60559, and [strtod] and [strtof] return the
    number of the format that is nearest to the number they read, the one
    with the even significand of two that are as near, and an infinity
    when that number is too large, as the C library does in its default
    rounding mode. *)

From Stdlib Require Import ZArith Ascii String List Lia Bool.
From stdpp Require Import base tactics option list gmap strings.

Open Scope Z_scope.

(** ** Characters and C strings *)

Definition NUL : ascii := "000"%char.
Definition TAB : ascii := "009"%char.
Definition LF : ascii := "010"%char.
Definition VT : ascii := "011"%char.
Definition FF : ascii := "012"%char.
Definition CR : ascii := "013"%char.
Definition SPACE : ascii := " "%char.

(** A string literal, as the list of its bytes. *)
Definition str (s : string) : list ascii := list_ascii_of_string s.

(** [*p]: the byte under the pointer; past the last byte read by [getline]
    sits the terminator. *)
Definition deref (p : list ascii) : ascii :=
  match p with
  | [] => NUL
  | c :: _ => c
  end.

(** [p[i]] *)
Definition index (p : list ascii) (i : nat) : ascii := deref (drop i p).

(** The value of a [char] converted to [unsigned char], as [strcmp] and
    [strncmp] compare them. *)
Definition uchar (c : ascii) : Z := Z.of_N (N_of_ascii c).

Fixpoint strlen (p : list ascii) : nat :=
  match p with
  | [] => 0%nat
  | c :: p' => if Ascii.eqb c NUL then 0%nat else S (strlen p')
  end.

(** The C string a pointer designates: the bytes before the first NUL. *)
Fixpoint c_str (p : list ascii) : list ascii :=
  match p with
  | [] => []
  | c :: p' => if Ascii.eqb c NUL then [] else c :: c_str p'
  end.

(** [strchr(p, c)]: the offset of the first [c] in the string, [None] for
    a null result.  The terminator counts as part of the string. *)
Fixpoint strchr (p : list ascii) (c : ascii) : option nat :=
  match p with
  | [] => if Ascii.eqb c NUL then Some 0%nat else None
  | x :: p' =>
      if Ascii.eqb x c then Some 0%nat
      else if Ascii.eqb x NUL then None
      else S <$> strchr p' c
  end.

Fixpoint strncmp (a b : list ascii) (n : nat) : Z :=
  match n with
  | O => 0
  | S n' =>
      let x := deref a in
      let y := deref b in
      if Ascii.eqb x y
      then if Ascii.eqb x NUL then 0 else strncmp (tail a) (tail b) n'
      else uchar x - uchar y
  end.

Fixpoint strcmp (a b : list ascii) : Z :=
  match a with
  | [] => uchar NUL - uchar (deref b)
  | x :: a' =>
      let y := deref b in
      if Ascii.eqb x y
      then if Ascii.eqb x NUL then 0 else strcmp a' (tail b)
      else uchar x - uchar y
  end.

(** ** [left_space] *)

Definition is_sep (c : ascii) : bool :=
  Ascii.eqb c SPACE || Ascii.eqb c LF || Ascii.eqb c TAB.

(** The loop of [left_space], started at position [pos].  [line] and
    [column] are the optional counters ([None] for a null pointer). *)
Fixpoint left_space_loop (input : list ascii) (pos input_size : Z)
    (line column : option Z) : Z * option Z * option Z :=
  match input with
  | [] => (pos, line, column)
  | c :: rest =>
      if (pos <? input_size) && is_sep c then
        if Ascii.eqb c LF
        then left_space_loop rest (pos + 1) input_size
               (Z.succ <$> line) ((λ _, 0) <$> column)
        else left_space_loop rest (pos + 1) input_size
               line (Z.succ <$> column)
      else (pos, line, column)
  end.

Definition left_space (input : option (list ascii)) (input_size : Z)
    (line column : option Z) : Z * option Z * option Z :=
  match input with
  | None => (0, line, column)
  | Some p =>
      if input_size =? 0 then (0, line, column)
      else left_space_loop p 0 input_size line column
  end.

(** ** The C library's numeric conversions

    [strtol] and [strtod] read the C string under [nptr]; each returns the
    converted value and the number of bytes it consumed, so that [endptr]
    is [nptr] advanced by that count. *)

Definition isspace (c : ascii) : bool :=
  Ascii.eqb c SPACE || Ascii.eqb c TAB || Ascii.eqb c LF ||
  Ascii.eqb c VT || Ascii.eqb c FF || Ascii.eqb c CR.

Definition isdigit (c : ascii) : bool :=
  (uchar "0" <=? uchar c) && (uchar c <=? uchar "9").

Definition tolower (c : ascii) : ascii :=
  if (uchar "A" <=? uchar c) && (uchar c <=? uchar "Z")
  then ascii_of_N (N_of_ascii c + 32)
  else c.

Definition isxdigit (c : ascii) : bool :=
  isdigit c || ((uchar "a" <=? uchar (tolower c)) && (uchar (tolower c) <=? uchar "f")).

Definition digit_val (c : ascii) : Z :=
  if isdigit c then uchar c - uchar "0" else uchar (tolower c) - uchar "a" + 10.

(** Length of the longest prefix whose bytes all satisfy [f]. *)
Fixpoint span (f : ascii → bool) (s : list ascii) : nat :=
  match s with
  | [] => 0%nat
  | c :: s' => if f c then S (span f s') else 0%nat
  end.

(** Value of a digit sequence in the given radix. *)
Definition digits_val (radix : Z) (s : list ascii) : Z :=
  fold_left (λ acc c, radix * acc + digit_val c) s 0.

(** An optional sign: whether it is a minus, and how many bytes it takes. *)
Definition scan_sign (s : list ascii) : bool * nat :=
  match s with
  | c :: _ =>
      if Ascii.eqb c "-" then (true, 1%nat)
      else if Ascii.eqb c "+" then (false, 1%nat)
      else (false, 0%nat)
  | [] => (false, 0%nat)
  end.

Definition LONG_MAX : Z := 2 ^ 63 - 1.
Definition LONG_MIN : Z := - 2 ^ 63.

Definition clamp_long (v : Z) : Z :=
  if v <? LONG_MIN then LONG_MIN else if LONG_MAX <? v then LONG_MAX else v.

(** [strtol(nptr, &endptr, 10)] on a string without NUL. *)
Definition strtol_of (s : list ascii) : Z * nat :=
  let n1 := span isspace s in
  let s1 := drop n1 s in
  let '(neg, n2) := scan_sign s1 in
  let s2 := drop n2 s1 in
  let n3 := span isdigit s2 in
  if Nat.eqb n3 0 then (0, 0%nat)
  else
    let v := digits_val 10 (take n3 s2) in
    (clamp_long (if neg then - v else v), (n1 + n2 + n3)%nat).

Definition strtol (nptr : list ascii) : Z * nat := strtol_of (c_str nptr).

(** [(int)val] for a [long] value. *)
Definition int_of_long (v : Z) : Z := (v + 2 ^ 31) mod 2 ^ 32 - 2 ^ 31.

(** A number: [FNum neg m r e] stands for (-1)^neg * m * r^e.  It is the
    number that [strtod] reads, in radix 10 or 2, and the floating-point
    number that [strtod] returns for it, in radix 2. *)
Inductive fval : Type :=
  | FNum (neg : bool) (mant radix exp : Z)
  | FInf (neg : bool)
  | FNan (neg : bool).

Definition fzero : fval := FNum false 0 10 0.

(** Does [s] start with [lit], ignoring case? *)
Fixpoint starts_nocase (lit s : list ascii) : bool :=
  match lit, s with
  | [], _ => true
  | x :: lit', c :: s' => Ascii.eqb x (tolower c) && starts_nocase lit' s'
  | _ :: _, [] => false
  end.

(** A mantissa: digits with at most one point, at least one digit in all.
    Returns the integer the digits spell, the number of digits after the
    point, and the bytes consumed (0 when there is no mantissa). *)
Definition scan_mantissa (isd : ascii → bool) (radix : Z) (s : list ascii)
    : Z * nat * nat :=
  let ni := span isd s in
  let s1 := drop ni s in
  if Ascii.eqb (deref s1) "." then
    let nf := span isd (drop 1 s1) in
    if Nat.eqb (ni + nf) 0 then (0, 0%nat, 0%nat)
    else (digits_val radix (take ni s ++ take nf (drop 1 s1)), nf, (ni + 1 + nf)%nat)
  else (digits_val radix (take ni s), 0%nat, ni).

(** An exponent part introduced by [mark]: its value and the bytes
    consumed; nothing is consumed unless a digit follows the sign. *)
Definition scan_exponent (mark : ascii) (s : list ascii) : Z * nat :=
  if Ascii.eqb (tolower (deref s)) mark then
    let '(neg, n1) := scan_sign (drop 1 s) in
    let s1 := drop (1 + n1) s in
    let n2 := span isdigit s1 in
    if Nat.eqb n2 0 then (0, 0%nat)
    else
      let v := digits_val 10 (take n2 s1) in
      (if neg then - v else v, (1 + n1 + n2)%nat)
  else (0, 0%nat).

(** The optional [(n-char-sequence)] after [nan]. *)
Definition scan_nan_payload (s : list ascii) : nat :=
  if Ascii.eqb (deref s) "(" then
    let n := span (λ c, isdigit c || ((uchar "a" <=? uchar (tolower c)) &&
                          (uchar (tolower c) <=? uchar "z")) || Ascii.eqb c "_")
               (drop 1 s) in
    if Ascii.eqb (deref (drop (1 + n) s)) ")" then (2 + n)%nat else 0%nat
  else 0%nat.

(** What [strtod(nptr, &endptr)] and [strtof(nptr, &endptr)] read in a
    string without NUL: the number as it is written, before it is rounded
    to [double] or to [float], and the bytes consumed. *)
Definition strtod_of (s : list ascii) : fval * nat :=
  let n1 := span isspace s in
  let s1 := drop n1 s in
  let '(neg, n2) := scan_sign s1 in
  let s2 := drop n2 s1 in
  if starts_nocase (str "infinity") s2 then (FInf neg, (n1 + n2 + 8)%nat)
  else if starts_nocase (str "inf") s2 then (FInf neg, (n1 + n2 + 3)%nat)
  else if starts_nocase (str "nan") s2 then
    (FNan neg, (n1 + n2 + 3 + scan_nan_payload (drop 3 s2))%nat)
  else
    let '(hm, hf, hn) := scan_mantissa isxdigit 16 (drop 2 s2) in
    if starts_nocase (str "0x") s2 && negb (Nat.eqb hn 0) then
      let '(e, en) := scan_exponent "p" (drop (2 + hn) s2) in
      (FNum neg hm 2 (e - 4 * Z.of_nat hf), (n1 + n2 + 2 + hn + en)%nat)
    else
      let '(m, f, n) := scan_mantissa isdigit 10 s2 in
      if Nat.eqb n 0 then (fzero, 0%nat)
      else
        let '(e, en) := scan_exponent "e" (drop n s2) in
        (FNum neg m 10 (e - Z.of_nat f), (n1 + n2 + n + en)%nat).

(** The integer nearest to [n / d], the even one of two that are as
    near; for [0 ≤ n] and [0 < d]. *)
Definition div_nearest_even (n d : Z) : Z :=
  let q := n / d in
  let r := n mod d in
  if 2 * r <? d then q
  else if d <? 2 * r then q + 1
  else if Z.even q then q else q + 1.

(** The fraction [n / d] divided by [2 ^ e], as a fraction. *)
Definition scale2 (n d e : Z) : Z * Z :=
  (n * 2 ^ Z.max 0 (- e), d * 2 ^ Z.max 0 e).

(** The largest [l] with [2 ^ l ≤ n / d], for [0 < n] and [0 < d]. *)
Definition log2_frac (n d : Z) : Z :=
  let l := Z.log2 n - Z.log2 d in
  let '(n', d') := scale2 n d l in
  if n' <? d' then l - 1 else l.

(** The rounding of a number to the binary format with [prec] bits of
    significand and exponents below [emax]: the result is [q * 2 ^ ex]
    with [q < 2 ^ prec], where [ex] is the exponent of the last bit of the
    number and not below that of the subnormal numbers, and [q] is the
    nearest integer; a zero keeps the sign and is written as [fzero] is;
    a result beyond the largest number of the format is an infinity. *)
Definition round_binary (prec emax : Z) (x : fval) : fval :=
  match x with
  | FNum neg m r e =>
      let n := m * r ^ Z.max 0 e in
      let d := r ^ Z.max 0 (- e) in
      if n =? 0 then FNum neg 0 10 0
      else
        let ex := Z.max (log2_frac n d - (prec - 1)) (3 - emax - prec) in
        let '(n', d') := scale2 n d ex in
        let q := div_nearest_even n' d' in
        let '(q, ex) := if q =? 2 ^ prec then (2 ^ (prec - 1), ex + 1) else (q, ex) in
        if q =? 0 then FNum neg 0 10 0
        else if emax - prec <? ex then FInf neg
        else FNum neg q 2 ex
  | FInf neg => FInf neg
  | FNan neg => FNan neg
  end.

(** The formats of [double] and of [float]. *)
Definition binary64 : fval → fval := round_binary 53 1024.
Definition binary32 : fval → fval := round_binary 24 128.

(** [strtod] returns the [double] for the number read. *)
Definition strtod (nptr : list ascii) : fval * nat :=
  let '(x, n) := strtod_of (c_str nptr) in (binary64 x, n).

(** [strtof] reads the same syntax and returns the [float]. *)
Definition strtof (nptr : list ascii) : fval * nat :=
  let '(x, n) := strtod_of (c_str nptr) in (binary32 x, n).

(** ** Errors, types and bindings *)

Definition MICRO_CONF_OK : Z := 0.
Definition MICRO_CONF_ERROR_CONF_NULL : Z := -1.
Definition MICRO_CONF_ERROR_OPENING_FILE : Z := -2.
Definition MICRO_CONF_ERROR_CLOSING_FILE : Z := -3.
Definition MICRO_CONF_ERROR_UNKNOWN_TYPE : Z := -4.
Definition MICRO_CONF_ERROR_INVALID_BOOL : Z := -5.
Definition MICRO_CONF_ERROR_INVALID_INT : Z := -6.
Definition MICRO_CONF_ERROR_INVALID_DOUBLE : Z := -7.
Definition MICRO_CONF_ERROR_INVALID_FLOAT : Z := -8.
Definition MICRO_CONF_ERROR_INVALID_CHAR : Z := -9.

(** [MicroConfType] is a C enumeration, that is an integer: a binding can
    carry a number outside of it, which the [default] case catches. *)
Definition MICRO_CONF_BOOL : Z := 0.
Definition MICRO_CONF_INT : Z := 1.
Definition MICRO_CONF_FLOAT : Z := 2.
Definition MICRO_CONF_DOUBLE : Z := 3.
Definition MICRO_CONF_CHAR : Z := 4.
Definition MICRO_CONF_STR : Z := 5.

Record MicroConf : Type := mkMicroConf {
  type : Z;
  value : Z;            (* the address of the destination *)
  name : list ascii;
}.

(** What a destination holds. *)
Inductive val : Type :=
  | VBool (b : bool)
  | VChar (c : ascii)
  | VStr (s : list ascii)
  | VInt (n : Z)
  | VDouble (x : fval)
  | VFloat (x : fval).

(** The caller's memory: destinations by address. *)
Abbreviation store := (gmap Z val).

(** A file of the file system: its bytes and what [fclose] will return. *)
Record file : Type := mkFile {
  f_data : list ascii;
  f_close : Z;
}.

Abbreviation filesystem := (gmap string file).

(** ** [micro_conf_parse] *)

(** The loop that cuts the value at its right end; it stores NUL over
    every trailing newline and space.  The result is the buffer after
    the stores. *)
Fixpoint rtrim (value_str : list ascii) (vlen : nat) : list ascii :=
  match vlen with
  | O => value_str
  | S n =>
      if Ascii.eqb (index value_str n) LF || Ascii.eqb (index value_str n) SPACE
      then rtrim (<[n := NUL]> value_str) n
      else value_str
  end.

(** The [switch] on the binding's type.  The result is the error returned
    from [micro_conf_parse], if any, and the store.  In the Float case the
    [float] that [strtof] returns is held in a [double] before it is
    stored; every [float] is a [double], so it is stored as returned. *)
Definition switch_type (c : MicroConf) (value_str : list ascii) (σ : store)
    : option Z * store :=
  if type c =? MICRO_CONF_BOOL then
    if (strcmp value_str (str "true") =? 0) || (strcmp value_str (str "1") =? 0)
    then (None, <[value c := VBool true]> σ)
    else if (strcmp value_str (str "false") =? 0) || (strcmp value_str (str "0") =? 0)
    then (None, <[value c := VBool false]> σ)
    else (Some MICRO_CONF_ERROR_INVALID_BOOL, σ)
  else if type c =? MICRO_CONF_CHAR then
    if Nat.eqb (strlen value_str) 1
    then (None, <[value c := VChar (index value_str 0)]> σ)
    else (Some MICRO_CONF_ERROR_INVALID_CHAR, σ)
  else if type c =? MICRO_CONF_STR then
    (None, <[value c := VStr (c_str value_str)]> σ)
  else if type c =? MICRO_CONF_INT then
    let '(val, endptr) := strtol value_str in
    if negb (Ascii.eqb (index value_str endptr) NUL)
    then (Some MICRO_CONF_ERROR_INVALID_INT, σ)
    else (None, <[value c := VInt (int_of_long val)]> σ)
  else if type c =? MICRO_CONF_DOUBLE then
    let '(val, endptr) := strtod value_str in
    if negb (Ascii.eqb (index value_str endptr) NUL)
    then (Some MICRO_CONF_ERROR_INVALID_DOUBLE, σ)
    else (None, <[value c := VDouble val]> σ)
  else if type c =? MICRO_CONF_FLOAT then
    let '(val, endptr) := strtof value_str in
    if negb (Ascii.eqb (index value_str endptr) NUL)
    then (Some MICRO_CONF_ERROR_INVALID_FLOAT, σ)
    else (None, <[value c := VFloat val]> σ)
  else (Some MICRO_CONF_ERROR_UNKNOWN_TYPE, σ).

(** [p - line] for a pointer [p] into the buffer [line]. *)
Definition ptr_diff (p line : list ascii) : Z :=
  Z.of_nat (length line) - Z.of_nat (length p).

(** From the matched key to the value: the statements between the
    [strncmp] test and the [switch]. *)
Definition value_of (line : list ascii) (read space : Z)
    (trimmed : list ascii) (name_len : nat) : list ascii :=
  let after_name := drop name_len trimmed in
  let space := (left_space (Some after_name)
                  (read - space - Z.of_nat name_len) None None).1.1 in
  let after_name := drop (Z.to_nat space) after_name in
  let after_name :=
    if Ascii.eqb (deref after_name) "=" || Ascii.eqb (deref after_name) ":"
    then drop 1 after_name else after_name in
  let space := (left_space (Some after_name)
                  (read - ptr_diff after_name line) None None).1.1 in
  let after_name := drop (Z.to_nat space) after_name in
  let value_str := after_name in
  let vlen := strlen value_str in
  rtrim value_str vlen.

(** The [for] loop over the bindings: the first binding whose name
    matches converts the value and ends the loop. *)
Fixpoint for_conf (conf : list MicroConf) (line : list ascii) (read space : Z)
    (trimmed : list ascii) (σ : store) : option Z * store :=
  match conf with
  | [] => (None, σ)
  | c :: conf' =>
      let name_len := strlen (name c) in
      if negb (strncmp trimmed (name c) name_len =? 0)
      then for_conf conf' line read space trimmed σ
      else switch_type c (value_of line read space trimmed name_len) σ
  end.

(** The comment is cut off by a NUL stored over the first [#]. *)
Definition strip_comment (line : list ascii) : list ascii :=
  match strchr line "#" with
  | Some i => <[i := NUL]> line
  | None => line
  end.

(** One turn of the [while] loop, on the line that [getline] returned. *)
Definition while_body (conf : list MicroConf) (line : list ascii) (σ : store)
    : option Z * store :=
  let read := Z.of_nat (length line) in
  let line := strip_comment line in
  let space := (left_space (Some line) read None None).1.1 in
  let trimmed := drop (Z.to_nat space) line in
  if Ascii.eqb (deref trimmed) NUL || Ascii.eqb (deref trimmed) LF
  then (None, σ)
  else for_conf conf line read space trimmed σ.

(** [getline]: the next line of the stream with its newline, and the rest
    of the stream; [None] at the end of the stream. *)
Fixpoint getline_split (stream : list ascii) : list ascii * list ascii :=
  match stream with
  | [] => ([], [])
  | c :: s =>
      if Ascii.eqb c LF then ([c], s)
      else let '(l, r) := getline_split s in (c :: l, r)
  end.

Definition getline (stream : list ascii) : option (list ascii * list ascii) :=
  match stream with
  | [] => None
  | _ :: _ => Some (getline_split stream)
  end.

(** The lines that successive calls of [getline] return. *)
Fixpoint getlines (stream : list ascii) : list (list ascii) :=
  match stream with
  | [] => []
  | c :: s =>
      if Ascii.eqb c LF then [c] :: getlines s
      else match getlines s with
           | [] => [[c]]
           | l :: ls => (c :: l) :: ls
           end
  end.

(** The [while] loop: it ends at the first error or with the stream. *)
Fixpoint while_getline (conf : list MicroConf) (lines : list (list ascii))
    (σ : store) : option Z * store :=
  match lines with
  | [] => (None, σ)
  | line :: rest =>
      match while_body conf line σ with
      | (Some err, σ') => (Some err, σ')
      | (None, σ') => while_getline conf rest σ'
      end
  end.

Definition micro_conf_parse (fs : filesystem) (conf : option (list MicroConf))
    (pathname : string) (σ : store) : Z * store :=
  match conf with
  | None => (MICRO_CONF_ERROR_CONF_NULL, σ)
  | Some conf =>
      match fs !! pathname with
      | None => (MICRO_CONF_ERROR_OPENING_FILE, σ)
      | Some f =>
          match while_getline conf (getlines (f_data f)) σ with
          | (Some err, σ') => (err, σ')
          | (None, σ') =>
              if negb (f_close f =? 0)
              then (MICRO_CONF_ERROR_CLOSING_FILE, σ')
              else (MICRO_CONF_OK, σ')
          end
      end
  end.

(** * Notions used in the statements

    What the pointer code computes, said on plain strings.  The theorems
    [while_body_text] and [while_body_convert] prove that [while_body]
    computes exactly this. *)

(** ** The text and the candidate of a line *)

(** The bytes that end neither the line's text nor its string. *)
Definition plain_char (c : ascii) : bool :=
  negb (Ascii.eqb c NUL) && negb (Ascii.eqb c "#").

(** The text of a line: what is left of it as a C string once the comment
    is cut off. *)
Definition text_of (line : list ascii) : list ascii := c_str (strip_comment line).

(** A string without the separators in front of it. *)
Definition trim_left (s : list ascii) : list ascii := drop (span is_sep s) s.

(** The trimmed text of a line, the candidate of the scanner. *)
Definition trimmed_text (line : list ascii) : list ascii := trim_left (text_of line).

(** ** The binding selected *)

(** The key of a binding, as a string. *)
Definition key (c : MicroConf) : list ascii := c_str (name c).

(** The test of the [for] loop: the key is a prefix of the text. *)
Definition key_matches (t : list ascii) (c : MicroConf) : bool :=
  bool_decide (key c `prefix_of` t).

(** The binding that a trimmed text selects: the first whose key is a
    prefix of it. *)
Definition select (conf : list MicroConf) (t : list ascii) : option MicroConf :=
  find (key_matches t) conf.

(** The binding a line selects, if it yields a candidate at all. *)
Definition selected (conf : list MicroConf) (line : list ascii) : option MicroConf :=
  match trimmed_text line with
  | [] => None
  | t => select conf t
  end.

(** ** The value string *)

(** The bytes that the loop at the right end of the value removes. *)
Definition is_end (c : ascii) : bool := Ascii.eqb c LF || Ascii.eqb c SPACE.

(** A string without its trailing newlines and spaces. *)
Fixpoint rstrip (s : list ascii) : list ascii :=
  match s with
  | [] => []
  | c :: s' =>
      match rstrip s' with
      | [] => if is_end c then [] else [c]
      | r => c :: r
      end
  end.

(** The separator characters between key and value. *)
Definition is_assign (c : ascii) : bool := Ascii.eqb c "=" || Ascii.eqb c ":".

(** The value string, from the text that follows the key. *)
Definition value_text (r : list ascii) : list ascii :=
  let r1 := trim_left r in
  let r2 := if is_assign (deref r1) then drop 1 r1 else r1 in
  rstrip (trim_left r2).

(** The value string of a line for the binding [c]. *)
Definition value_string (c : MicroConf) (line : list ascii) : list ascii :=
  value_text (drop (length (key c)) (trimmed_text line)).

(** ** The conversion *)

(** The [switch] without the store: the error it returns or the value it
    writes, for a value string without NUL. *)
Definition convert (c : MicroConf) (v : list ascii) : Z + val :=
  if type c =? MICRO_CONF_BOOL then
    if bool_decide (v = str "true" ∨ v = str "1") then inr (VBool true)
    else if bool_decide (v = str "false" ∨ v = str "0") then inr (VBool false)
    else inl MICRO_CONF_ERROR_INVALID_BOOL
  else if type c =? MICRO_CONF_CHAR then
    match v with
    | [x] => inr (VChar x)
    | _ => inl MICRO_CONF_ERROR_INVALID_CHAR
    end
  else if type c =? MICRO_CONF_STR then inr (VStr v)
  else if type c =? MICRO_CONF_INT then
    if Nat.eqb (strtol_of v).2 (length v)
    then inr (VInt (int_of_long (strtol_of v).1))
    else inl MICRO_CONF_ERROR_INVALID_INT
  else if type c =? MICRO_CONF_DOUBLE then
    if Nat.eqb (strtod_of v).2 (length v)
    then inr (VDouble (binary64 (strtod_of v).1))
    else inl MICRO_CONF_ERROR_INVALID_DOUBLE
  else if type c =? MICRO_CONF_FLOAT then
    if Nat.eqb (strtod_of v).2 (length v)
    then inr (VFloat (binary32 (strtod_of v).1))
    else inl MICRO_CONF_ERROR_INVALID_FLOAT
  else inl MICRO_CONF_ERROR_UNKNOWN_TYPE.

(** The error of a line, if it has one. *)
Definition line_error (conf : list MicroConf) (line : list ascii) : option Z :=
  match selected conf line with
  | None => None
  | Some c =>
      match convert c (value_string c line) with
      | inl err => Some err
      | inr _ => None
      end
  end.

(** The line ends the call: its turn of the loop returns [err] and leaves
    the store alone, and so does [micro_conf_parse] on every file in which
    the lines before it run without error. *)
Definition aborts_with (conf : list MicroConf) (line : list ascii) (σ : store)
    (err : Z) : Prop :=
  while_body conf line σ = (Some err, σ) ∧
  ∀ fs pathname f before after σ0,
    fs !! pathname = Some f →
    getlines (f_data f) = before ++ line :: after →
    while_getline conf before σ0 = (None, σ) →
    micro_conf_parse fs (Some conf) pathname σ0 = (err, σ).

(** ** The layout of a line *)

(** Separators only: spaces, tabs and newlines. *)
Definition blank (w : list ascii) : Prop := Forall (λ c, is_sep c = true) w.

(** What the right end of the value loses: spaces and newlines. *)
Definition trailing (w : list ascii) : Prop := Forall (λ c, is_end c = true) w.

(** A value string: no NUL and no [#] in it, no separator in front and no
    space or newline at its end. *)
Definition is_value (v : list ascii) : Prop :=
  Forall (λ c, plain_char c = true) v ∧ is_sep (deref v) = false ∧ rstrip v = v.

(** ** Bindings and files to instantiate the theorems *)

Definition ex_conf : list MicroConf :=
  [ mkMicroConf MICRO_CONF_INT 1 (str "a");
    mkMicroConf MICRO_CONF_STR 2 (str "b");
    mkMicroConf MICRO_CONF_BOOL 3 (str "flag");
    mkMicroConf MICRO_CONF_DOUBLE 4 (str "d");
    mkMicroConf MICRO_CONF_FLOAT 5 (str "f");
    mkMicroConf MICRO_CONF_CHAR 6 (str "c") ].

(** A line of text with its newline. *)
Definition ln (s : string) : list ascii := str s ++ [LF].

(** A file system with one file, which closes without error. *)
Definition one_file (pathname : string) (data : list ascii) : filesystem :=
  {[ pathname := mkFile data 0 ]}.

(** ** The counters of [left_space] *)

(** The largest [unsigned int]. *)
Definition UINT_MAX : Z := 2 ^ 32 - 1.

(** The number of newlines in a string. *)
Fixpoint count_lf (s : list ascii) : Z :=
  match s with
  | [] => 0
  | c :: s' => (if Ascii.eqb c LF then 1 else 0) + count_lf s'
  end.

(** The column after the bytes of [s], from the column [col]. *)
Fixpoint column_after (s : list ascii) (col : Z) : Z :=
  match s with
  | [] => col
  | c :: s' => column_after s' (if Ascii.eqb c LF then 0 else col + 1)
  end.
(** ** Types of values and of bindings *)

(** The type a stored value has. *)
Definition val_type (w : val) : Z :=
  match w with
  | VBool _ => MICRO_CONF_BOOL
  | VChar _ => MICRO_CONF_CHAR
  | VStr _ => MICRO_CONF_STR
  | VInt _ => MICRO_CONF_INT
  | VDouble _ => MICRO_CONF_DOUBLE
  | VFloat _ => MICRO_CONF_FLOAT
  end.

(** The types of the enumeration. *)
Definition known_type (t : Z) : Prop := 0 ≤ t ≤ 5.

(** Bindings that share a destination declare one type for it. *)
Definition consistent (conf : list MicroConf) : Prop :=
  ∀ c c', c ∈ conf → c' ∈ conf → value c = value c' → type c = type c'.

(** Every destination of the table that holds a value holds one of the
    type declared for it. *)
Definition well_typed (conf : list MicroConf) (σ : store) : Prop :=
  ∀ c w, c ∈ conf → σ !! value c = Some w → val_type w = type c.
(** ** The writes of a call *)

(** [_MICRO_CONF_ERROR_MAX], the bound below the error codes. *)
Definition MICRO_CONF_ERROR_MAX : Z := -10.

(** The destinations and values that the lines write, in order, up to the
    first line with an error. *)
Fixpoint writes (conf : list MicroConf) (lines : list (list ascii)) : list (Z * val) :=
  match lines with
  | [] => []
  | line :: rest =>
      match selected conf line with
      | None => writes conf rest
      | Some c =>
          match convert c (value_string c line) with
          | inl _ => []
          | inr w => (value c, w) :: writes conf rest
          end
      end
  end.

(** The error of the first line that has one. *)
Fixpoint first_error (conf : list MicroConf) (lines : list (list ascii)) : option Z :=
  match lines with
  | [] => None
  | line :: rest =>
      match line_error conf line with
      | Some err => Some err
      | None => first_error conf rest
      end
  end.

(** A store after a list of writes. *)
Definition apply_writes (ws : list (Z * val)) (σ : store) : store :=
  foldl (λ m kv, <[kv.1 := kv.2]> m) σ ws.
(** ** Tables of bindings *)

#[global] Instance MicroConf_eq_dec : EqDecision MicroConf.
Proof. solve_decision. Defined.

(** No key of the table is a prefix of the key of another binding. *)
Definition prefix_free (conf : list MicroConf) : Prop :=
  Forall (λ c, Forall (λ c', key c `prefix_of` key c' → c = c') conf) conf.

(** The table [config] of [main] in example.c; the destinations are the
    fields of [conf], numbered in the order of their declaration. *)
Definition config : list MicroConf :=
  [ mkMicroConf MICRO_CONF_INT 0 (str "an_integer");
    mkMicroConf MICRO_CONF_FLOAT 1 (str "a_float");
    mkMicroConf MICRO_CONF_DOUBLE 2 (str "a_double");
    mkMicroConf MICRO_CONF_BOOL 3 (str "a_bool");
    mkMicroConf MICRO_CONF_CHAR 4 (str "a_char");
    mkMicroConf MICRO_CONF_STR 5 (str "a_str");
    mkMicroConf MICRO_CONF_INT 6 (str "vec.x");
    mkMicroConf MICRO_CONF_INT 7 (str "vec.y") ].

(** The bounds of [int]. *)
Definition INT_MAX : Z := 2 ^ 31 - 1.
Definition INT_MIN : Z := - 2 ^ 31.
(** ** Double and Float *)

(** The precision and the exponent bound of the type of a binding,
    [double] or [float]. *)
Definition real_prec (t : Z) : Z := if t =? MICRO_CONF_DOUBLE then 53 else 24.
Definition real_emax (t : Z) : Z := if t =? MICRO_CONF_DOUBLE then 1024 else 128.

(** The floating-point number of that type for the number read. *)
Definition real_round (t : Z) (x : fval) : fval :=
  round_binary (real_prec t) (real_emax t) x.

(** The value that holds a floating-point number of that type. *)
Definition real_store (t : Z) (x : fval) : val :=
  if t =? MICRO_CONF_DOUBLE then VDouble x else VFloat x.

(** The value a Double or a Float binding stores for the number read,
    and the error of its conversion. *)
Definition real_val (t : Z) (x : fval) : val := real_store t (real_round t x).

(** [q * 2 ^ e] is no further from [n / d] than half of [2 ^ e]. *)
Definition within_half (n d q e : Z) : Prop :=
  2 * Z.abs ((scale2 n d e).1 - q * (scale2 n d e).2) ≤ (scale2 n d e).2.

(** [x] is a rounding of [n / d], with the sign [neg], to the format with
    [prec] bits and exponents below [emax]: a zero when [n / d] is at most
    half of the least number of the format; or [q * 2 ^ ex] with [q] of
    [prec] bits, or of fewer at the least exponent, and within half a unit
    of the last place; or an infinity when [n / d] is [2 ^ emax] or more,
    or within half a unit of it. *)
Definition rounded (prec emax n d : Z) (neg : bool) (x : fval) : Prop :=
  match x with
  | FNum s q rx ex =>
      s = neg ∧
      ((q = 0 ∧ within_half n d 0 (3 - emax - prec)) ∨
       (rx = 2 ∧ 0 < q < 2 ^ prec ∧ 3 - emax - prec ≤ ex ≤ emax - prec ∧
        (2 ^ (prec - 1) ≤ q ∨ ex = 3 - emax - prec) ∧ within_half n d q ex))
  | FInf s =>
      s = neg ∧ (d * 2 ^ emax ≤ n ∨ within_half n d (2 ^ prec) (emax - prec))
  | FNan _ => False
  end.

Definition real_error (t : Z) : Z :=
  if t =? MICRO_CONF_DOUBLE then MICRO_CONF_ERROR_INVALID_DOUBLE
  else MICRO_CONF_ERROR_INVALID_FLOAT.

(** * Properties *)

(** ** C strings *)

Ltac case_nul c :=
  let E := fresh "Enul" in
  let H := fresh "Hnul" in
  destruct (Ascii.eqb c NUL) eqn:E;
  [ apply Ascii.eqb_eq in E; try subst c
  | pose proof (proj1 (Ascii.eqb_neq _ _) E) as H ].

Ltac cstr_induction p :=
  let c := fresh "c" in
  let IH := fresh "IH" in
  induction p as [|c p IH]; [|simpl; case_nul c].

Lemma c_str_take p : c_str p = take (strlen p) p.
Proof. cstr_induction p; simpl; congruence. Qed.

Lemma strlen_le p : (strlen p ≤ length p)%nat.
Proof. cstr_induction p; simpl; lia. Qed.

Lemma length_c_str p : length (c_str p) = strlen p.
Proof. cstr_induction p; simpl; congruence. Qed.

Lemma deref_c_str p : deref (c_str p) = deref p.
Proof. destruct p as [|c p]; simpl; [done|]. by case_nul c. Qed.

Lemma c_str_nul_free p : NUL ∉ c_str p.
Proof.
  cstr_induction p; try apply not_elem_of_nil.
  apply not_elem_of_cons; split; [congruence | assumption].
Qed.

Lemma strlen_app s p : NUL ∉ s → strlen (s ++ p) = (length s + strlen p)%nat.
Proof.
  induction s as [|c s IH]; intros Hs; simpl; [done|].
  apply not_elem_of_cons in Hs as [Hc Hs].
  destruct (Ascii.eqb_spec c NUL); [congruence|]. by rewrite IH.
Qed.

Lemma c_str_app s p : NUL ∉ s → c_str (s ++ p) = s ++ c_str p.
Proof.
  induction s as [|c s IH]; intros Hs; simpl; [done|].
  apply not_elem_of_cons in Hs as [Hc Hs].
  destruct (Ascii.eqb_spec c NUL); [congruence|]. by rewrite IH.
Qed.

Lemma c_str_plain s : NUL ∉ s → c_str s = s.
Proof. intros Hs. rewrite <- (app_nil_r s) at 1. rewrite c_str_app by done. apply app_nil_r. Qed.

Lemma c_str_idemp p : c_str (c_str p) = c_str p.
Proof. apply c_str_plain, c_str_nul_free. Qed.

Lemma strlen_c_str p : strlen (c_str p) = strlen p.
Proof. rewrite <- length_c_str, c_str_idemp. apply length_c_str. Qed.

Lemma c_str_drop n p : (n ≤ strlen p)%nat → c_str (drop n p) = drop n (c_str p).
Proof.
  revert n. cstr_induction p; intros [|n] Hn; simpl in *; try done; try lia.
  - by rewrite Enul.
  - apply IH. lia.
Qed.

Lemma strlen_drop n p : (n ≤ strlen p)%nat → strlen (drop n p) = (strlen p - n)%nat.
Proof.
  intros Hn. rewrite <- !length_c_str, c_str_drop by done. apply length_drop.
Qed.

Lemma index_c_str n p : (n ≤ strlen p)%nat → index (c_str p) n = index p n.
Proof.
  intros Hn. unfold index. rewrite <- c_str_drop by done. apply deref_c_str.
Qed.

Lemma deref_nul p : deref p = NUL ↔ strlen p = 0%nat.
Proof. destruct p as [|c p]; simpl; [done|]. case_nul c; split; done. Qed.

Lemma index_nul n p : (n ≤ strlen p)%nat → index p n = NUL ↔ n = strlen p.
Proof.
  intros Hn. unfold index. rewrite deref_nul, strlen_drop by done. lia.
Qed.

Lemma uchar_inj x y : uchar x = uchar y → x = y.
Proof.
  unfold uchar. intros H. apply N2Z.inj in H.
  rewrite <- (ascii_N_embedding x), <- (ascii_N_embedding y). by rewrite H.
Qed.

Lemma uchar_diff x y : x ≠ y → uchar x - uchar y ≠ 0.
Proof. intros Hxy H. apply Hxy, uchar_inj. lia. Qed.

Lemma c_str_nil_deref p : c_str p = [] ↔ deref p = NUL.
Proof. destruct p as [|c p]; simpl; [done|]. case_nul c; split; done. Qed.

(** [strcmp] returns 0 exactly on equal strings. *)
Lemma strcmp_0 a b : strcmp a b = 0 ↔ c_str a = c_str b.
Proof.
  revert b. induction a as [|x a IH]; intros b; simpl.
  - split.
    + intros H. symmetry. apply c_str_nil_deref, uchar_inj. lia.
    + intros H. symmetry in H. apply c_str_nil_deref in H. rewrite H. lia.
  - destruct (Ascii.eqb_spec x (deref b)) as [Hxy|Hxy].
    + case_nul x.
      * split; [|done]. intros _. symmetry. by apply c_str_nil_deref.
      * destruct b as [|y b]; simpl in *; [congruence|]. subst y.
        rewrite Enul, IH. split; [congruence|]. by intros [=].
    + split; [intros H; by apply uchar_diff in H|].
      intros H. exfalso. apply Hxy. rewrite <- (deref_c_str b), <- H.
      simpl. by case_nul x.
Qed.

Lemma strcmp_eqb a b : (strcmp a b =? 0) = bool_decide (c_str a = c_str b).
Proof.
  destruct (Z.eqb_spec (strcmp a b) 0) as [H|H]; symmetry.
  - apply bool_decide_eq_true, strcmp_0, H.
  - apply bool_decide_eq_false. by rewrite <- strcmp_0.
Qed.

(** [strncmp] over the length of the key returns 0 exactly when the key
    is a prefix of the text. *)
Lemma strncmp_0 t k : strncmp t k (strlen k) = 0 ↔ c_str k `prefix_of` c_str t.
Proof.
  revert t. cstr_induction k; intros t; simpl;
    try (split; [intros _; apply prefix_nil | done]).
  destruct (Ascii.eqb_spec (deref t) c) as [Hxy|Hxy].
  - destruct t as [|x t]; simpl in *; [congruence|]. subst x.
    rewrite Enul, IH. split; [apply prefix_cons | apply prefix_cons_inv_2].
  - split; [intros H; by apply uchar_diff in H|].
    intros [r Hr]. exfalso. apply Hxy. rewrite <- (deref_c_str t), Hr. done.
Qed.

Lemma strncmp_eqb t k :
  (strncmp t k (strlen k) =? 0) = bool_decide (c_str k `prefix_of` c_str t).
Proof.
  destruct (Z.eqb_spec (strncmp t k (strlen k)) 0) as [H|H]; symmetry.
  - apply bool_decide_eq_true, strncmp_0, H.
  - apply bool_decide_eq_false. by rewrite <- strncmp_0.
Qed.

(** ** [left_space] counts the leading separators *)

Lemma is_sep_not_nul c : is_sep c = true → c ≠ NUL.
Proof. intros H ->. done. Qed.

Lemma span_le f s : (span f s ≤ length s)%nat.
Proof. induction s as [|c s IH]; simpl; [lia|]. destruct (f c); simpl; lia. Qed.

Lemma left_space_loop_pos input pos input_size line column :
  pos + Z.of_nat (span is_sep input) ≤ input_size →
  (left_space_loop input pos input_size line column).1.1
  = pos + Z.of_nat (span is_sep input).
Proof.
  revert pos line column.
  induction input as [|c input IH]; intros pos line column Hsz; simpl in *.
  - lia.
  - destruct (is_sep c) eqn:Hc.
    + replace (pos <? input_size) with true by (symmetry; apply Z.ltb_lt; lia).
      simpl. destruct (Ascii.eqb c LF); rewrite IH; lia.
    + rewrite andb_false_r. simpl. lia.
Qed.

Lemma left_space_pos p input_size :
  Z.of_nat (span is_sep p) ≤ input_size →
  (left_space (Some p) input_size None None).1.1 = Z.of_nat (span is_sep p).
Proof.
  intros Hsz. unfold left_space. destruct (Z.eqb_spec input_size 0) as [->|_].
  - simpl. lia.
  - by rewrite left_space_loop_pos.
Qed.

Lemma span_is_sep_c_str p : span is_sep (c_str p) = span is_sep p.
Proof.
  cstr_induction p; simpl; try done. rewrite IH. done.
Qed.

Lemma span_is_sep_strlen p : (span is_sep p ≤ strlen p)%nat.
Proof. rewrite <- span_is_sep_c_str, <- length_c_str. apply span_le. Qed.

(** ** The right end of the value *)

Lemma rstrip_snoc_end s c : is_end c = true → rstrip (s ++ [c]) = rstrip s.
Proof.
  intros Hc. induction s as [|x s IH]; simpl; [by rewrite Hc|]. by rewrite IH.
Qed.

Lemma rstrip_snoc_keep s c : is_end c = false → rstrip (s ++ [c]) = s ++ [c].
Proof.
  intros Hc. induction s as [|x s IH]; simpl; [by rewrite Hc|].
  rewrite IH. by destruct s.
Qed.

Lemma rstrip_app_end s w : Forall (λ c, is_end c = true) w → rstrip (s ++ w) = rstrip s.
Proof.
  induction w as [|c w IH] using rev_ind; intros Hw; [by rewrite app_nil_r|].
  apply Forall_app in Hw as [Hw Hc]. apply Forall_inv in Hc.
  rewrite app_assoc, rstrip_snoc_end by done. by apply IH.
Qed.

Lemma c_str_snoc n p :
  strlen p = S n → c_str p = take n (c_str p) ++ [index p n].
Proof.
  revert n. cstr_induction p; intros n Hn; simpl in *; try done.
  destruct n as [|n]; simpl.
  - injection Hn as Hn. unfold index. simpl.
    assert (c_str p = []) as -> by (apply length_zero_iff_nil; by rewrite length_c_str).
    done.
  - injection Hn as Hn. rewrite (IH n Hn) at 1. done.
Qed.

Lemma c_str_insert_nul n p :
  (n ≤ strlen p)%nat → c_str (<[n:=NUL]> p) = take n (c_str p).
Proof.
  revert n. cstr_induction p; intros [|n] Hn; simpl in *; try done; try lia.
  rewrite Enul. f_equal. apply IH. lia.
Qed.

Lemma rtrim_c_str p : c_str (rtrim p (strlen p)) = rstrip (c_str p).
Proof.
  remember (strlen p) as n eqn:Hn. revert p Hn.
  induction n as [|n IH]; intros p Hn; simpl.
  - assert (c_str p = []) as -> by (apply length_zero_iff_nil; by rewrite length_c_str).
    done.
  - rewrite (c_str_snoc n p) by done.
    fold (is_end (index p n)). destruct (is_end (index p n)) eqn:Hc.
    + rewrite rstrip_snoc_end by done.
      rewrite <- c_str_insert_nul by lia. apply IH.
      rewrite <- length_c_str, c_str_insert_nul by lia.
      rewrite length_take, length_c_str. lia.
    + rewrite rstrip_snoc_keep by done. by rewrite <- c_str_snoc.
Qed.

(** ** The comment *)

Lemma strchr_hash p :
  match strchr p "#" with
  | Some i => i = span plain_char p ∧ (i ≤ strlen p)%nat
  | None => span plain_char p = strlen p
  end.
Proof.
  unfold plain_char. cstr_induction p; simpl; try done.
  destruct (Ascii.eqb c "#"); simpl; [split; [done|lia]|].
  destruct (strchr p "#"); simpl; [|by f_equal].
  destruct IH as [-> ?]. split; [done|lia].
Qed.

Lemma span_plain_strlen p : (span plain_char p ≤ strlen p)%nat.
Proof.
  unfold plain_char. cstr_induction p; simpl; try lia.
  destruct (Ascii.eqb c "#"); simpl; lia.
Qed.

Lemma text_of_span line : text_of line = take (span plain_char line) line.
Proof.
  unfold text_of, strip_comment. pose proof (strchr_hash line) as H.
  destruct (strchr line "#") as [i|].
  - destruct H as [-> Hi]. rewrite c_str_insert_nul by done.
    rewrite c_str_take, take_take. f_equal. lia.
  - rewrite H. apply c_str_take.
Qed.

Lemma span_app f a b :
  span f (a ++ b) = if Nat.eqb (span f a) (length a)
                    then (length a + span f b)%nat else span f a.
Proof.
  induction a as [|c a IH]; simpl; [done|].
  destruct (f c); simpl; [|done]. rewrite IH.
  destruct (Nat.eqb_spec (span f a) (length a)); done.
Qed.

Lemma span_all f s : Forall (λ c, f c = true) s → span f s = length s.
Proof. induction 1 as [|c s Hc _ IH]; simpl; [done|]. by rewrite Hc, IH. Qed.

Lemma span_Forall f s : Forall (λ c, f c = true) (take (span f s) s).
Proof.
  induction s as [|c s IH]; simpl; [constructor|].
  destruct (f c) eqn:Hc; simpl; by constructor.
Qed.

Lemma text_of_hash a b : text_of (a ++ "#"%char :: b) = text_of a.
Proof.
  rewrite !text_of_span, span_app. simpl.
  destruct (Nat.eqb_spec (span plain_char a) (length a)) as [H|H].
  - rewrite Nat.add_0_r, <- H at 1. rewrite H, take_app_length, take_ge; [done|lia].
  - pose proof (span_le plain_char a). rewrite take_app_le by lia. done.
Qed.

Lemma text_of_plain s : Forall (λ c, plain_char c = true) s → text_of s = s.
Proof. intros H. rewrite text_of_span, span_all by done. by apply take_ge. Qed.

Lemma text_of_nul_free line : NUL ∉ text_of line.
Proof. apply c_str_nul_free. Qed.

Lemma length_strip_comment line : length (strip_comment line) = length line.
Proof. unfold strip_comment. destruct (strchr line "#"); [apply length_insert|done]. Qed.

(** ** The conversions read the C string only *)

Lemma scan_sign_le s : ((scan_sign s).2 ≤ length s)%nat.
Proof.
  destruct s as [|c s]; simpl; [lia|].
  destruct (Ascii.eqb c "-"); [simpl; lia|]. destruct (Ascii.eqb c "+"); simpl; lia.
Qed.

Lemma deref_length s : deref s ≠ NUL → (1 ≤ length s)%nat.
Proof. destruct s; simpl; [done|lia]. Qed.

Lemma deref_eqb_length s c : Ascii.eqb (deref s) c = true → c ≠ NUL → (1 ≤ length s)%nat.
Proof. intros H Hc. apply Ascii.eqb_eq in H. apply deref_length. congruence. Qed.

Lemma starts_nocase_le lit s : starts_nocase lit s = true → (length lit ≤ length s)%nat.
Proof.
  revert s. induction lit as [|x lit IH]; intros [|c s] H; simpl in *; try lia; try done.
  apply andb_true_iff in H as [_ H]. apply IH in H. lia.
Qed.

Lemma scan_nan_payload_le s : (scan_nan_payload s ≤ length s)%nat.
Proof.
  unfold scan_nan_payload. destruct (Ascii.eqb (deref s) "("); [|lia].
  match goal with |- context [span ?f ?l] => generalize (span f l) end. intros n.
  destruct (Ascii.eqb (deref (drop (1 + n) s)) ")") eqn:H; [|lia].
  apply deref_eqb_length in H; [|done]. rewrite length_drop in H. lia.
Qed.

Lemma scan_mantissa_le isd radix s : ((scan_mantissa isd radix s).2 ≤ length s)%nat.
Proof.
  unfold scan_mantissa. pose proof (span_le isd s) as Hi.
  destruct (Ascii.eqb (deref (drop (span isd s) s)) ".") eqn:H; [|done].
  apply deref_eqb_length in H; [|done]. rewrite length_drop in H.
  pose proof (span_le isd (drop 1 (drop (span isd s) s))) as Hf.
  rewrite !length_drop in Hf.
  destruct (Nat.eqb _ 0); cbn [snd]; lia.
Qed.

Lemma scan_exponent_le mark s : ((scan_exponent mark s).2 ≤ length s)%nat.
Proof.
  unfold scan_exponent. destruct (Ascii.eqb (tolower (deref s)) mark); [|cbn [snd]; lia].
  pose proof (scan_sign_le (drop 1 s)) as H1. rewrite length_drop in H1.
  destruct (scan_sign (drop 1 s)) as [neg n1]. cbn [snd] in H1.
  pose proof (span_le isdigit (drop (1 + n1) s)) as H2. rewrite length_drop in H2.
  destruct (Nat.eqb_spec (span isdigit (drop (1 + n1) s)) 0); cbn [snd]; lia.
Qed.

Lemma strtol_of_le s : ((strtol_of s).2 ≤ length s)%nat.
Proof.
  unfold strtol_of. pose proof (span_le isspace s) as H1.
  pose proof (scan_sign_le (drop (span isspace s) s)) as H2. rewrite length_drop in H2.
  destruct (scan_sign (drop (span isspace s) s)) as [neg n2]. cbn [snd] in H2.
  pose proof (span_le isdigit (drop n2 (drop (span isspace s) s))) as H3.
  rewrite !length_drop in H3.
  destruct (Nat.eqb_spec (span isdigit (drop n2 (drop (span isspace s) s))) 0);
    cbn [snd]; lia.
Qed.

(** The decimal form, the last alternative of [strtod_of]. *)
Lemma strtod_decimal_le (n0 : nat) neg s2 :
  ((let '(m, f, n) := scan_mantissa isdigit 10 s2 in
    if Nat.eqb n 0 then (fzero, 0%nat)
    else
      let '(e, en) := scan_exponent "e" (drop n s2) in
      (FNum neg m 10 (e - Z.of_nat f), (n0 + n + en)%nat)).2
   ≤ n0 + length s2)%nat.
Proof.
  pose proof (scan_mantissa_le isdigit 10 s2) as Hm.
  destruct (scan_mantissa isdigit 10 s2) as [[m f] n']. cbn [snd] in Hm.
  pose proof (scan_exponent_le "e" (drop n' s2)) as He. rewrite length_drop in He.
  destruct (scan_exponent "e" (drop n' s2)) as [e en]. cbn [snd] in He.
  destruct (Nat.eqb_spec n' 0); cbn [snd]; lia.
Qed.

Lemma strtod_of_le s : ((strtod_of s).2 ≤ length s)%nat.
Proof.
  unfold strtod_of. pose proof (span_le isspace s) as H1.
  pose proof (scan_sign_le (drop (span isspace s) s)) as H2. rewrite length_drop in H2.
  destruct (scan_sign (drop (span isspace s) s)) as [neg n2]. cbn [snd] in H2.
  set (s2 := drop n2 (drop (span isspace s) s)).
  assert (length s2 = length s - span isspace s - n2)%nat as Hs2
    by (unfold s2; by rewrite !length_drop).
  pose proof (strtod_decimal_le (span isspace s + n2) neg s2) as Hdec.
  destruct (starts_nocase (str "infinity") s2) eqn:E1.
  { apply starts_nocase_le in E1. change (length (str "infinity")) with 8%nat in E1.
    cbn [snd]. lia. }
  destruct (starts_nocase (str "inf") s2) eqn:E2.
  { apply starts_nocase_le in E2. change (length (str "inf")) with 3%nat in E2.
    cbn [snd]. lia. }
  destruct (starts_nocase (str "nan") s2) eqn:E3.
  { apply starts_nocase_le in E3. change (length (str "nan")) with 3%nat in E3.
    pose proof (scan_nan_payload_le (drop 3 s2)) as H.
    rewrite length_drop in H. cbn [snd]. lia. }
  pose proof (scan_mantissa_le isxdigit 16 (drop 2 s2)) as Hh. rewrite length_drop in Hh.
  destruct (scan_mantissa isxdigit 16 (drop 2 s2)) as [[hm hf] hn]. cbn [snd] in Hh.
  destruct (starts_nocase (str "0x") s2) eqn:E4; cbn [andb]; [|lia].
  apply starts_nocase_le in E4. change (length (str "0x")) with 2%nat in E4.
  destruct (Nat.eqb_spec hn 0); cbn [negb]; [lia|].
  pose proof (scan_exponent_le "p" (drop (2 + hn) s2)) as He. rewrite length_drop in He.
  destruct (scan_exponent "p" (drop (2 + hn) s2)) as [e en]. cbn [snd] in *. lia.
Qed.

Lemma switch_type_c_str c p σ : switch_type c (c_str p) σ = switch_type c p σ.
Proof.
  unfold switch_type, strtol, strtod, strtof.
  rewrite !strcmp_eqb, !c_str_idemp, strlen_c_str, <- !strcmp_eqb.
  rewrite (index_c_str 0) by lia.
  pose proof (strtol_of_le (c_str p)) as Hl. pose proof (strtod_of_le (c_str p)) as Hd.
  rewrite length_c_str in Hl, Hd.
  destruct (strtol_of (c_str p)) as [lv ln], (strtod_of (c_str p)) as [dv dn].
  simpl in Hl, Hd. cbv beta iota. by rewrite !index_c_str by done.
Qed.

(** ** What a line means, read off its text

    The pointer code selects the binding [selected] and hands the value
    string [value_string] to the [switch]. *)

Lemma length_key c : length (key c) = strlen (name c).
Proof. apply length_c_str. Qed.

Lemma deref_drop_span_sep s : is_sep (deref (drop (span is_sep s) s)) = false.
Proof. induction s as [|c s IH]; simpl; [done|]. by destruct (is_sep c) eqn:Hc. Qed.

Lemma is_assign_not_nul c : is_assign c = true → c ≠ NUL.
Proof. by intros H ->. Qed.

(** Skipping separators with [left_space], seen on the C string. *)
Lemma c_str_skip p input_size :
  Z.of_nat (length p) ≤ input_size →
  c_str (drop (Z.to_nat (left_space (Some p) input_size None None).1.1) p)
  = trim_left (c_str p).
Proof.
  intros Hsz. pose proof (span_le is_sep p). rewrite left_space_pos by lia.
  rewrite Nat2Z.id, c_str_drop by apply span_is_sep_strlen.
  unfold trim_left. by rewrite span_is_sep_c_str.
Qed.

Lemma length_skip p input_size :
  Z.of_nat (length p) ≤ input_size →
  Z.to_nat (left_space (Some p) input_size None None).1.1 = span is_sep p.
Proof.
  intros Hsz. pose proof (span_le is_sep p). rewrite left_space_pos by lia.
  apply Nat2Z.id.
Qed.

(** The value string that the pointer code extracts. *)
Lemma value_of_text line space trimmed name_len :
  trimmed = drop space line →
  (space ≤ length line)%nat →
  (name_len ≤ strlen trimmed)%nat →
  c_str (value_of line (Z.of_nat (length line)) (Z.of_nat space) trimmed name_len)
  = value_text (drop name_len (c_str trimmed)).
Proof.
  intros -> Hsp Hlen. unfold value_of, value_text.
  pose proof (strlen_le (drop space line)) as Hle. rewrite length_drop in Hle.
  set (a0 := drop name_len (drop space line)).
  assert (length a0 = length line - space - name_len)%nat as Ha0
    by (unfold a0; by rewrite !length_drop).
  rewrite <- (c_str_drop name_len) by done. fold a0.
  rewrite (length_skip a0) by lia.
  assert (c_str (drop (span is_sep a0) a0) = trim_left (c_str a0)) as H1.
  { rewrite c_str_drop by apply span_is_sep_strlen.
    unfold trim_left. by rewrite span_is_sep_c_str. }
  set (a1 := drop (span is_sep a0) a0) in *.
  fold (is_assign (deref a1)). rewrite <- H1, deref_c_str.
  set (a2 := if is_assign (deref a1) then drop 1 a1 else a1).
  assert (c_str a2 = if is_assign (deref a1) then drop 1 (c_str a1) else c_str a1) as H2.
  { unfold a2. destruct (is_assign (deref a1)) eqn:Ha; [|done].
    apply c_str_drop. apply is_assign_not_nul in Ha.
    destruct (strlen a1) eqn:E; [|lia]. by apply deref_nul in E. }
  rewrite <- H2.
  assert (length a2 ≤ length line)%nat as Hl2.
  { unfold a2, a1. destruct (is_assign _); rewrite ?length_drop; lia. }
  rewrite (length_skip a2) by (unfold ptr_diff; lia).
  rewrite rtrim_c_str. f_equal.
  rewrite c_str_drop by apply span_is_sep_strlen.
  unfold trim_left. by rewrite span_is_sep_c_str.
Qed.

Lemma for_conf_text conf line space trimmed σ :
  trimmed = drop space line →
  (space ≤ length line)%nat →
  for_conf conf line (Z.of_nat (length line)) (Z.of_nat space) trimmed σ
  = match select conf (c_str trimmed) with
    | None => (None, σ)
    | Some c => switch_type c (value_text (drop (length (key c)) (c_str trimmed))) σ
    end.
Proof.
  intros Ht Hsp. unfold select. induction conf as [|c conf IH]; simpl; [done|].
  unfold key_matches at 1. rewrite strncmp_eqb. fold (key c).
  destruct (bool_decide (key c `prefix_of` c_str trimmed)) eqn:Hm; simpl; [|done].
  apply bool_decide_eq_true in Hm. apply prefix_length in Hm.
  rewrite length_key, length_c_str in Hm.
  rewrite <- switch_type_c_str, value_of_text, length_key by done. done.
Qed.

(** The pointer code of one turn of the loop computes the meaning of the
    line's text. *)
Theorem while_body_text conf line σ :
  while_body conf line σ
  = match selected conf line with
    | None => (None, σ)
    | Some c => switch_type c (value_string c line) σ
    end.
Proof.
  unfold while_body, selected, value_string, trimmed_text.
  rewrite <- (length_strip_comment line).
  set (L := strip_comment line).
  rewrite (length_skip L) by lia.
  assert (c_str (drop (span is_sep L) L) = trim_left (text_of line)) as Hc.
  { rewrite c_str_drop by apply span_is_sep_strlen.
    unfold trim_left, text_of. fold L. by rewrite span_is_sep_c_str. }
  rewrite (left_space_pos L) by (pose proof (span_le is_sep L); lia).
  rewrite (for_conf_text conf L (span is_sep L)) by (done || apply span_le).
  rewrite Hc.
  pose proof (deref_drop_span_sep L) as Hsep.
  destruct (Ascii.eqb_spec (deref (drop (span is_sep L) L)) NUL) as [Hn|Hn]; simpl.
  - apply c_str_nil_deref in Hn. rewrite Hc in Hn. by rewrite Hn.
  - destruct (Ascii.eqb_spec (deref (drop (span is_sep L) L)) LF) as [Hl|Hl].
    { rewrite Hl in Hsep. done. }
    destruct (trim_left (text_of line)) eqn:E; [|done].
    by apply c_str_nil_deref in Hc.
Qed.

(** ** The conversion of a value string

    The [switch] returns the error of [convert] or writes its value. *)

Lemma index_end_eqb v n :
  NUL ∉ v → (n ≤ length v)%nat →
  negb (Ascii.eqb (index v n) NUL) = negb (Nat.eqb n (length v)).
Proof.
  intros Hv Hn. f_equal. rewrite <- (c_str_plain v Hv), length_c_str in Hn |- *.
  rewrite (c_str_plain v Hv) in *.
  destruct (Ascii.eqb_spec (index v n) NUL) as [H|H], (Nat.eqb_spec n (strlen v)) as [E|E];
    try done; rewrite index_nul in H by done; done.
Qed.

Lemma switch_type_convert c v σ :
  NUL ∉ v →
  switch_type c v σ
  = match convert c v with
    | inl err => (Some err, σ)
    | inr w => (None, <[value c := w]> σ)
    end.
Proof.
  intros Hv. unfold switch_type, convert, strtol, strtod, strtof.
  rewrite !strcmp_eqb, !c_str_plain by (done || by vm_compute).
  pose proof (strtol_of_le v) as Hl. pose proof (strtod_of_le v) as Hd.
  rewrite <- (length_c_str v), (c_str_plain v Hv).
  destruct (strtol_of v) as [lv ln], (strtod_of v) as [dv dn]. cbn [fst snd] in *.
  cbv beta iota. rewrite !index_end_eqb by done.
  repeat match goal with |- context [type c =? ?t] => destruct (type c =? t) end;
    try done.
  - change (c_str (str "true")) with (str "true").
    change (c_str (str "false")) with (str "false").
    change (c_str (str "1")) with (str "1").
    change (c_str (str "0")) with (str "0").
    rewrite <- !bool_decide_or.
    repeat match goal with |- context [bool_decide ?P] => destruct (bool_decide P) end; done.
  - destruct v as [|x [|y v]]; done.
  - by destruct (Nat.eqb ln (length v)).
  - by destruct (Nat.eqb dn (length v)).
  - by destruct (Nat.eqb dn (length v)).
Qed.

Lemma rstrip_spec s : ∃ w, s = rstrip s ++ w ∧ Forall (λ c, is_end c = true) w.
Proof.
  induction s as [|c s (w & Hs & Hw)]; simpl; [by exists []|].
  destruct (rstrip s) as [|x r] eqn:E.
  - destruct (is_end c) eqn:Hc.
    + exists (c :: w). simpl in Hs. split; [by rewrite Hs at 1|by constructor].
    + exists w. simpl in *. split; [by rewrite Hs at 1|done].
  - exists w. split; [|done]. simpl. by rewrite Hs at 1.
Qed.

Lemma not_elem_of_drop (x : ascii) n s : x ∉ s → x ∉ drop n s.
Proof. intros Hs Hd. apply Hs. rewrite <- (take_drop n s). apply elem_of_app. by right. Qed.

Lemma not_elem_of_rstrip (x : ascii) s : x ∉ s → x ∉ rstrip s.
Proof.
  intros Hs Hd. apply Hs. destruct (rstrip_spec s) as (w & Hw & _).
  rewrite Hw. apply elem_of_app. by left.
Qed.

Lemma value_text_nul_free r : NUL ∉ r → NUL ∉ value_text r.
Proof.
  intros Hr. unfold value_text, trim_left.
  apply not_elem_of_rstrip, not_elem_of_drop.
  destruct (is_assign _); repeat apply not_elem_of_drop; done.
Qed.

Lemma value_string_nul_free c line : NUL ∉ value_string c line.
Proof.
  unfold value_string, trimmed_text, trim_left.
  apply value_text_nul_free. repeat apply not_elem_of_drop. apply text_of_nul_free.
Qed.

(** One turn of the loop: the selected binding converts the value string
    and its destination is written, or the error is returned with the
    store as it was. *)
Theorem while_body_convert conf line σ :
  while_body conf line σ
  = match selected conf line with
    | None => (None, σ)
    | Some c =>
        match convert c (value_string c line) with
        | inl err => (Some err, σ)
        | inr w => (None, <[value c := w]> σ)
        end
    end.
Proof.
  rewrite while_body_text. destruct (selected conf line) as [c|]; [|done].
  apply switch_type_convert, value_string_nul_free.
Qed.

(** ** The loop over the lines *)

Lemma getline_split_getlines c s :
  getlines (c :: s) = (getline_split (c :: s)).1 :: getlines (getline_split (c :: s)).2.
Proof.
  revert c. induction s as [|x s IH]; intros c; simpl.
  - by destruct (Ascii.eqb c LF).
  - destruct (Ascii.eqb c LF); [done|]. specialize (IH x). simpl in IH.
    destruct (Ascii.eqb x LF); [done|].
    destruct (getline_split s) as [l r]. simpl in *.
    by rewrite IH.
Qed.

(** [getlines] lists what repeated calls of [getline] return. *)
Lemma getlines_getline stream :
  getlines stream = match getline stream with
                    | None => []
                    | Some (line, rest) => line :: getlines rest
                    end.
Proof.
  destruct stream as [|c s]; [done|]. unfold getline.
  rewrite getline_split_getlines. by destruct (getline_split (c :: s)).
Qed.

Lemma getline_length stream line rest :
  getline stream = Some (line, rest) →
  stream = line ++ rest ∧ (0 < length line)%nat.
Proof.
  destruct stream as [|c s]; [done|]. unfold getline. intros [= H]. revert c line rest H.
  induction s as [|x s IH]; intros c line rest; simpl.
  - destruct (Ascii.eqb c LF); intros [= <- <-]; simpl; split; done || lia.
  - destruct (Ascii.eqb c LF); [intros [= <- <-]; simpl; split; done || lia|].
    specialize (IH x). simpl in IH. destruct (Ascii.eqb x LF).
    + intros [= <- <-]. simpl. split; done || lia.
    + destruct (getline_split s) as [l r]. intros [= <- <-].
      destruct (IH (x :: l) r eq_refl) as [-> _]. simpl. split; done || lia.
Qed.

Lemma while_getline_app conf before after σ :
  while_getline conf (before ++ after) σ
  = match while_getline conf before σ with
    | (Some err, σ') => (Some err, σ')
    | (None, σ') => while_getline conf after σ'
    end.
Proof.
  revert σ. induction before as [|l before IH]; intros σ; simpl.
  - by destruct (while_getline conf after σ) as [[e|] σ'].
  - destruct (while_body conf l σ) as [[e|] σ']; [done|]. apply IH.
Qed.

(** An error in a line ends the call with that error and the store that
    the earlier lines left. *)
Lemma parse_abort fs conf pathname f before line after σ σ1 err :
  fs !! pathname = Some f →
  getlines (f_data f) = before ++ line :: after →
  while_getline conf before σ = (None, σ1) →
  while_body conf line σ1 = (Some err, σ1) →
  micro_conf_parse fs (Some conf) pathname σ = (err, σ1).
Proof.
  intros Hf Hl Hb Hline. unfold micro_conf_parse.
  rewrite Hf, Hl, while_getline_app, Hb. simpl. by rewrite Hline.
Qed.

Lemma select_none conf t :
  select conf t = None ↔ ∀ c, c ∈ conf → ¬ key c `prefix_of` t.
Proof.
  unfold select. induction conf as [|c conf IH]; simpl.
  - split; [intros _ c Hc; by apply elem_of_nil in Hc|done].
  - unfold key_matches at 1. destruct (bool_decide (key c `prefix_of` t)) eqn:Hm.
    + apply bool_decide_eq_true in Hm. split; [done|].
      intros H. exfalso. apply (H c); [left|done].
    + apply bool_decide_eq_false in Hm. rewrite IH. split.
      * intros H c' [->|Hc']%elem_of_cons; [done|by apply H].
      * intros H c' Hc'. apply H. by right.
Qed.

(** The first binding whose key is a prefix is the one selected. *)
Lemma select_first conf t c :
  select conf t = Some c ↔
  ∃ pre post, conf = pre ++ c :: post ∧ key c `prefix_of` t ∧
              Forall (λ c', ¬ key c' `prefix_of` t) pre.
Proof.
  unfold select. induction conf as [|x conf IH]; simpl.
  - split; [done|]. intros (pre & post & H & _). by destruct pre.
  - unfold key_matches at 1. destruct (bool_decide (key x `prefix_of` t)) eqn:Hm.
    + apply bool_decide_eq_true in Hm. split.
      * intros [= ->]. exists [], conf. by repeat split.
      * intros (pre & post & H & Hc & Hpre). destruct pre as [|y pre]; simpl in H.
        -- by injection H as -> _.
        -- injection H as -> _. by apply Forall_cons in Hpre as [? _].
    + apply bool_decide_eq_false in Hm. rewrite IH. split.
      * intros (pre & post & -> & Hc & Hpre). exists (x :: pre), post.
        repeat split; [done|]. by constructor.
      * intros (pre & post & H & Hc & Hpre). destruct pre as [|y pre]; simpl in H.
        -- injection H as -> _. done.
        -- injection H as -> ->. apply Forall_cons in Hpre as [_ Hpre].
           by exists pre, post.
Qed.

Lemma select_elem conf t c : select conf t = Some c → c ∈ conf ∧ key c `prefix_of` t.
Proof.
  intros (pre & post & -> & Hc & _)%select_first. split; [|done].
  apply elem_of_app. right. left.
Qed.

Lemma while_body_error conf line σ : (while_body conf line σ).1 = line_error conf line.
Proof.
  rewrite while_body_convert. unfold line_error.
  destruct (selected conf line) as [c|]; [|done]. by destruct (convert _ _).
Qed.

Lemma while_body_error_store conf line σ err :
  line_error conf line = Some err → while_body conf line σ = (Some err, σ).
Proof.
  rewrite while_body_convert. unfold line_error.
  destruct (selected conf line) as [c|]; [|done].
  destruct (convert _ _); [|done]. by intros [= ->].
Qed.

Lemma while_getline_ok conf lines σ :
  Forall (λ l, line_error conf l = None) lines →
  (while_getline conf lines σ).1 = None.
Proof.
  intros H. revert σ. induction H as [|l lines Hl _ IH]; intros σ; simpl; [done|].
  pose proof (while_body_error conf l σ) as He. rewrite Hl in He.
  destruct (while_body conf l σ) as [[e|] σ']; [done|]. apply IH.
Qed.

(** ** What [strtol] accepts *)

Lemma isdigit_not_isspace c : isdigit c = true → isspace c = false.
Proof. destruct c as [[] [] [] [] [] [] [] []]; vm_compute; congruence. Qed.

Lemma span_lookup f s i c : s !! i = Some c → (i < span f s)%nat → f c = true.
Proof.
  revert i. induction s as [|x s IH]; intros [|i] Hi Hlt; simpl in *; try done; try lia.
  - injection Hi as ->. destruct (f c); [done|lia].
  - destruct (f x); [|lia]. apply (IH i); [done|lia].
Qed.

Lemma span_full f s : span f s = length s → Forall (λ c, f c = true) s.
Proof.
  intros H. pose proof (span_Forall f s) as HF. rewrite H in HF.
  by rewrite take_ge in HF.
Qed.

Lemma scan_sign_spec s :
  (scan_sign s).2 = 0%nat ∨
  (scan_sign s).2 = 1%nat ∧ ∃ c, s !! 0%nat = Some c ∧ isdigit c = false.
Proof.
  destruct s as [|c s]; simpl; [by left|].
  destruct (Ascii.eqb_spec c "-") as [->|_]; [right; split; [done|by eexists]|].
  destruct (Ascii.eqb_spec c "+") as [->|_]; [right; split; [done|by eexists]|].
  by left.
Qed.

Lemma scan_sign_digit c s : isdigit c = true → scan_sign (c :: s) = (false, 0%nat).
Proof.
  intros Hc. simpl.
  destruct (Ascii.eqb_spec c "-") as [->|_]; [done|].
  by destruct (Ascii.eqb_spec c "+") as [->|_].
Qed.

(** A string of decimal digits is read whole, in base 10. *)
Lemma strtol_of_digits ds :
  ds ≠ [] → Forall (λ c, isdigit c = true) ds →
  strtol_of ds = (clamp_long (digits_val 10 ds), length ds).
Proof.
  intros Hne Hds. unfold strtol_of. destruct ds as [|d ds]; [done|].
  pose proof (Forall_inv Hds) as Hd. simpl in Hd.
  assert (span isspace (d :: ds) = 0%nat) as ->
    by (simpl; by rewrite isdigit_not_isspace).
  rewrite drop_0, scan_sign_digit, drop_0, span_all by done.
  simpl length. simpl Nat.eqb. cbv iota. by rewrite take_ge by (simpl; lia).
Qed.

(** So is one with a minus sign in front. *)
Lemma strtol_of_minus ds :
  ds ≠ [] → Forall (λ c, isdigit c = true) ds →
  strtol_of ("-"%char :: ds) = (clamp_long (- digits_val 10 ds), S (length ds)).
Proof.
  intros Hne Hds. unfold strtol_of. destruct ds as [|d ds]; [done|].
  change (span isspace ("-"%char :: d :: ds)) with 0%nat.
  rewrite drop_0. change (scan_sign ("-"%char :: d :: ds)) with (true, 1%nat).
  cbv iota beta. change (drop 1 ("-"%char :: d :: ds)) with (d :: ds).
  rewrite span_all by done.
  simpl length. simpl Nat.eqb. cbv iota. by rewrite take_ge by (simpl; lia).
Qed.

(** A byte that is not a digit, anywhere after a digit, is not consumed. *)
Lemma strtol_of_garbage u d w x g :
  isdigit d = true → isdigit x = false →
  (strtol_of (u ++ d :: w ++ x :: g)).2 ≠ length (u ++ d :: w ++ x :: g).
Proof.
  intros Hd Hx. set (v := u ++ d :: w ++ x :: g).
  assert (v !! length u = Some d) as Hi by apply list_lookup_middle, eq_refl.
  assert (v !! (length u + S (length w))%nat = Some x) as Hj.
  { unfold v. rewrite lookup_app_r by lia.
    replace (length u + S (length w) - length u)%nat with (S (length w)) by lia.
    simpl. by apply list_lookup_middle. }
  assert (0 < length v)%nat as Hpos by (apply lookup_lt_Some in Hi; lia).
  unfold strtol_of.
  set (n1 := span isspace v). set (s1 := drop n1 v).
  pose proof (scan_sign_spec s1) as Hsg.
  destruct (scan_sign s1) as [neg n2]. cbn [snd] in Hsg.
  set (s2 := drop n2 s1).
  destruct (Nat.eqb_spec (span isdigit s2) 0) as [|Hn3]; cbn [snd]; [lia|].
  intros Hfull.
  assert (length s2 = length v - n1 - n2)%nat as Hl2
    by (unfold s2, s1; by rewrite !length_drop).
  assert (Forall (λ c, isdigit c = true) s2) as Hall by (apply span_full; lia).
  assert (n1 + n2 ≤ length u)%nat as Hle.
  { destruct (Nat.lt_ge_cases (length u) n1) as [Hlt|Hge].
    - apply (span_lookup isspace v _ d Hi) in Hlt.
      by rewrite isdigit_not_isspace in Hlt.
    - destruct Hsg as [->|[-> (c & Hc & Hcd)]]; [lia|].
      destruct (decide (length u = n1)) as [E|E]; [|lia].
      unfold s1 in Hc. rewrite lookup_drop, Nat.add_0_r, <- E, Hi in Hc.
      injection Hc as <-. congruence. }
  assert (s2 !! (length u + S (length w) - (n1 + n2))%nat = Some x) as Hx2.
  { unfold s2, s1. rewrite !lookup_drop, <- Hj. f_equal. lia. }
  apply (Forall_lookup_1 _ _ _ _ Hall) in Hx2. simpl in Hx2. congruence.
Qed.

(** Nor is a last byte that is not a digit. *)
Lemma strtol_of_last u x :
  isdigit x = false → (strtol_of (u ++ [x])).2 ≠ length (u ++ [x]).
Proof.
  intros Hx. set (v := u ++ [x]).
  assert (v !! length u = Some x) as Hi by apply list_lookup_middle, eq_refl.
  assert (length v = S (length u)) as Hlen
    by (unfold v; rewrite length_app; simpl; lia).
  unfold strtol_of.
  set (n1 := span isspace v). set (s1 := drop n1 v).
  pose proof (scan_sign_le s1) as Hsg.
  destruct (scan_sign s1) as [neg n2]. cbn [snd] in Hsg.
  set (s2 := drop n2 s1).
  destruct (Nat.eqb_spec (span isdigit s2) 0) as [|Hn3]; cbn [snd]; [lia|].
  intros Hfull.
  assert (length s2 = length v - n1 - n2)%nat as Hl2
    by (unfold s2, s1; by rewrite !length_drop).
  assert (Forall (λ c, isdigit c = true) s2) as Hall by (apply span_full; lia).
  assert (s2 !! (length u - (n1 + n2))%nat = Some x) as Hx2.
  { unfold s2, s1. rewrite !lookup_drop, <- Hi. f_equal. lia. }
  apply (Forall_lookup_1 _ _ _ _ Hall) in Hx2. simpl in Hx2. congruence.
Qed.

(** ** What the lines write *)

Lemma while_body_other conf line σ l :
  (∀ c, selected conf line = Some c → value c ≠ l) →
  (while_body conf line σ).2 !! l = σ !! l.
Proof.
  intros Hl. rewrite while_body_convert.
  destruct (selected conf line) as [c|]; [|done].
  destruct (convert c (value_string c line)); [done|].
  simpl. apply lookup_insert_ne. by apply Hl.
Qed.

Lemma while_getline_other conf lines σ l :
  Forall (λ line, ∀ c, selected conf line = Some c → value c ≠ l) lines →
  (while_getline conf lines σ).2 !! l = σ !! l.
Proof.
  intros H. revert σ. induction H as [|line lines Hline _ IH]; intros σ; simpl; [done|].
  pose proof (while_body_other conf line σ l Hline) as Hb.
  destruct (while_body conf line σ) as [[e|] σ']; [done|]. by rewrite IH.
Qed.

Lemma micro_conf_parse_store fs conf pathname f σ :
  fs !! pathname = Some f →
  (micro_conf_parse fs (Some conf) pathname σ).2
  = (while_getline conf (getlines (f_data f)) σ).2.
Proof.
  intros Hf. unfold micro_conf_parse. rewrite Hf.
  destruct (while_getline conf (getlines (f_data f)) σ) as [[e|] σ']; [done|].
  by destruct (negb (f_close f =? 0)).
Qed.

Lemma while_getline_writes conf lines σ :
  while_getline conf lines σ
  = (first_error conf lines, apply_writes (writes conf lines) σ).
Proof.
  revert σ. induction lines as [|line lines IH]; intros σ; simpl; [done|].
  rewrite while_body_convert. unfold line_error.
  destruct (selected conf line) as [c|]; [|apply IH].
  destruct (convert c (value_string c line)) as [e|w]; [done|]. apply IH.
Qed.

Lemma first_error_None conf lines :
  first_error conf lines = None ↔ Forall (λ l, line_error conf l = None) lines.
Proof.
  induction lines as [|line lines IH]; simpl; [by split|].
  destruct (line_error conf line) as [e|] eqn:E.
  - split; [done|]. intros H. apply Forall_cons in H as [H _]. congruence.
  - rewrite IH. split; [by constructor|]. by intros [_ ?]%Forall_cons.
Qed.

Lemma aborts_with_intro conf line σ err :
  while_body conf line σ = (Some err, σ) → aborts_with conf line σ err.
Proof.
  intros He. split; [done|]. intros fs pathname f before after σ0 Hf Hl Hb.
  by apply (parse_abort fs conf pathname f before line after).
Qed.

(** ** Errors, unknown keys and the conversions *)

(** C9: for every binding list, a path that cannot be opened makes
    [micro_conf_parse] return [MICRO_CONF_ERROR_OPENING_FILE] and leaves
    every destination as it was. *)
Theorem open_failure fs conf pathname σ :
  fs !! pathname = None →
  micro_conf_parse fs (Some conf) pathname σ = (MICRO_CONF_ERROR_OPENING_FILE, σ).
Proof. intros H. unfold micro_conf_parse. by rewrite H. Qed.

Lemma open_failure_witness :
  (∅ : filesystem) !! "micro.conf"%string = None ∧
  micro_conf_parse ∅ (Some ex_conf) "micro.conf" {[ 1 := VInt 10 ]}
  = (MICRO_CONF_ERROR_OPENING_FILE, {[ 1 := VInt 10 ]}).
Proof. split; [reflexivity | apply open_failure; reflexivity]. Defined.

(** C5: a line whose trimmed text starts with no binding's key is
    skipped: the turn of the loop returns no error and the store it was
    given, and the call on the file with the line gives what the call on
    the file without it gives. *)
Theorem unknown_key_skipped conf line σ :
  (∀ c, c ∈ conf → ¬ key c `prefix_of` trimmed_text line) →
  while_body conf line σ = (None, σ) ∧
  ∀ fs p p' f f' before after σ0,
    fs !! p = Some f → fs !! p' = Some f' → f_close f = f_close f' →
    getlines (f_data f) = before ++ line :: after →
    getlines (f_data f') = before ++ after →
    micro_conf_parse fs (Some conf) p σ0 = micro_conf_parse fs (Some conf) p' σ0.
Proof.
  intros Hno.
  assert (∀ σ, while_body conf line σ = (None, σ)) as Hskip.
  { intros σ'. rewrite while_body_text. unfold selected.
    apply select_none in Hno. destruct (trimmed_text line); [done|by rewrite Hno]. }
  split; [apply Hskip|].
  intros fs p p' f f' before after σ0 Hf Hf' Hcl Hl Hl'. unfold micro_conf_parse.
  rewrite Hf, Hf', Hl, Hl', Hcl, !while_getline_app. simpl.
  destruct (while_getline conf before σ0) as [[e|] σ1]; [done|]. by rewrite Hskip.
Qed.

Lemma unknown_key_skipped_witness :
  select ex_conf (trimmed_text (ln "zzz = 1")) = None ∧
  while_body ex_conf (ln "zzz = 1") {[ 1 := VInt 10 ]} = (None, {[ 1 := VInt 10 ]}).
Proof.
  split; [reflexivity|].
  apply unknown_key_skipped. apply select_none. reflexivity.
Defined.

(** C2: the first line whose value string fails the conversion of its
    binding's type makes [micro_conf_parse] return that error, whatever
    follows the line in the file, and the store returned is the one that
    the earlier lines wrote: a destination holds the value of the last
    earlier line that wrote to it, and what it held before the call when
    no earlier line wrote to it. *)
Theorem first_error_aborts fs conf pathname f before line after σ c err :
  fs !! pathname = Some f →
  getlines (f_data f) = before ++ line :: after →
  Forall (λ l, line_error conf l = None) before →
  selected conf line = Some c →
  convert c (value_string c line) = inl err →
  micro_conf_parse fs (Some conf) pathname σ
  = (err, apply_writes (writes conf before) σ) ∧
  while_getline conf before σ = (None, apply_writes (writes conf before) σ) ∧
  while_body conf line (apply_writes (writes conf before) σ)
  = (Some err, apply_writes (writes conf before) σ) ∧
  (∀ b1 l b2 c' w,
     before = b1 ++ l :: b2 →
     selected conf l = Some c' →
     convert c' (value_string c' l) = inr w →
     Forall (λ l', ∀ c'', selected conf l' = Some c'' → value c'' ≠ value c') b2 →
     (micro_conf_parse fs (Some conf) pathname σ).2 !! value c' = Some w) ∧
  (∀ a, Forall (λ l, ∀ c', selected conf l = Some c' → value c' ≠ a) before →
        (micro_conf_parse fs (Some conf) pathname σ).2 !! a = σ !! a).
Proof.
  intros Hf Hl Hb Hc Herr.
  assert (while_getline conf before σ = (None, apply_writes (writes conf before) σ))
    as Hok by (rewrite while_getline_writes; f_equal; by apply first_error_None).
  set (σ1 := apply_writes (writes conf before) σ) in *.
  assert (while_body conf line σ1 = (Some err, σ1)) as Hline.
  { apply while_body_error_store. unfold line_error. by rewrite Hc, Herr. }
  assert (micro_conf_parse fs (Some conf) pathname σ = (err, σ1)) as Hp
    by (by apply (parse_abort fs conf pathname f before line after)).
  split; [done|]. split; [done|]. split; [done|]. rewrite Hp. cbn [snd].
  replace σ1 with (while_getline conf before σ).2 by (by rewrite Hok).
  clear Hok Hline Hp. split.
  - intros b1 l b2 c' w -> Hc' Hw Hb2. rewrite while_getline_app.
    destruct (while_getline conf b1 σ) as [[e|] σ0] eqn:E1.
    { exfalso. apply Forall_app in Hb as [Hb1 _].
      pose proof (while_getline_ok conf b1 σ Hb1) as H. by rewrite E1 in H. }
    cbn [while_getline]. rewrite while_body_convert, Hc', Hw.
    rewrite while_getline_other by done. apply lookup_insert_eq.
  - intros a Ha. by apply while_getline_other.
Qed.

Lemma first_error_aborts_witness :
  micro_conf_parse
    (one_file "micro.conf" (ln "a = 69" ++ ln "b: hello" ++ ln "a = 12abc" ++ ln "flag = 1"))
    (Some ex_conf) "micro.conf" (<[3 := VBool false]> (<[1 := VInt 10]> ∅))
  = (MICRO_CONF_ERROR_INVALID_INT,
     <[2 := VStr (str "hello")]>
       (<[1 := VInt 69]> (<[3 := VBool false]> (<[1 := VInt 10]> ∅)))) ∧
  (micro_conf_parse
     (one_file "micro.conf" (ln "a = 69" ++ ln "b: hello" ++ ln "a = 12abc" ++ ln "flag = 1"))
     (Some ex_conf) "micro.conf" (<[3 := VBool false]> (<[1 := VInt 10]> ∅))).2 !! 1
  = Some (VInt 69) ∧
  (micro_conf_parse
     (one_file "micro.conf" (ln "a = 69" ++ ln "b: hello" ++ ln "a = 12abc" ++ ln "flag = 1"))
     (Some ex_conf) "micro.conf" (<[3 := VBool false]> (<[1 := VInt 10]> ∅))).2 !! 3
  = Some (VBool false).
Proof.
  destruct (first_error_aborts
              (one_file "micro.conf"
                 (ln "a = 69" ++ ln "b: hello" ++ ln "a = 12abc" ++ ln "flag = 1"))
              ex_conf "micro.conf"
              (mkFile (ln "a = 69" ++ ln "b: hello" ++ ln "a = 12abc" ++ ln "flag = 1") 0)
              [ln "a = 69"; ln "b: hello"] (ln "a = 12abc") [ln "flag = 1"]
              (<[3 := VBool false]> (<[1 := VInt 10]> ∅))
              (mkMicroConf MICRO_CONF_INT 1 (str "a")) MICRO_CONF_ERROR_INVALID_INT)
    as (H1 & _ & _ & H2 & H3).
  - reflexivity.
  - reflexivity.
  - repeat constructor.
  - reflexivity.
  - reflexivity.
  - split; [exact H1|]. split.
    + apply (H2 [] (ln "a = 69") [ln "b: hello"] (mkMicroConf MICRO_CONF_INT 1 (str "a"))
               (VInt 69)); [reflexivity..|].
      repeat constructor. intros c'' [= <-]. discriminate.
    + rewrite H3; [reflexivity|].
      repeat constructor; intros c' [= <-]; discriminate.
Defined.

(** C4: for a Bool binding the value strings "true" and "1" write true,
    "false" and "0" write false, and every other value string ends the
    call with [MICRO_CONF_ERROR_INVALID_BOOL]. *)
Theorem bool_conversion conf line σ c :
  selected conf line = Some c →
  type c = MICRO_CONF_BOOL →
  (value_string c line = str "true" ∨ value_string c line = str "1" →
   while_body conf line σ = (None, <[value c := VBool true]> σ)) ∧
  (value_string c line = str "false" ∨ value_string c line = str "0" →
   while_body conf line σ = (None, <[value c := VBool false]> σ)) ∧
  (value_string c line ∉ [str "true"; str "1"; str "false"; str "0"] →
   aborts_with conf line σ MICRO_CONF_ERROR_INVALID_BOOL).
Proof.
  intros Hc Ht.
  assert (while_body conf line σ
          = match convert c (value_string c line) with
            | inl err => (Some err, σ)
            | inr w => (None, <[value c := w]> σ)
            end) as Hw by (by rewrite while_body_convert, Hc).
  unfold convert in Hw. rewrite Ht in Hw. simpl in Hw.
  split; [|split].
  - intros Hv. by rewrite Hw, bool_decide_true.
  - intros Hv. rewrite Hw, bool_decide_false, bool_decide_true; [done..|].
    by intros [H|H]; destruct Hv as [Hv|Hv]; rewrite Hv in H.
  - intros Hv. apply aborts_with_intro.
    rewrite Hw, !bool_decide_false; [done|..].
    + intros [H|H]; apply Hv; rewrite H; set_solver.
    + intros [H|H]; apply Hv; rewrite H; set_solver.
Qed.

Lemma bool_conversion_witness :
  while_body ex_conf (ln "flag = true") ∅ = (None, <[3 := VBool true]> ∅) ∧
  while_body ex_conf (ln "flag: 0") ∅ = (None, <[3 := VBool false]> ∅) ∧
  aborts_with ex_conf (ln "flag = yes") ∅ MICRO_CONF_ERROR_INVALID_BOOL.
Proof.
  split; [|split].
  - apply (bool_conversion ex_conf (ln "flag = true") ∅
             (mkMicroConf MICRO_CONF_BOOL 3 (str "flag")));
      [reflexivity | reflexivity | left; reflexivity].
  - apply (bool_conversion ex_conf (ln "flag: 0") ∅
             (mkMicroConf MICRO_CONF_BOOL 3 (str "flag")));
      [reflexivity | reflexivity | right; reflexivity].
  - apply (bool_conversion ex_conf (ln "flag = yes") ∅
             (mkMicroConf MICRO_CONF_BOOL 3 (str "flag")));
      [reflexivity | reflexivity | ].
    vm_compute. intros H. repeat (apply elem_of_cons in H as [H|H]; [discriminate H|]).
    by apply elem_of_nil in H.
Defined.

(** C3: for an Int binding the value string is read in base 10 and the
    conversion has to consume all of it; a value string that ends in a
    byte that is not a digit, or that has such a byte anywhere after a
    digit, such as "12abc", ends the call with
    [MICRO_CONF_ERROR_INVALID_INT] and the store is left as it was. *)
Theorem int_conversion conf line σ c :
  selected conf line = Some c →
  type c = MICRO_CONF_INT →
  ((strtol_of (value_string c line)).2 = length (value_string c line) →
   while_body conf line σ
   = (None, <[value c := VInt (int_of_long (strtol_of (value_string c line)).1)]> σ)) ∧
  ((strtol_of (value_string c line)).2 ≠ length (value_string c line) →
   aborts_with conf line σ MICRO_CONF_ERROR_INVALID_INT) ∧
  (∀ ds, ds ≠ [] → Forall (λ x, isdigit x = true) ds →
   (value_string c line = ds →
    while_body conf line σ
    = (None, <[value c := VInt (int_of_long (clamp_long (digits_val 10 ds)))]> σ)) ∧
   (value_string c line = "-"%char :: ds →
    while_body conf line σ
    = (None, <[value c := VInt (int_of_long (clamp_long (- digits_val 10 ds)))]> σ))) ∧
  (∀ u x, value_string c line = u ++ [x] → isdigit x = false →
   aborts_with conf line σ MICRO_CONF_ERROR_INVALID_INT) ∧
  (∀ u d w x g, value_string c line = u ++ d :: w ++ x :: g →
   isdigit d = true → isdigit x = false →
   aborts_with conf line σ MICRO_CONF_ERROR_INVALID_INT).
Proof.
  intros Hc Ht.
  assert (while_body conf line σ
          = match convert c (value_string c line) with
            | inl err => (Some err, σ)
            | inr w => (None, <[value c := w]> σ)
            end) as Hw by (by rewrite while_body_convert, Hc).
  unfold convert in Hw. rewrite Ht in Hw. simpl in Hw.
  assert ((strtol_of (value_string c line)).2 ≠ length (value_string c line) →
          aborts_with conf line σ MICRO_CONF_ERROR_INVALID_INT) as Hbad.
  { intros Hn. apply aborts_with_intro. rewrite Hw.
    by destruct (Nat.eqb_spec (strtol_of (value_string c line)).2
                   (length (value_string c line))). }
  split; [|split; [done|split; [|split]]].
  - intros Hn. by rewrite Hw, Hn, Nat.eqb_refl.
  - intros ds Hne Hds. split; intros Hv; rewrite Hw, Hv.
    + rewrite strtol_of_digits by done. cbn [fst snd]. by rewrite Nat.eqb_refl.
    + rewrite strtol_of_minus by done. cbn [fst snd length]. by rewrite Nat.eqb_refl.
  - intros u x Hv Hx. apply Hbad. rewrite Hv. by apply strtol_of_last.
  - intros u d w x g Hv Hd Hx. apply Hbad. rewrite Hv. by apply strtol_of_garbage.
Qed.

Lemma int_conversion_witness :
  while_body ex_conf (ln "a = 69") ∅
  = (None, <[1 := VInt (int_of_long (clamp_long (digits_val 10 (str "69"))))]> ∅) ∧
  aborts_with ex_conf (ln "a = 12abc") ∅ MICRO_CONF_ERROR_INVALID_INT.
Proof.
  split.
  - destruct (int_conversion ex_conf (ln "a = 69") ∅
                (mkMicroConf MICRO_CONF_INT 1 (str "a")) eq_refl eq_refl)
      as (_ & _ & H & _).
    apply (H (str "69")); [discriminate | repeat constructor | reflexivity].
  - apply (int_conversion ex_conf (ln "a = 12abc") ∅
             (mkMicroConf MICRO_CONF_INT 1 (str "a")) eq_refl eq_refl)
        with (u := []) (d := "1"%char) (w := str "2") (x := "a"%char) (g := str "bc");
      reflexivity.
Defined.

(** C10: an empty value string is accepted for an Int, a Double and a
    Float binding, which receive zero, and is refused for a Bool and a
    Char binding. *)
Theorem empty_value conf line σ c :
  selected conf line = Some c →
  value_string c line = [] →
  (type c = MICRO_CONF_INT →
   while_body conf line σ = (None, <[value c := VInt 0]> σ)) ∧
  (type c = MICRO_CONF_DOUBLE →
   while_body conf line σ = (None, <[value c := VDouble fzero]> σ)) ∧
  (type c = MICRO_CONF_FLOAT →
   while_body conf line σ = (None, <[value c := VFloat fzero]> σ)) ∧
  (type c = MICRO_CONF_BOOL →
   aborts_with conf line σ MICRO_CONF_ERROR_INVALID_BOOL) ∧
  (type c = MICRO_CONF_CHAR →
   aborts_with conf line σ MICRO_CONF_ERROR_INVALID_CHAR).
Proof.
  intros Hc Hv.
  assert (while_body conf line σ
          = match convert c [] with
            | inl err => (Some err, σ)
            | inr w => (None, <[value c := w]> σ)
            end) as Hw by (by rewrite while_body_convert, Hc, Hv).
  unfold convert in Hw.
  split; [|split; [|split; [|split]]]; intros Ht;
    try apply aborts_with_intro; by rewrite Hw, Ht.
Qed.

Lemma empty_value_witness :
  while_body ex_conf (ln "a =") ∅ = (None, <[1 := VInt 0]> ∅) ∧
  while_body ex_conf (ln "d =") ∅ = (None, <[4 := VDouble fzero]> ∅) ∧
  while_body ex_conf (ln "f =") ∅ = (None, <[5 := VFloat fzero]> ∅) ∧
  aborts_with ex_conf (ln "flag =") ∅ MICRO_CONF_ERROR_INVALID_BOOL ∧
  aborts_with ex_conf (ln "c =") ∅ MICRO_CONF_ERROR_INVALID_CHAR.
Proof.
  split; [|split; [|split; [|split]]].
  - apply (empty_value ex_conf (ln "a =") ∅ (mkMicroConf MICRO_CONF_INT 1 (str "a")));
      reflexivity.
  - apply (empty_value ex_conf (ln "d =") ∅ (mkMicroConf MICRO_CONF_DOUBLE 4 (str "d")));
      reflexivity.
  - apply (empty_value ex_conf (ln "f =") ∅ (mkMicroConf MICRO_CONF_FLOAT 5 (str "f")));
      reflexivity.
  - apply (empty_value ex_conf (ln "flag =") ∅ (mkMicroConf MICRO_CONF_BOOL 3 (str "flag")));
      reflexivity.
  - apply (empty_value ex_conf (ln "c =") ∅ (mkMicroConf MICRO_CONF_CHAR 6 (str "c")));
      reflexivity.
Defined.

(** ** Lines of the form key, separator, value *)

Lemma is_end_is_sep c : is_end c = true → is_sep c = true.
Proof.
  unfold is_end, is_sep. intros [H|H]%orb_true_iff; rewrite H; by rewrite ?orb_true_r.
Qed.

Lemma is_sep_plain c : is_sep c = true → plain_char c = true.
Proof.
  unfold is_sep. intros [[H|H]%orb_true_iff|H]%orb_true_iff;
    apply Ascii.eqb_eq in H; by subst c.
Qed.

Lemma is_assign_plain c : is_assign c = true → plain_char c = true.
Proof.
  unfold is_assign. intros [H|H]%orb_true_iff; apply Ascii.eqb_eq in H; by subst c.
Qed.

Lemma is_assign_not_sep c : is_assign c = true → is_sep c = false.
Proof.
  unfold is_assign. intros [H|H]%orb_true_iff; apply Ascii.eqb_eq in H; by subst c.
Qed.

Lemma blank_plain w : blank w → Forall (λ c, plain_char c = true) w.
Proof. intros H. eapply Forall_impl; [done|]. apply is_sep_plain. Qed.

Lemma trailing_blank w : trailing w → blank w.
Proof. intros H. eapply Forall_impl; [done|]. apply is_end_is_sep. Qed.

Create HintDb layout.
#[local] Hint Resolve blank_plain trailing_blank is_assign_plain is_assign_not_sep : layout.

Lemma trim_left_app_blank w s : blank w → trim_left (w ++ s) = trim_left s.
Proof.
  intros Hw. unfold trim_left. rewrite span_app, span_all, Nat.eqb_refl by done.
  apply drop_app_add.
Qed.

Lemma trim_left_blank w : blank w → trim_left w = [].
Proof. intros Hw. unfold trim_left. rewrite span_all by done. apply drop_all. Qed.

Lemma trim_left_fixed s : is_sep (deref s) = false → trim_left s = s.
Proof. unfold trim_left. destruct s as [|c s]; simpl; [done|]. by intros ->. Qed.

Lemma trim_left_idemp s : trim_left (trim_left s) = trim_left s.
Proof. apply trim_left_fixed, deref_drop_span_sep. Qed.

Lemma value_text_trim_left r : value_text (trim_left r) = value_text r.
Proof. unfold value_text. by rewrite trim_left_idemp. Qed.

Lemma rstrip_trim_value v w :
  is_sep (deref v) = false → rstrip v = v → trailing w →
  rstrip (trim_left (v ++ w)) = v.
Proof.
  intros Hd Hv Hw. destruct v as [|c v].
  - simpl. by rewrite trim_left_blank by by apply trailing_blank.
  - rewrite trim_left_fixed by done. by rewrite rstrip_app_end.
Qed.

Lemma deref_trim_value v w :
  is_sep (deref v) = false → trailing w → deref (trim_left (v ++ w)) = deref v.
Proof.
  intros Hd Hw. destruct v as [|c v].
  - simpl. by rewrite trim_left_blank by by apply trailing_blank.
  - by rewrite trim_left_fixed.
Qed.

(** With a separator: whatever follows it is the value, be it another
    [=] or [:]. *)
Lemma value_text_sep w1 a w2 v w3 :
  blank w1 → is_assign a = true → blank w2 →
  is_sep (deref v) = false → rstrip v = v → trailing w3 →
  value_text (w1 ++ a :: w2 ++ v ++ w3) = v.
Proof.
  intros H1 Ha H2 Hd Hv H3. unfold value_text.
  rewrite trim_left_app_blank by done.
  rewrite (trim_left_fixed (a :: _)) by (by apply is_assign_not_sep).
  simpl deref. rewrite Ha. simpl drop. rewrite drop_0.
  rewrite trim_left_app_blank by done. by apply rstrip_trim_value.
Qed.

(** Without one. *)
Lemma value_text_nosep w1 v w3 :
  blank w1 → is_sep (deref v) = false → is_assign (deref v) = false →
  rstrip v = v → trailing w3 →
  value_text (w1 ++ v ++ w3) = v.
Proof.
  intros H1 Hd Ha Hv H3. unfold value_text.
  rewrite trim_left_app_blank by done.
  rewrite deref_trim_value, Ha, trim_left_idemp by done.
  by apply rstrip_trim_value.
Qed.

Lemma selected_Some conf line c :
  selected conf line = Some c →
  trimmed_text line ≠ [] ∧ select conf (trimmed_text line) = Some c.
Proof. unfold selected. by destruct (trimmed_text line). Qed.

Lemma selected_select conf line :
  trimmed_text line ≠ [] → selected conf line = select conf (trimmed_text line).
Proof. unfold selected. by destruct (trimmed_text line). Qed.

Lemma selected_key_not_sep conf line c :
  selected conf line = Some c → is_sep (deref (key c)) = false.
Proof.
  intros [Hne [_ [r Hr]]%select_elem]%selected_Some.
  destruct (key c) as [|x k]; [done|]. simpl.
  pose proof (deref_drop_span_sep (text_of line)) as Hd.
  fold (trim_left (text_of line)) in Hd. fold (trimmed_text line) in Hd.
  by rewrite Hr in Hd.
Qed.

Lemma text_of_all_plain line : Forall (λ c, plain_char c = true) (text_of line).
Proof. rewrite text_of_span. apply span_Forall. Qed.

Lemma selected_key_plain conf line c :
  selected conf line = Some c → Forall (λ x, plain_char x = true) (key c).
Proof.
  intros [_ [_ [r Hr]]%select_elem]%selected_Some.
  pose proof (text_of_all_plain line) as Hp.
  apply (Forall_drop _ (span is_sep (text_of line))) in Hp.
  fold (trim_left (text_of line)) in Hp. fold (trimmed_text line) in Hp.
  rewrite Hr in Hp. by apply Forall_app in Hp as [? _].
Qed.

(** The value string of a line that starts with the key of its binding. *)
Lemma value_string_key c w0 rest :
  blank w0 → is_sep (deref (key c)) = false →
  Forall (λ x, plain_char x = true) (key c ++ rest) →
  value_string c (w0 ++ key c ++ rest) = value_text rest.
Proof.
  intros H0 Hk Hp. unfold value_string, trimmed_text.
  rewrite text_of_plain by (apply Forall_app; split; [by apply blank_plain|done]).
  rewrite trim_left_app_blank by done.
  destruct (key c) as [|x k] eqn:E.
  - simpl. apply value_text_trim_left.
  - rewrite trim_left_fixed by done. by rewrite drop_app_length.
Qed.

Lemma while_body_selected conf line σ c :
  selected conf line = Some c →
  while_body conf line σ = switch_type c (value_string c line) σ.
Proof. intros H. by rewrite while_body_text, H. Qed.

Lemma is_value_assign a v : is_assign a = true → is_value v → is_value (a :: v).
Proof.
  intros Ha (Hp & Hd & Hr). split; [|split].
  - constructor; [by apply is_assign_plain|done].
  - by apply is_assign_not_sep.
  - simpl. rewrite Hr. destruct v; [|done].
    destruct (is_end a) eqn:E; [|done].
    apply is_end_is_sep in E. by rewrite is_assign_not_sep in E.
Qed.

(** The value string of a line with a separator. *)
Lemma value_string_sep c w0 w1 a w2 v w3 :
  is_sep (deref (key c)) = false → Forall (λ x, plain_char x = true) (key c) →
  blank w0 → blank w1 → is_assign a = true → blank w2 → is_value v → trailing w3 →
  value_string c (w0 ++ key c ++ w1 ++ a :: w2 ++ v ++ w3) = v.
Proof.
  intros Hk Hkp H0 H1 Ha H2 (Hp & Hd & Hr) H3.
  rewrite value_string_key; [by apply value_text_sep|done..|].
  repeat first [apply Forall_app; split | apply Forall_cons; split];
    auto with layout.
Qed.

(** The value string of a line without one. *)
Lemma value_string_nosep c w0 w1 v w3 :
  is_sep (deref (key c)) = false → Forall (λ x, plain_char x = true) (key c) →
  blank w0 → blank w1 → is_value v → is_assign (deref v) = false → trailing w3 →
  value_string c (w0 ++ key c ++ w1 ++ v ++ w3) = v.
Proof.
  intros Hk Hkp H0 H1 (Hp & Hd & Hr) Ha H3.
  rewrite value_string_key; [by apply value_text_nosep|done..|].
  repeat first [apply Forall_app; split]; auto with layout.
Qed.

(** Spaces, tabs and newlines before the key and around the separator,
    and spaces and newlines after the value, do not change what a line
    with a separator does. *)
Lemma line_with_sep conf σ c w0 w1 a w2 v w3 :
  blank w0 → blank w1 → is_assign a = true → blank w2 → is_value v → trailing w3 →
  selected conf (w0 ++ key c ++ w1 ++ a :: w2 ++ v ++ w3) = Some c →
  while_body conf (w0 ++ key c ++ w1 ++ a :: w2 ++ v ++ w3) σ = switch_type c v σ.
Proof.
  intros H0 H1 Ha H2 Hv H3 Hc.
  rewrite (while_body_selected _ _ _ c Hc), value_string_sep;
    eauto using selected_key_not_sep, selected_key_plain.
Qed.

(** The same for a line without a separator. *)
Lemma line_without_sep conf σ c w0 w1 v w3 :
  blank w0 → blank w1 → is_value v → is_assign (deref v) = false → trailing w3 →
  selected conf (w0 ++ key c ++ w1 ++ v ++ w3) = Some c →
  while_body conf (w0 ++ key c ++ w1 ++ v ++ w3) σ = switch_type c v σ.
Proof.
  intros H0 H1 Hv Ha H3 Hc.
  rewrite (while_body_selected _ _ _ c Hc), value_string_nosep;
    eauto using selected_key_not_sep, selected_key_plain.
Qed.

(** C8: after the key, separators are skipped and one [=] or [:] is
    taken if it comes next; the separator is optional, so that a line
    "key value" does what "key = value" and "key: value" do.  Only one
    [=] or [:] is taken: a second one starts the value. *)
Theorem separator_optional conf σ c w0 w1 w2 w3 a v :
  blank w0 → blank w1 → blank w2 → trailing w3 →
  is_assign a = true →
  is_value v → is_assign (deref v) = false →
  selected conf (w0 ++ key c ++ w1 ++ v ++ w3) = Some c →
  selected conf (w0 ++ key c ++ w1 ++ a :: w2 ++ v ++ w3) = Some c →
  value_string c (w0 ++ key c ++ w1 ++ v ++ w3) = v ∧
  value_string c (w0 ++ key c ++ w1 ++ a :: w2 ++ v ++ w3) = v ∧
  while_body conf (w0 ++ key c ++ w1 ++ v ++ w3) σ = switch_type c v σ ∧
  while_body conf (w0 ++ key c ++ w1 ++ a :: w2 ++ v ++ w3) σ = switch_type c v σ ∧
  ∀ a', is_assign a' = true →
        value_string c (w0 ++ key c ++ w1 ++ a :: w2 ++ (a' :: v) ++ w3) = a' :: v.
Proof.
  intros H0 H1 H2 H3 Ha Hv Hva Hc1 Hc2.
  pose proof (selected_key_not_sep _ _ _ Hc1) as Hk.
  pose proof (selected_key_plain _ _ _ Hc1) as Hkp.
  split; [by apply value_string_nosep|].
  split; [by apply value_string_sep|].
  split; [by apply line_without_sep|].
  split; [by apply line_with_sep|].
  intros a' Ha'. apply value_string_sep; auto using is_value_assign.
Qed.

Lemma separator_optional_witness :
  while_body ex_conf (ln "a 69") ∅ = (None, <[1 := VInt 69]> ∅) ∧
  while_body ex_conf (ln "a = 69") ∅ = (None, <[1 := VInt 69]> ∅) ∧
  value_string (mkMicroConf MICRO_CONF_INT 1 (str "a")) (ln "a = =69") = str "=69".
Proof.
  destruct (separator_optional ex_conf ∅ (mkMicroConf MICRO_CONF_INT 1 (str "a"))
              [] [SPACE] [SPACE] [LF] "="%char (str "69"))
    as (_ & _ & H1 & H2 & H3).
  - constructor.
  - repeat constructor.
  - repeat constructor.
  - repeat constructor.
  - reflexivity.
  - split; [repeat constructor | split; reflexivity].
  - reflexivity.
  - reflexivity.
  - reflexivity.
  - split; [exact H1 | split; [exact H2 | exact (H3 "="%char eq_refl)]].
Defined.

(** Two layouts of one line with a separator do the same, as long as
    what follows the value is made of spaces and newlines. *)
Corollary whitespace_insensitive conf σ c a v w0 w1 w2 w3 w0' w1' w2' w3' :
  blank w0 → blank w1 → blank w2 → trailing w3 →
  blank w0' → blank w1' → blank w2' → trailing w3' →
  is_assign a = true → is_value v →
  selected conf (w0 ++ key c ++ w1 ++ a :: w2 ++ v ++ w3) = Some c →
  selected conf (w0' ++ key c ++ w1' ++ a :: w2' ++ v ++ w3') = Some c →
  while_body conf (w0 ++ key c ++ w1 ++ a :: w2 ++ v ++ w3) σ
  = while_body conf (w0' ++ key c ++ w1' ++ a :: w2' ++ v ++ w3') σ.
Proof. intros. by rewrite !line_with_sep. Qed.

(** C1: a tab after the value is not cut off with the spaces and the
    newline, it stays in the value string: "a = 69" fills the Int binding
    and so does the line with a space after the value, the line with a
    tab after the value ends the call with an error and writes nothing,
    and a Str binding receives the tab. *)
Theorem trailing_tab_not_trimmed :
  micro_conf_parse (one_file "micro.conf" (str "a = 69" ++ [LF]))
    (Some ex_conf) "micro.conf" ∅ = (MICRO_CONF_OK, <[1 := VInt 69]> ∅) ∧
  micro_conf_parse (one_file "micro.conf" (str "a = 69" ++ [SPACE; LF]))
    (Some ex_conf) "micro.conf" ∅ = (MICRO_CONF_OK, <[1 := VInt 69]> ∅) ∧
  micro_conf_parse (one_file "micro.conf" (str "a = 69" ++ [TAB; LF]))
    (Some ex_conf) "micro.conf" ∅ = (MICRO_CONF_ERROR_INVALID_INT, ∅) ∧
  value_string (mkMicroConf MICRO_CONF_INT 1 (str "a")) (str "a = 69" ++ [TAB; LF])
  = str "69" ++ [TAB] ∧
  micro_conf_parse (one_file "micro.conf" (str "b = hi" ++ [TAB; LF]))
    (Some ex_conf) "micro.conf" ∅ = (MICRO_CONF_OK, <[2 := VStr (str "hi" ++ [TAB])]> ∅).
Proof. repeat split; vm_compute; reflexivity. Qed.

Lemma while_body_same_text conf l1 l2 σ :
  text_of l1 = text_of l2 → while_body conf l1 σ = while_body conf l2 σ.
Proof.
  intros H. rewrite !while_body_text. unfold selected, value_string, trimmed_text.
  by rewrite H.
Qed.

Lemma trimmed_text_blank w : blank w → trimmed_text w = [].
Proof.
  intros Hw. unfold trimmed_text. rewrite text_of_plain by by apply blank_plain.
  by apply trim_left_blank.
Qed.

Lemma while_body_no_candidate conf line σ :
  trimmed_text line = [] → while_body conf line σ = (None, σ).
Proof. intros H. rewrite while_body_text. unfold selected. by rewrite H. Qed.

(** C7: what follows the first [#] of a line is dropped before the key
    is looked for, so that a line with a comment does what the line
    without it does, and a line of separators, with or without a
    comment, yields no candidate and is skipped. *)
Theorem comment_stripped conf a b w σ :
  blank w →
  text_of (a ++ "#"%char :: b) = text_of a ∧
  while_body conf (a ++ "#"%char :: b) σ = while_body conf a σ ∧
  trimmed_text (w ++ "#"%char :: b) = [] ∧
  while_body conf (w ++ "#"%char :: b) σ = (None, σ) ∧
  trimmed_text w = [] ∧
  while_body conf w σ = (None, σ) ∧
  while_body ex_conf (ln "a = 5 # comment") σ = while_body ex_conf (ln "a = 5") σ.
Proof.
  intros Hw.
  assert (trimmed_text (w ++ "#"%char :: b) = []) as Hc.
  { unfold trimmed_text. rewrite text_of_hash. by apply trimmed_text_blank. }
  split; [apply text_of_hash|].
  split; [apply while_body_same_text, text_of_hash|].
  split; [done|].
  split; [by apply while_body_no_candidate|].
  split; [by apply trimmed_text_blank|].
  split; [by apply while_body_no_candidate, trimmed_text_blank|].
  rewrite !while_body_convert. reflexivity.
Qed.

Lemma comment_stripped_witness :
  while_body ex_conf (str "b: hello world   " ++ "#"%char :: ln " greeting") ∅
  = while_body ex_conf (str "b: hello world   ") ∅ ∧
  while_body ex_conf ([SPACE; TAB] ++ "#"%char :: ln " only a comment") ∅ = (None, ∅) ∧
  while_body ex_conf [SPACE; TAB] ∅ = (None, ∅).
Proof.
  destruct (comment_stripped ex_conf (str "b: hello world   ") (ln " greeting") [SPACE; TAB] ∅)
    as (_ & H1 & _); [repeat constructor|].
  destruct (comment_stripped ex_conf [] (ln " only a comment") [SPACE; TAB] ∅)
    as (_ & _ & _ & H2 & _ & H3 & _); [repeat constructor|].
  split; [exact H1 | split; [exact H2 | exact H3]].
Defined.

(** ** One write per line, the last write stays *)

Lemma NoDup_value_inj conf c c' :
  NoDup (value <$> conf) → c ∈ conf → c' ∈ conf → value c = value c' → c = c'.
Proof.
  induction conf as [|x conf IH]; intros Hnd Hc Hc' Hv; [by apply elem_of_nil in Hc|].
  rewrite fmap_cons in Hnd. apply NoDup_cons in Hnd as [Hx Hnd].
  apply elem_of_cons in Hc as [->|Hc], Hc' as [->|Hc']; [done| | |by apply IH].
  - exfalso. apply Hx. rewrite Hv. by apply list_elem_of_fmap_2.
  - exfalso. apply Hx. rewrite <- Hv. by apply list_elem_of_fmap_2.
Qed.

Lemma selected_elem conf line c : selected conf line = Some c → c ∈ conf.
Proof. by intros [_ [? _]%select_elem]%selected_Some. Qed.

(** A line selects the first binding, in the order of the list, whose key
    is a prefix of its trimmed text. *)
Lemma selected_first conf line c :
  selected conf line = Some c ↔
  trimmed_text line ≠ [] ∧
  ∃ pre post, conf = pre ++ c :: post ∧ key c `prefix_of` trimmed_text line ∧
              Forall (λ c', ¬ key c' `prefix_of` trimmed_text line) pre.
Proof.
  rewrite <- select_first. split; [apply selected_Some|].
  intros [Hne Hc]. by rewrite selected_select.
Qed.

(** A line leaves the store alone or writes the destination of the
    binding it selects. *)
Lemma while_body_one_write conf line σ :
  (while_body conf line σ).2 = σ ∨
  ∃ c w, selected conf line = Some c ∧ (while_body conf line σ).2 = <[value c := w]> σ.
Proof.
  rewrite while_body_convert. destruct (selected conf line) as [c|]; [|by left].
  destruct (convert c (value_string c line)) as [e|w]; [by left|].
  right. by exists c, w.
Qed.

(** C6: the binding that a line selects is the first one, in the order
    of the list, whose key is a prefix of the trimmed line, byte for byte
    (the key "x" is selected by "xyz=1", the key "X" is not selected by
    "x=1"); a line writes the destination of that binding and no other;
    and when no later line selects the binding, its destination holds the
    value of this line at the end of the call. *)
Theorem first_match_last_write fs conf pathname f before line after σ σ1 c w :
  NoDup (value <$> conf) →
  fs !! pathname = Some f →
  getlines (f_data f) = before ++ line :: after →
  while_getline conf before σ = (None, σ1) →
  selected conf line = Some c →
  convert c (value_string c line) = inr w →
  Forall (λ l, selected conf l ≠ Some c) after →
  (∀ l c', selected conf l = Some c' ↔
           trimmed_text l ≠ [] ∧
           ∃ pre post, conf = pre ++ c' :: post ∧ key c' `prefix_of` trimmed_text l ∧
                       Forall (λ x, ¬ key x `prefix_of` trimmed_text l) pre) ∧
  selected [mkMicroConf MICRO_CONF_INT 1 (str "x")] (ln "xyz=1")
  = Some (mkMicroConf MICRO_CONF_INT 1 (str "x")) ∧
  selected [mkMicroConf MICRO_CONF_INT 1 (str "X")] (ln "x=1") = None ∧
  (∀ l σ', (while_body conf l σ').2 = σ' ∨
           ∃ c' w', selected conf l = Some c' ∧
                    (while_body conf l σ').2 = <[value c' := w']> σ') ∧
  while_body conf line σ1 = (None, <[value c := w]> σ1) ∧
  (micro_conf_parse fs (Some conf) pathname σ).2 !! value c = Some w.
Proof.
  intros Hnd Hf Hl Hb Hc Hw Hafter.
  assert (while_body conf line σ1 = (None, <[value c := w]> σ1)) as Hline
    by (by rewrite while_body_convert, Hc, Hw).
  split; [intros l c'; apply selected_first|].
  split; [reflexivity|]. split; [reflexivity|].
  split; [intros l σ'; apply while_body_one_write|].
  split; [done|].
  rewrite (micro_conf_parse_store fs conf pathname f) by done.
  rewrite Hl, while_getline_app, Hb. simpl. rewrite Hline.
  rewrite while_getline_other; [apply lookup_insert_eq|].
  eapply Forall_impl; [exact Hafter|]. intros l Hl' c' Hc' Hv. apply Hl'.
  rewrite Hc'. f_equal.
  apply (NoDup_value_inj conf); eauto using selected_elem.
Qed.

Lemma first_match_last_write_witness :
  (micro_conf_parse
     (one_file "micro.conf" (ln "a = 1" ++ ln "a = 2" ++ ln "b = x" ++ ln "a = 3" ++ ln "b = y"))
     (Some ex_conf) "micro.conf" ∅).2 !! 1 = Some (VInt 3).
Proof.
  apply (first_match_last_write _ ex_conf "micro.conf"
           (mkFile (ln "a = 1" ++ ln "a = 2" ++ ln "b = x" ++ ln "a = 3" ++ ln "b = y") 0)
           [ln "a = 1"; ln "a = 2"; ln "b = x"] (ln "a = 3") [ln "b = y"] ∅
           (<[2 := VStr (str "x")]> (<[1 := VInt 2]> (<[1 := VInt 1]> ∅)))
           (mkMicroConf MICRO_CONF_INT 1 (str "a")) (VInt 3)).
  - apply (bool_decide_unpack _). vm_compute. exact I.
  - reflexivity.
  - reflexivity.
  - reflexivity.
  - reflexivity.
  - reflexivity.
  - repeat constructor. discriminate.
Defined.

(** ** The scenario of the documentation, run *)

Example end_to_end :
  micro_conf_parse
    (one_file "micro.conf" (ln "a = 69" ++ ln "b: hello world   # greeting"))
    (Some [mkMicroConf MICRO_CONF_INT 1 (str "a"); mkMicroConf MICRO_CONF_STR 2 (str "b")])
    "micro.conf" (<[1 := VInt 10]> ∅)
  = (MICRO_CONF_OK, <[2 := VStr (str "hello world")]> (<[1 := VInt 69]> ∅)).
Proof. vm_compute. reflexivity. Qed.

Example close_failure :
  micro_conf_parse {[ "micro.conf"%string := mkFile (ln "a = 69") (-1) ]}
    (Some ex_conf) "micro.conf" ∅
  = (MICRO_CONF_ERROR_CLOSING_FILE, <[1 := VInt 69]> ∅).
Proof. vm_compute. reflexivity. Qed.

Example null_conf :
  micro_conf_parse ∅ None "micro.conf" ∅ = (MICRO_CONF_ERROR_CONF_NULL, ∅).
Proof. reflexivity. Qed.

(** * More of the code *)

(** ** [left_space] on its own *)

Lemma left_space_loop_spec input pos input_size line column :
  let k := Nat.min (span is_sep input) (Z.to_nat (input_size - pos)) in
  left_space_loop input pos input_size line column
  = (pos + Z.of_nat k,
     (λ l, l + count_lf (take k input)) <$> line,
     column_after (take k input) <$> column).
Proof.
  assert (∀ (pos : Z) (line column : option Z),
            (pos, line, column)
            = (pos + 0, (λ l : Z, l + 0) <$> line, (λ c : Z, c) <$> column)) as Hstop
    by (intros ? [?|] [?|]; simpl; by rewrite ?Z.add_0_r).
  revert pos line column.
  induction input as [|c input IH]; intros pos line column; simpl; [apply Hstop|].
  destruct (Z.ltb_spec pos input_size) as [Hlt|Hge]; simpl.
  - destruct (is_sep c) eqn:Hc; [|apply Hstop].
    replace (Z.to_nat (input_size - pos)) with (S (Z.to_nat (input_size - (pos + 1))))
      by lia.
    rewrite <- Nat.succ_min_distr. cbn [take count_lf column_after].
    destruct (Ascii.eqb c LF) eqn:Hlf; rewrite IH; cbn zeta.
    + destruct line, column; simpl; rewrite ?Z.add_0_l;
        repeat (f_equal; try lia).
    + destruct line, column; simpl; repeat (f_equal; try lia).
  - replace (Z.to_nat (input_size - pos)) with 0%nat by lia.
    rewrite Nat.min_0_r. apply Hstop.
Qed.

Lemma left_space_full p input_size line column :
  let k := Nat.min (span is_sep p) (Z.to_nat input_size) in
  left_space (Some p) input_size line column
  = (Z.of_nat k,
     (λ l, l + count_lf (take k p)) <$> line,
     column_after (take k p) <$> column).
Proof.
  unfold left_space. destruct (Z.eqb_spec input_size 0) as [->|_].
  - simpl. rewrite Nat.min_0_r. destruct line, column; simpl; by rewrite ?Z.add_0_r.
  - rewrite left_space_loop_spec, Z.sub_0_r. done.
Qed.

(** X1: What [left_space] returns: the number of spaces, tabs and newlines in
    front of the input, or the size given if that is smaller (nothing for
    a size that is not positive).  The bytes it counted are separators
    all, it never counts more than the buffer holds, and below the size
    it stops on a byte that is none. *)
Theorem left_space_count p input_size line column :
  let pos := (left_space (Some p) input_size line column).1.1 in
  pos = Z.min (Z.of_nat (span is_sep p)) (Z.max 0 input_size) ∧
  0 ≤ pos ≤ Z.of_nat (length p) ∧
  Forall (λ c, is_sep c = true) (take (Z.to_nat pos) p) ∧
  (pos < input_size → is_sep (index p (Z.to_nat pos)) = false).
Proof.
  rewrite left_space_full. cbn [fst snd]. pose proof (span_le is_sep p) as Hle.
  set (k := Nat.min (span is_sep p) (Z.to_nat input_size)).
  assert (k ≤ span is_sep p)%nat as Hk by (unfold k; lia).
  split; [unfold k; lia|]. split; [lia|]. rewrite Nat2Z.id. split.
  - replace (take k p) with (take k (take (span is_sep p) p))
      by (rewrite take_take; f_equal; lia).
    apply Forall_take, span_Forall.
  - intros Hlt. assert (k = span is_sep p) as -> by (unfold k in *; lia).
    apply deref_drop_span_sep.
Qed.

Lemma count_lf_bounds s : 0 ≤ count_lf s ≤ Z.of_nat (length s).
Proof.
  induction s as [|c s IH]; simpl; [lia|]. destruct (Ascii.eqb c LF); lia.
Qed.

Lemma column_after_no_lf s col : LF ∉ s → column_after s col = col + Z.of_nat (length s).
Proof.
  revert col. induction s as [|c s IH]; intros col Hs; simpl; [lia|].
  apply not_elem_of_cons in Hs as [Hc Hs].
  destruct (Ascii.eqb_spec c LF) as [->|_]; [done|]. rewrite IH by done. lia.
Qed.

Lemma column_after_lf u v col :
  LF ∉ v → column_after (u ++ LF :: v) col = Z.of_nat (length v).
Proof.
  intros Hv. revert col. induction u as [|c u IH]; intros col; simpl.
  - by rewrite column_after_no_lf.
  - apply IH.
Qed.

(** X2: The counters of [left_space], when the caller passes them and they
    do not wrap: the line counter grows by the number of newlines among
    the bytes counted; the column counter grows by the number of bytes
    counted when there is no newline among them, and is the number of
    bytes counted after the last newline otherwise. *)
Theorem left_space_counters p input_size line column :
  (∀ l, line = Some l → 0 ≤ l ∧ l + Z.of_nat (length p) ≤ UINT_MAX) →
  (∀ c, column = Some c → 0 ≤ c ∧ c + Z.of_nat (length p) ≤ UINT_MAX) →
  let r := left_space (Some p) input_size line column in
  let skipped := take (Z.to_nat r.1.1) p in
  r.1.2 = (λ l, l + count_lf skipped) <$> line ∧
  (LF ∉ skipped → r.2 = (λ c, c + r.1.1) <$> column) ∧
  (∀ u v, skipped = u ++ LF :: v → LF ∉ v →
          r.2 = (λ _, Z.of_nat (length v)) <$> column).
Proof.
  intros _ _. rewrite left_space_full. cbn [fst snd]. rewrite Nat2Z.id.
  set (k := Nat.min (span is_sep p) (Z.to_nat input_size)).
  split; [done|]. split.
  - intros Hs. destruct column as [c|]; simpl; [|done].
    rewrite column_after_no_lf by done. rewrite length_take.
    pose proof (span_le is_sep p). do 2 f_equal. unfold k. lia.
  - intros u v Hs Hv. destruct column as [c|]; simpl; [|done].
    by rewrite Hs, column_after_lf.
Qed.

Lemma left_space_counters_witness :
  left_space (Some ([SPACE; LF; TAB; SPACE] ++ str "x = 1")) 9 (Some 4) (Some 7)
  = (4, Some 5, Some 2).
Proof.
  pose proof (left_space_counters ([SPACE; LF; TAB; SPACE] ++ str "x = 1") 9
                (Some 4) (Some 7)) as H.
  destruct H as (H1 & _ & H3).
  - intros l [= <-]. vm_compute. split; discriminate.
  - intros c [= <-]. vm_compute. split; discriminate.
  - specialize (H3 [SPACE] [TAB; SPACE] eq_refl).
    assert (LF ∉ [TAB; SPACE]) as Hv
      by (intros Hin; repeat (apply elem_of_cons in Hin as [Hin|Hin]; [discriminate Hin|]);
          by apply elem_of_nil in Hin).
    specialize (H3 Hv).
    destruct (left_space (Some ([SPACE; LF; TAB; SPACE] ++ str "x = 1")) 9 (Some 4) (Some 7))
      as [[pos l] c] eqn:E.
    cbn [fst snd] in H1, H3. rewrite H1, H3.
    vm_compute in E. injection E as <- _ _. reflexivity.
Defined.

(** ** The value string and the other conversions *)

Lemma rstrip_idemp s : rstrip (rstrip s) = rstrip s.
Proof.
  induction s as [|c s IH]; simpl; [done|].
  destruct (rstrip s) as [|x r] eqn:E.
  - destruct (is_end c) eqn:Hc; simpl; [done|by rewrite Hc].
  - simpl in *. by rewrite IH.
Qed.

Lemma rstrip_deref s : rstrip s ≠ [] → deref (rstrip s) = deref s.
Proof.
  destruct s as [|c s]; simpl; [done|].
  destruct (rstrip s); [|done]. by destruct (is_end c).
Qed.

Lemma Forall_rstrip (P : ascii → Prop) s : Forall P s → Forall P (rstrip s).
Proof.
  intros H. destruct (rstrip_spec s) as (w & Hw & _). rewrite Hw in H.
  by apply Forall_app in H as [? _].
Qed.

Lemma is_value_value_text r :
  Forall (λ c, plain_char c = true) r → is_value (value_text r).
Proof.
  intros Hr. unfold value_text.
  set (r2 := if is_assign (deref (trim_left r)) then drop 1 (trim_left r) else trim_left r).
  assert (Forall (λ c, plain_char c = true) r2) as H2.
  { unfold r2, trim_left. destruct (is_assign _); repeat apply Forall_drop; done. }
  split; [|split].
  - apply Forall_rstrip. unfold trim_left. by apply Forall_drop.
  - destruct (rstrip (trim_left r2)) eqn:E; [done|]. rewrite <- E.
    rewrite rstrip_deref by (by rewrite E). apply deref_drop_span_sep.
  - apply rstrip_idemp.
Qed.

(** The value string that a line hands to the conversion has no NUL and
    no [#] in it, no space, tab or newline in front, and no space or
    newline at its end. *)
Lemma is_value_value_string c line : is_value (value_string c line).
Proof.
  apply is_value_value_text. unfold trimmed_text, trim_left.
  repeat apply Forall_drop. apply text_of_all_plain.
Qed.

Lemma while_body_selected_convert conf line σ c :
  selected conf line = Some c →
  while_body conf line σ
  = match convert c (value_string c line) with
    | inl err => (Some err, σ)
    | inr w => (None, <[value c := w]> σ)
    end.
Proof. intros Hc. by rewrite while_body_convert, Hc. Qed.

(** X3: Char: a value string of one byte writes that byte, which is never a
    space, a tab, a newline, a [#] or NUL; a value string of any other
    length ends the call with [MICRO_CONF_ERROR_INVALID_CHAR]. *)
Theorem char_conversion conf line σ c :
  selected conf line = Some c →
  type c = MICRO_CONF_CHAR →
  (∀ x, value_string c line = [x] →
        while_body conf line σ = (None, <[value c := VChar x]> σ) ∧
        is_sep x = false ∧ x ≠ "#"%char ∧ x ≠ NUL) ∧
  (length (value_string c line) ≠ 1%nat →
   aborts_with conf line σ MICRO_CONF_ERROR_INVALID_CHAR).
Proof.
  intros Hc Ht. pose proof (while_body_selected_convert conf line σ c Hc) as Hw.
  unfold convert in Hw. rewrite Ht in Hw. simpl in Hw. split.
  - intros x Hx. rewrite Hx in Hw. split; [done|].
    destruct (is_value_value_string c line) as (Hp & Hd & _). rewrite Hx in Hp, Hd.
    split; [done|]. apply Forall_inv in Hp. unfold plain_char in Hp.
    apply andb_true_iff in Hp as [H1 H2].
    apply negb_true_iff, Ascii.eqb_neq in H1, H2. done.
  - intros Hl. apply aborts_with_intro. rewrite Hw.
    by destruct (value_string c line) as [|x [|y v]].
Qed.

Lemma char_conversion_witness :
  while_body ex_conf (ln "c: x") ∅ = (None, <[6 := VChar "x"]> ∅) ∧
  aborts_with ex_conf (ln "c = xy") ∅ MICRO_CONF_ERROR_INVALID_CHAR.
Proof.
  split.
  - destruct (char_conversion ex_conf (ln "c: x") ∅
                (mkMicroConf MICRO_CONF_CHAR 6 (str "c")) eq_refl eq_refl) as [H _].
    apply (H "x"%char eq_refl).
  - apply (char_conversion ex_conf (ln "c = xy") ∅
             (mkMicroConf MICRO_CONF_CHAR 6 (str "c")) eq_refl eq_refl).
    vm_compute. discriminate.
Defined.

(** X4: Str: the conversion never fails; the destination receives the value
    string as it is, inner spaces and tabs included, without separators
    in front and without spaces and newlines at the end. *)
Theorem str_conversion conf line σ c :
  selected conf line = Some c →
  type c = MICRO_CONF_STR →
  while_body conf line σ = (None, <[value c := VStr (value_string c line)]> σ) ∧
  is_value (value_string c line) ∧
  ∀ w0 w1 a w2 v w3,
    line = w0 ++ key c ++ w1 ++ a :: w2 ++ v ++ w3 →
    blank w0 → blank w1 → is_assign a = true → blank w2 → is_value v → trailing w3 →
    value_string c line = v.
Proof.
  intros Hc Ht. pose proof (while_body_selected_convert conf line σ c Hc) as Hw.
  unfold convert in Hw. rewrite Ht in Hw. simpl in Hw.
  split; [done|]. split; [apply is_value_value_string|].
  intros w0 w1 a w2 v w3 -> H0 H1 Ha H2 Hv H3.
  apply value_string_sep; eauto using selected_key_not_sep, selected_key_plain.
Qed.

Lemma str_conversion_witness :
  while_body ex_conf (ln "b = hello  big world  ") ∅
  = (None, <[2 := VStr (str "hello  big world")]> ∅).
Proof.
  destruct (str_conversion ex_conf (ln "b = hello  big world  ") ∅
              (mkMicroConf MICRO_CONF_STR 2 (str "b")) eq_refl eq_refl) as [H _].
  exact H.
Defined.

(** X6: A binding whose type is none of the enumeration ends the call with
    [MICRO_CONF_ERROR_UNKNOWN_TYPE] on the first line that selects it,
    whatever the value. *)
Theorem unknown_type conf line σ c :
  selected conf line = Some c →
  ¬ known_type (type c) →
  aborts_with conf line σ MICRO_CONF_ERROR_UNKNOWN_TYPE.
Proof.
  intros Hc Ht. apply aborts_with_intro.
  rewrite (while_body_selected_convert conf line σ c Hc). unfold convert, known_type in *.
  unfold MICRO_CONF_BOOL, MICRO_CONF_CHAR, MICRO_CONF_STR, MICRO_CONF_INT,
    MICRO_CONF_DOUBLE, MICRO_CONF_FLOAT.
  repeat match goal with
         | |- context [type c =? ?t] => destruct (Z.eqb_spec (type c) t); [lia|]
         end.
  done.
Qed.

Lemma unknown_type_witness :
  aborts_with [mkMicroConf 7 1 (str "a")] (ln "a = 1") ∅ MICRO_CONF_ERROR_UNKNOWN_TYPE.
Proof.
  apply (unknown_type _ _ _ (mkMicroConf 7 1 (str "a"))); [reflexivity|].
  unfold known_type. simpl. lia.
Defined.

Lemma convert_type c v w : convert c v = inr w → val_type w = type c.
Proof.
  unfold convert.
  repeat match goal with
         | |- context [type c =? ?t] => destruct (Z.eqb_spec (type c) t)
         end;
    repeat match goal with
           | |- context [bool_decide ?P] => destruct (bool_decide P)
           | |- context [Nat.eqb ?a ?b] => destruct (Nat.eqb a b)
           end;
    try (by intros [= <-]).
  destruct v as [|x [|y v]]; by intros [= <-].
Qed.

Lemma convert_error c v err :
  convert c v = inl err →
  (type c = MICRO_CONF_BOOL ∧ err = MICRO_CONF_ERROR_INVALID_BOOL) ∨
  (type c = MICRO_CONF_CHAR ∧ err = MICRO_CONF_ERROR_INVALID_CHAR) ∨
  (type c = MICRO_CONF_INT ∧ err = MICRO_CONF_ERROR_INVALID_INT) ∨
  (type c = MICRO_CONF_DOUBLE ∧ err = MICRO_CONF_ERROR_INVALID_DOUBLE) ∨
  (type c = MICRO_CONF_FLOAT ∧ err = MICRO_CONF_ERROR_INVALID_FLOAT) ∨
  (¬ known_type (type c) ∧ err = MICRO_CONF_ERROR_UNKNOWN_TYPE).
Proof.
  unfold convert, known_type.
  unfold MICRO_CONF_BOOL, MICRO_CONF_CHAR, MICRO_CONF_STR, MICRO_CONF_INT,
    MICRO_CONF_DOUBLE, MICRO_CONF_FLOAT.
  repeat match goal with
         | |- context [type c =? ?t] => destruct (Z.eqb_spec (type c) t)
         end;
    repeat match goal with
           | |- context [bool_decide ?P] => destruct (bool_decide P)
           | |- context [Nat.eqb ?a ?b] => destruct (Nat.eqb a b)
           end;
    try done; try (intros [= <-]; auto 10; fail).
  - destruct v as [|x [|y v]]; try done; intros [= <-]; auto 10.
  - intros [= <-]. do 5 right. split; [lia|done].
Qed.

(** X7: The error of a line tells the type of the binding that the line
    selected: each conversion has its own code, a Str binding never fails,
    and a line fails with no code but these six.  The store is as it was. *)
Theorem error_kind conf line σ σ' err :
  while_body conf line σ = (Some err, σ') →
  σ' = σ ∧
  ∃ c, selected conf line = Some c ∧ type c ≠ MICRO_CONF_STR ∧
       ((type c = MICRO_CONF_BOOL ∧ err = MICRO_CONF_ERROR_INVALID_BOOL) ∨
        (type c = MICRO_CONF_CHAR ∧ err = MICRO_CONF_ERROR_INVALID_CHAR) ∨
        (type c = MICRO_CONF_INT ∧ err = MICRO_CONF_ERROR_INVALID_INT) ∨
        (type c = MICRO_CONF_DOUBLE ∧ err = MICRO_CONF_ERROR_INVALID_DOUBLE) ∨
        (type c = MICRO_CONF_FLOAT ∧ err = MICRO_CONF_ERROR_INVALID_FLOAT) ∨
        (¬ known_type (type c) ∧ err = MICRO_CONF_ERROR_UNKNOWN_TYPE)).
Proof.
  rewrite while_body_convert. destruct (selected conf line) as [c|]; [|done].
  destruct (convert c (value_string c line)) as [e|w] eqn:E; [|done].
  intros [= <- <-]. split; [done|]. exists c. split; [done|].
  pose proof (convert_error c _ _ E) as H. split; [|done].
  intros Hs. unfold known_type in H. rewrite Hs in H.
  unfold MICRO_CONF_BOOL, MICRO_CONF_CHAR, MICRO_CONF_STR, MICRO_CONF_INT,
    MICRO_CONF_DOUBLE, MICRO_CONF_FLOAT in H.
  destruct H as [[? _]|[[? _]|[[? _]|[[? _]|[[? _]|[? _]]]]]]; lia.
Qed.

Lemma error_kind_witness :
  ∃ c, selected ex_conf (ln "flag = maybe") = Some c ∧ type c = MICRO_CONF_BOOL.
Proof.
  destruct (error_kind ex_conf (ln "flag = maybe") ∅ ∅ MICRO_CONF_ERROR_INVALID_BOOL eq_refl)
    as (_ & c & Hc & _ & H).
  exists c. split; [done|].
  destruct H as [[? _]|[[_ H]|[[_ H]|[[_ H]|[[_ H]|[_ H]]]]]]; [done|discriminate H..].
Defined.

(** ** The call as a whole *)

Lemma first_error_range conf lines err :
  first_error conf lines = Some err → MICRO_CONF_ERROR_MAX < err < MICRO_CONF_OK.
Proof.
  induction lines as [|line lines IH]; simpl; [done|].
  destruct (line_error conf line) as [e|] eqn:E; [|done].
  intros [= <-]. unfold line_error in E.
  destruct (selected conf line) as [c|]; [|done].
  destruct (convert c (value_string c line)) as [e'|] eqn:Ec; [|done].
  injection E as <-. apply convert_error in Ec.
  destruct Ec as [[_ ->]|[[_ ->]|[[_ ->]|[[_ ->]|[[_ ->]|[_ ->]]]]]]; done.
Qed.

Lemma micro_conf_parse_writes fs conf pathname f σ :
  fs !! pathname = Some f →
  micro_conf_parse fs (Some conf) pathname σ
  = (match first_error conf (getlines (f_data f)) with
     | Some err => err
     | None => if negb (f_close f =? 0) then MICRO_CONF_ERROR_CLOSING_FILE
               else MICRO_CONF_OK
     end,
     apply_writes (writes conf (getlines (f_data f))) σ).
Proof.
  intros Hf. unfold micro_conf_parse. rewrite Hf, while_getline_writes.
  destruct (first_error conf (getlines (f_data f))); [done|].
  by destruct (negb (f_close f =? 0)).
Qed.

(** X8: The code that [micro_conf_parse] returns is [MICRO_CONF_OK] or one of
    the nine error codes above [_MICRO_CONF_ERROR_MAX].  It is
    [MICRO_CONF_OK] exactly when the table is not null, the file opens,
    no line of it has an error and the file closes. *)
Theorem result_code fs conf pathname σ :
  MICRO_CONF_ERROR_MAX < (micro_conf_parse fs conf pathname σ).1 ≤ MICRO_CONF_OK ∧
  ((micro_conf_parse fs conf pathname σ).1 = MICRO_CONF_OK ↔
   ∃ cs f, conf = Some cs ∧ fs !! pathname = Some f ∧
           Forall (λ l, line_error cs l = None) (getlines (f_data f)) ∧
           f_close f = 0).
Proof.
  destruct conf as [cs|]; [|split; [done|split; [done|by intros (? & ? & ? & _)]]].
  destruct (fs !! pathname) as [f|] eqn:Hf.
  - rewrite (micro_conf_parse_writes fs cs pathname f σ Hf). cbn [fst].
    destruct (first_error cs (getlines (f_data f))) as [e|] eqn:E.
    + pose proof (first_error_range _ _ _ E) as He. split; [lia|].
      split; [unfold MICRO_CONF_OK in *; lia|].
      intros (cs' & f' & [= <-] & [= <-] & Hl & _).
      apply first_error_None in Hl. congruence.
    + destruct (Z.eqb_spec (f_close f) 0) as [Hc|Hc]; simpl; (split; [done|]).
      * split; [|done]. intros _. exists cs, f. by rewrite <- first_error_None.
      * split; [done|]. by intros (cs' & f' & [= <-] & [= <-] & _ & ?).
  - unfold micro_conf_parse. rewrite Hf. split; [done|].
    split; [done|]. by intros (? & ? & _ & ? & _).
Qed.

(** X9: The code returned does not depend on what the destinations hold
    before the call. *)
Theorem code_independent_of_store fs conf pathname σ σ' :
  (micro_conf_parse fs conf pathname σ).1 = (micro_conf_parse fs conf pathname σ').1.
Proof.
  destruct conf as [cs|]; [|done]. destruct (fs !! pathname) as [f|] eqn:Hf.
  - by rewrite !(micro_conf_parse_writes fs cs pathname f) by done.
  - unfold micro_conf_parse. by rewrite Hf.
Qed.

Lemma apply_writes_cons k w ws σ :
  apply_writes ((k, w) :: ws) σ = apply_writes ws (<[k := w]> σ).
Proof. done. Qed.

Lemma apply_writes_notin ws σ l : l ∉ ws.*1 → apply_writes ws σ !! l = σ !! l.
Proof.
  revert σ. induction ws as [|[k w] ws IH]; intros σ Hl; [done|].
  rewrite fmap_cons in Hl. apply not_elem_of_cons in Hl as [Hk Hl].
  rewrite apply_writes_cons, IH by done. by apply lookup_insert_ne.
Qed.

Lemma apply_writes_in ws σ σ' l :
  l ∈ ws.*1 → apply_writes ws σ !! l = apply_writes ws σ' !! l.
Proof.
  revert σ σ'. induction ws as [|[k w] ws IH]; intros σ σ' Hl.
  - by apply elem_of_nil in Hl.
  - rewrite !apply_writes_cons. destruct (decide (l ∈ ws.*1)) as [Hin|Hnin].
    + by apply IH.
    + rewrite fmap_cons in Hl. apply elem_of_cons in Hl as [->|Hl]; [|done].
      rewrite !apply_writes_notin by done. simpl. by rewrite !lookup_insert_eq.
Qed.

Lemma apply_writes_idemp ws σ : apply_writes ws (apply_writes ws σ) = apply_writes ws σ.
Proof.
  apply map_eq. intros l. destruct (decide (l ∈ ws.*1)) as [Hin|Hnin].
  - by apply apply_writes_in.
  - by apply apply_writes_notin.
Qed.

(** X10: A second call on the result of a first one changes nothing: it
    returns the same code and leaves the same store. *)
Theorem parse_idempotent fs conf pathname σ :
  micro_conf_parse fs conf pathname (micro_conf_parse fs conf pathname σ).2
  = micro_conf_parse fs conf pathname σ.
Proof.
  destruct conf as [cs|]; [|done]. destruct (fs !! pathname) as [f|] eqn:Hf.
  - rewrite !(micro_conf_parse_writes fs cs pathname f) by done. cbn [snd].
    by rewrite apply_writes_idemp.
  - unfold micro_conf_parse. by rewrite Hf.
Qed.

(** X11: A file that does not close is reported with
    [MICRO_CONF_ERROR_CLOSING_FILE] after all its lines were read: the
    destinations hold what they hold when the same file closes and the
    call returns [MICRO_CONF_OK]. *)
Theorem close_failure_after_writes fs conf pathname f σ :
  fs !! pathname = Some f →
  Forall (λ l, line_error conf l = None) (getlines (f_data f)) →
  f_close f ≠ 0 →
  micro_conf_parse fs (Some conf) pathname σ
  = (MICRO_CONF_ERROR_CLOSING_FILE,
     (micro_conf_parse (<[pathname := mkFile (f_data f) 0]> fs) (Some conf) pathname σ).2) ∧
  (micro_conf_parse (<[pathname := mkFile (f_data f) 0]> fs) (Some conf) pathname σ).1
  = MICRO_CONF_OK.
Proof.
  intros Hf Hl Hc. apply first_error_None in Hl.
  rewrite (micro_conf_parse_writes fs conf pathname f σ Hf), Hl.
  rewrite (micro_conf_parse_writes _ conf pathname (mkFile (f_data f) 0) σ)
    by apply lookup_insert_eq.
  simpl. rewrite Hl. by destruct (Z.eqb_spec (f_close f) 0).
Qed.

Lemma close_failure_after_writes_witness :
  micro_conf_parse {[ "micro.conf"%string := mkFile (ln "a = 69" ++ ln "b = x") (-1) ]}
    (Some ex_conf) "micro.conf" ∅
  = (MICRO_CONF_ERROR_CLOSING_FILE,
     (micro_conf_parse
        (<["micro.conf"%string := mkFile (ln "a = 69" ++ ln "b = x") 0]>
           {[ "micro.conf"%string := mkFile (ln "a = 69" ++ ln "b = x") (-1) ]})
        (Some ex_conf) "micro.conf" ∅).2).
Proof.
  apply (close_failure_after_writes _ ex_conf "micro.conf"
           (mkFile (ln "a = 69" ++ ln "b = x") (-1)) ∅).
  - reflexivity.
  - repeat constructor.
  - discriminate.
Defined.

Lemma writes_values conf lines : (writes conf lines).*1 ⊆ value <$> conf.
Proof.
  induction lines as [|line lines IH]; simpl; [apply list_subseteq_nil|].
  destruct (selected conf line) as [c|] eqn:Hc; [|done].
  destruct (convert c (value_string c line)); [apply list_subseteq_nil|].
  intros l Hl. simpl in Hl. apply elem_of_cons in Hl as [->|Hl]; [|by apply IH].
  apply list_elem_of_fmap_2. by apply selected_elem in Hc.
Qed.

(** X12: The call writes to destinations of the table only: any other address
    holds after the call what it held before, whatever the call returns. *)
Theorem only_destinations_written fs conf pathname σ l :
  (∀ cs, conf = Some cs → l ∉ value <$> cs) →
  (micro_conf_parse fs conf pathname σ).2 !! l = σ !! l.
Proof.
  intros Hl. destruct conf as [cs|]; [|done].
  destruct (fs !! pathname) as [f|] eqn:Hf.
  - rewrite (micro_conf_parse_writes fs cs pathname f σ Hf). cbn [snd].
    apply apply_writes_notin. intros Hin. apply (Hl cs eq_refl).
    by apply (writes_values cs (getlines (f_data f))).
  - unfold micro_conf_parse. by rewrite Hf.
Qed.

Lemma only_destinations_written_witness :
  (micro_conf_parse (one_file "micro.conf" (ln "a = 69" ++ ln "b = x"))
     (Some ex_conf) "micro.conf" {[ 40 := VInt 7 ]}).2 !! 40
  = ({[ 40 := VInt 7 ]} : store) !! 40.
Proof.
  apply (only_destinations_written _ (Some ex_conf) "micro.conf" {[ 40 := VInt 7 ]} 40).
  intros cs [= <-]. vm_compute. intros H.
  repeat (apply elem_of_cons in H as [H|H]; [discriminate H|]).
  by apply elem_of_nil in H.
Defined.



Lemma while_body_well_typed conf line σ :
  consistent conf → well_typed conf σ → well_typed conf (while_body conf line σ).2.
Proof.
  intros Hcons Hwt. rewrite while_body_convert.
  destruct (selected conf line) as [c|] eqn:Hc; [|done].
  destruct (convert c (value_string c line)) as [e|w] eqn:E; [done|].
  simpl. intros c' w' Hc' Hw'.
  destruct (decide (value c = value c')) as [Hv|Hv].
  - rewrite Hv, lookup_insert_eq in Hw'. injection Hw' as <-.
    rewrite (convert_type _ _ _ E). apply Hcons; eauto using selected_elem.
  - rewrite lookup_insert_ne in Hw' by done. by apply Hwt.
Qed.

(** X14: Destinations keep their types: when bindings that share a
    destination declare the same type and every destination holds a value
    of its declared type before the call, so it does after the call. *)
Theorem parse_well_typed fs conf pathname σ :
  consistent conf → well_typed conf σ →
  well_typed conf (micro_conf_parse fs (Some conf) pathname σ).2.
Proof.
  intros Hcons Hwt. destruct (fs !! pathname) as [f|] eqn:Hf.
  - rewrite (micro_conf_parse_store fs conf pathname f) by done.
    generalize (getlines (f_data f)). intros lines. revert σ Hwt.
    induction lines as [|line lines IH]; intros σ Hwt; simpl; [done|].
    pose proof (while_body_well_typed conf line σ Hcons Hwt) as Hb.
    destruct (while_body conf line σ) as [[e|] σ']; [done|]. by apply IH.
  - unfold micro_conf_parse. by rewrite Hf.
Qed.

(** ** Tables: shadowed bindings, tables without shadowing *)

Lemma select_Some_matches conf t c :
  c ∈ conf → key c `prefix_of` t → ∃ c', select conf t = Some c'.
Proof.
  intros Hc Hk. destruct (select conf t) as [c'|] eqn:E; [by exists c'|].
  exfalso. by apply (proj1 (select_none conf t) E c).
Qed.

(** The [for] loop does not reach a binding that stands behind a binding
    whose key is a prefix of its key. *)
Lemma for_conf_shadowed pre c1 mid c2 post line read space trimmed σ :
  key c1 `prefix_of` key c2 →
  for_conf (pre ++ c1 :: mid ++ c2 :: post) line read space trimmed σ
  = for_conf (pre ++ c1 :: mid ++ post) line read space trimmed σ.
Proof.
  intros Hk. induction pre as [|x pre IH]; cbn [app for_conf].
  - destruct (strncmp trimmed (name c1) (strlen (name c1)) =? 0) eqn:E1; [done|].
    cbn [negb]. induction mid as [|y mid IH]; cbn [app for_conf].
    + assert ((strncmp trimmed (name c2) (strlen (name c2)) =? 0) = false) as ->; [|done].
      rewrite strncmp_eqb in E1 |- *. apply bool_decide_eq_false.
      apply bool_decide_eq_false in E1. intros H2. apply E1. by etrans.
    + by destruct (negb (strncmp trimmed (name y) (strlen (name y)) =? 0)).
  - by destruct (negb (strncmp trimmed (name x) (strlen (name x)) =? 0)).
Qed.

Lemma while_getline_ext conf conf' lines σ :
  (∀ line σ', while_body conf line σ' = while_body conf' line σ') →
  while_getline conf lines σ = while_getline conf' lines σ.
Proof.
  intros H. revert σ. induction lines as [|line lines IH]; intros σ; [done|].
  cbn [while_getline]. rewrite H.
  destruct (while_body conf' line σ) as [[e|] σ']; [done|apply IH].
Qed.

Lemma micro_conf_parse_other fs conf pathname σ l :
  l ∉ value <$> conf →
  (micro_conf_parse fs (Some conf) pathname σ).2 !! l = σ !! l.
Proof.
  intros Hl. destruct (fs !! pathname) as [f|] eqn:Hf.
  - rewrite (micro_conf_parse_writes fs conf pathname f σ Hf). cbn [snd].
    apply apply_writes_notin. intros Hin. apply Hl.
    by apply (writes_values conf (getlines (f_data f))).
  - unfold micro_conf_parse. by rewrite Hf.
Qed.

(** X15: A binding is never selected when a binding before it in the table
    has a key that is a prefix of its key: every line and every file does
    with the table what it does with the table without that binding, and
    the destination of the binding, when no other binding has it, holds
    after the call what it held before. *)
Theorem shadowed_binding_never_selected pre c1 mid c2 post :
  key c1 `prefix_of` key c2 →
  (∀ line σ,
     while_body (pre ++ c1 :: mid ++ c2 :: post) line σ
     = while_body (pre ++ c1 :: mid ++ post) line σ) ∧
  (∀ fs pathname σ,
     micro_conf_parse fs (Some (pre ++ c1 :: mid ++ c2 :: post)) pathname σ
     = micro_conf_parse fs (Some (pre ++ c1 :: mid ++ post)) pathname σ) ∧
  (value c2 ∉ value <$> (pre ++ c1 :: mid ++ post) →
   ∀ fs pathname σ,
     (micro_conf_parse fs (Some (pre ++ c1 :: mid ++ c2 :: post)) pathname σ).2
       !! value c2
     = σ !! value c2).
Proof.
  intros Hk.
  assert (∀ line σ,
            while_body (pre ++ c1 :: mid ++ c2 :: post) line σ
            = while_body (pre ++ c1 :: mid ++ post) line σ) as Hbody.
  { intros line σ. unfold while_body.
    destruct (Ascii.eqb _ NUL || Ascii.eqb _ LF); [done|].
    by apply for_conf_shadowed. }
  assert (∀ fs pathname σ,
            micro_conf_parse fs (Some (pre ++ c1 :: mid ++ c2 :: post)) pathname σ
            = micro_conf_parse fs (Some (pre ++ c1 :: mid ++ post)) pathname σ) as Hparse.
  { intros fs pathname σ. unfold micro_conf_parse.
    destruct (fs !! pathname) as [f|]; [|done].
    by rewrite (while_getline_ext _ (pre ++ c1 :: mid ++ post)). }
  split; [done|]. split; [done|].
  intros Hv fs pathname σ. rewrite Hparse. by apply micro_conf_parse_other.
Qed.

Lemma shadowed_binding_never_selected_witness :
  while_body [mkMicroConf MICRO_CONF_STR 1 (str "a"); mkMicroConf MICRO_CONF_INT 2 (str "ab")]
    (ln "ab = 5") {[ 2 := VInt 7 ]}
  = (None, <[1 := VStr (str "b = 5")]> {[ 2 := VInt 7 ]}) ∧
  (micro_conf_parse (one_file "micro.conf" (ln "ab = 5" ++ ln "a = x"))
     (Some [mkMicroConf MICRO_CONF_STR 1 (str "a"); mkMicroConf MICRO_CONF_INT 2 (str "ab")])
     "micro.conf" {[ 2 := VInt 7 ]}).2 !! 2
  = Some (VInt 7).
Proof.
  destruct (shadowed_binding_never_selected [] (mkMicroConf MICRO_CONF_STR 1 (str "a")) []
              (mkMicroConf MICRO_CONF_INT 2 (str "ab")) [])
    as (H1 & _ & H3); [by exists (str "b")|].
  split.
  - rewrite (H1 (ln "ab = 5") {[ 2 := VInt 7 ]}). reflexivity.
  - rewrite H3; [reflexivity|].
    cbn. intros H. apply list_elem_of_singleton in H. discriminate H.
Defined.

Lemma prefix_free_elem conf c c' :
  prefix_free conf → c ∈ conf → c' ∈ conf → key c `prefix_of` key c' → c = c'.
Proof.
  intros Hpf Hc Hc'. unfold prefix_free in Hpf.
  rewrite Forall_forall in Hpf. specialize (Hpf c Hc).
  rewrite Forall_forall in Hpf. by apply Hpf.
Qed.

Lemma select_prefix_free conf t c :
  prefix_free conf → c ∈ conf → key c `prefix_of` t → select conf t = Some c.
Proof.
  intros Hpf Hc Hk. destruct (select_Some_matches conf t c Hc Hk) as [c' Hs].
  rewrite Hs. f_equal. apply select_elem in Hs as [Hc' Hk'].
  destruct (prefix_weak_total _ _ _ Hk Hk') as [H|H].
  - symmetry. by apply (prefix_free_elem conf).
  - by apply (prefix_free_elem conf).
Qed.

Lemma prefix_free_perm conf conf' : conf ≡ₚ conf' → prefix_free conf → prefix_free conf'.
Proof.
  intros Hp Hpf. unfold prefix_free in *. rewrite <- Hp.
  eapply Forall_impl; [exact Hpf|]. intros c Hc. by rewrite <- Hp.
Qed.

(** X16: In a table where no key is a prefix of another, a candidate that
    starts with a key selects the binding of that key, and the order of
    the bindings is of no account: a line does the same under every
    permutation of the table.  The table of example.c is such a table. *)
Theorem prefix_free_table conf conf' line σ :
  prefix_free conf → conf ≡ₚ conf' →
  (∀ c, c ∈ conf → trimmed_text line ≠ [] → key c `prefix_of` trimmed_text line →
        selected conf line = Some c) ∧
  while_body conf' line σ = while_body conf line σ ∧
  prefix_free config.
Proof.
  intros Hpf Hp.
  assert (∀ cs, prefix_free cs → ∀ c, c ∈ cs → trimmed_text line ≠ [] →
                key c `prefix_of` trimmed_text line → selected cs line = Some c) as Hsel.
  { intros cs Hcs c Hc Hne Hk. rewrite selected_select by done.
    by apply select_prefix_free. }
  split; [by apply Hsel|]. split.
  - rewrite !while_body_text.
    assert (selected conf' line = selected conf line) as ->; [|done].
    destruct (selected conf line) as [c|] eqn:E.
    + apply selected_Some in E as [Hne [Hc Hk]%select_elem].
      apply Hsel; [by apply (prefix_free_perm conf)|by rewrite <- Hp|done..].
    + unfold selected in *. destruct (trimmed_text line) as [|x t]; [done|].
      apply select_none. intros c Hc. rewrite <- Hp in Hc.
      by apply (proj1 (select_none conf (x :: t)) E).
  - apply (bool_decide_unpack _). vm_compute. exact I.
Qed.

Lemma prefix_free_table_witness :
  while_body (reverse config) (ln "vec.y = 200") ∅ = while_body config (ln "vec.y = 200") ∅.
Proof.
  apply prefix_free_table.
  - apply (bool_decide_unpack _). vm_compute. exact I.
  - symmetry. apply reverse_Permutation.
Defined.

(** ** Files: one after the other, with and without a last newline *)

Lemma getlines_nonempty s : s ≠ [] → getlines s ≠ [].
Proof.
  destruct s as [|c s]; [done|]. intros _. simpl.
  destruct (Ascii.eqb c LF); [done|]. by destruct (getlines s).
Qed.

Lemma getlines_app_lf a b :
  getlines ((a ++ [LF]) ++ b) = getlines (a ++ [LF]) ++ getlines b.
Proof.
  induction a as [|c a IH]; simpl; [done|].
  destruct (Ascii.eqb c LF); [by rewrite IH|]. rewrite IH.
  destruct (getlines (a ++ [LF])) as [|l ls] eqn:E; [|done].
  exfalso. by apply (getlines_nonempty (a ++ [LF])); [destruct a|].
Qed.

(** X17: A file that consists of one file after another, the first one empty
    or ending in a newline: when the first one parses without error, the
    call on the whole does what the call on the second does after the
    call on the first; when a line of the first has an error, the call on
    the whole ends as the call on the first. *)
Theorem parse_concatenation fs conf p1 p2 p f1 f2 f σ :
  fs !! p1 = Some f1 → fs !! p2 = Some f2 → fs !! p = Some f →
  f_data f = f_data f1 ++ f_data f2 →
  (f_data f1 = [] ∨ ∃ a, f_data f1 = a ++ [LF]) →
  f_close f = f_close f2 →
  ((micro_conf_parse fs (Some conf) p1 σ).1 = MICRO_CONF_OK →
   micro_conf_parse fs (Some conf) p σ
   = micro_conf_parse fs (Some conf) p2 (micro_conf_parse fs (Some conf) p1 σ).2) ∧
  ((micro_conf_parse fs (Some conf) p1 σ).1 ≠ MICRO_CONF_OK →
   (micro_conf_parse fs (Some conf) p1 σ).1 ≠ MICRO_CONF_ERROR_CLOSING_FILE →
   micro_conf_parse fs (Some conf) p σ = micro_conf_parse fs (Some conf) p1 σ).
Proof.
  intros H1 H2 H Hd Hlf Hcl.
  assert (getlines (f_data f) = getlines (f_data f1) ++ getlines (f_data f2)) as Hl.
  { rewrite Hd. destruct Hlf as [->|[a ->]]; [done|apply getlines_app_lf]. }
  unfold micro_conf_parse. rewrite H1, H2, H, Hl, Hcl, while_getline_app.
  destruct (while_getline conf (getlines (f_data f1)) σ) as [[e|] σ1] eqn:E; cbn [fst snd].
  - split; [|done]. intros ->.
    pose proof (while_getline_writes conf (getlines (f_data f1)) σ) as Hw.
    rewrite E in Hw. injection Hw as Hw _. symmetry in Hw.
    apply first_error_range in Hw. unfold MICRO_CONF_OK in Hw. lia.
  - destruct (Z.eqb_spec (f_close f1) 0) as [Hc|Hc]; simpl; split; done.
Qed.

Lemma parse_concatenation_witness :
  micro_conf_parse
    (<["all"%string := mkFile (ln "a = 1" ++ ln "b = x" ++ ln "a = 2") 0]>
       (<["user"%string := mkFile (ln "a = 2") 0]>
          (one_file "defaults" (ln "a = 1" ++ ln "b = x"))))
    (Some ex_conf) "all" ∅
  = (MICRO_CONF_OK, <[1 := VInt 2]> (<[2 := VStr (str "x")]> (<[1 := VInt 1]> ∅))).
Proof.
  destruct (parse_concatenation
              (<["all"%string := mkFile (ln "a = 1" ++ ln "b = x" ++ ln "a = 2") 0]>
                 (<["user"%string := mkFile (ln "a = 2") 0]>
                    (one_file "defaults" (ln "a = 1" ++ ln "b = x"))))
              ex_conf "defaults" "user" "all"
              (mkFile (ln "a = 1" ++ ln "b = x") 0) (mkFile (ln "a = 2") 0)
              (mkFile (ln "a = 1" ++ ln "b = x" ++ ln "a = 2") 0) ∅) as [H _].
  - reflexivity.
  - reflexivity.
  - reflexivity.
  - reflexivity.
  - right. by exists (ln "a = 1" ++ str "b = x").
  - reflexivity.
  - rewrite H by reflexivity. vm_compute. reflexivity.
Defined.

Lemma trim_left_nil_blank s : trim_left s = [] → blank s.
Proof.
  unfold trim_left. intros H. apply span_full.
  pose proof (span_le is_sep s). apply (f_equal length) in H.
  rewrite length_drop in H. simpl in H. lia.
Qed.

Lemma trim_left_snoc_lf s :
  trim_left (s ++ [LF])
  = match trim_left s with [] => [] | t => t ++ [LF] end.
Proof.
  destruct (trim_left s) as [|x t] eqn:E.
  - apply trim_left_blank. apply Forall_app. split; [by apply trim_left_nil_blank|].
    by repeat constructor.
  - unfold trim_left in *. rewrite span_app.
    destruct (Nat.eqb_spec (span is_sep s) (length s)) as [Hs|Hs].
    + rewrite Hs, drop_all in E. done.
    + pose proof (span_le is_sep s). rewrite drop_app_le by lia. by rewrite E.
Qed.

Lemma value_text_snoc_lf r : value_text (r ++ [LF]) = value_text r.
Proof.
  unfold value_text. rewrite trim_left_snoc_lf.
  destruct (trim_left r) as [|x t] eqn:E; [done|].
  simpl deref. destruct (is_assign x).
  - simpl drop. rewrite !drop_0, trim_left_snoc_lf.
    destruct (trim_left t) as [|y t'] eqn:E'; [done|]. by apply rstrip_snoc_end.
  - rewrite trim_left_snoc_lf.
    destruct (trim_left (x :: t)) as [|y t'] eqn:E'; [done|]. by apply rstrip_snoc_end.
Qed.

Lemma prefix_snoc_inv (k t : list ascii) x :
  x ∉ k → k `prefix_of` t ++ [x] → k `prefix_of` t.
Proof.
  intros Hx [r Hr]. destruct r as [|y r _] using rev_ind.
  - exfalso. apply Hx. rewrite app_nil_r in Hr. rewrite <- Hr.
    apply elem_of_app. right. by left.
  - rewrite app_assoc in Hr. apply app_inj_tail in Hr as [-> _]. by exists r.
Qed.

Lemma select_snoc_lf conf t :
  (∀ c, c ∈ conf → LF ∉ key c) → select conf (t ++ [LF]) = select conf t.
Proof.
  intros Hk. unfold select. induction conf as [|c conf IH]; simpl; [done|].
  assert (key_matches (t ++ [LF]) c = key_matches t c) as ->.
  { unfold key_matches. apply bool_decide_ext. split.
    - apply prefix_snoc_inv, Hk. by left.
    - apply prefix_app_r. }
  rewrite IH; [done|]. intros c' Hc'. apply Hk. by right.
Qed.

(** A line does the same with and without the newline at its end, as long
    as no key of the table has a newline in it. *)
Lemma while_body_snoc_lf conf line σ :
  (∀ c, c ∈ conf → LF ∉ key c) →
  while_body conf (line ++ [LF]) σ = while_body conf line σ.
Proof.
  intros Hk. rewrite !while_body_text. unfold selected, value_string, trimmed_text.
  rewrite !text_of_span, span_app.
  destruct (Nat.eqb_spec (span plain_char line) (length line)) as [Hs|Hs].
  - change (span plain_char [LF]) with 1%nat.
    replace (length line + 1)%nat with (length (line ++ [LF]))
      by (rewrite length_app; simpl; lia).
    rewrite Hs, !firstn_all, trim_left_snoc_lf.
    destruct (trim_left line) as [|x t] eqn:E; [done|].
    change ((x :: t) ++ [LF]) with (x :: (t ++ [LF])). cbv beta iota.
    rewrite !app_comm_cons, select_snoc_lf by done.
    destruct (select conf (x :: t)) as [c|] eqn:Hc; [|done].
    apply select_elem in Hc as [_ Hp]. apply prefix_length in Hp.
    rewrite drop_app_le by done. by rewrite value_text_snoc_lf.
  - pose proof (span_le plain_char line). by rewrite take_app_le by lia.
Qed.

Lemma getlines_snoc_lf s :
  (s = [] ∨ last s = Some LF) ∧ getlines (s ++ [LF]) = getlines s ++ [[LF]] ∨
  ∃ init l, getlines s = init ++ [l] ∧ getlines (s ++ [LF]) = init ++ [l ++ [LF]].
Proof.
  induction s as [|c s IH]; [left; by split; [left|]|].
  simpl. destruct IH as [[Hs IH]|(init & l & Hl & IH)].
  - destruct Hs as [->|Hs].
    + simpl. destruct (Ascii.eqb_spec c LF) as [->|Hc].
      * left. split; [by right|done].
      * right. by exists [], [c].
    + left. rewrite IH. destruct s as [|y s]; [done|]. split; [by right|].
      destruct (Ascii.eqb c LF); [done|].
      pose proof (getlines_nonempty (y :: s)) as Hne.
      destruct (getlines (y :: s)) as [|l ls]; [by exfalso; apply Hne|done].
  - right. rewrite IH, Hl. destruct (Ascii.eqb c LF).
    + by exists ([c] :: init), l.
    + destruct init as [|i init]; simpl.
      * by exists [], (c :: l).
      * by exists ((c :: i) :: init), l.
Qed.

Lemma while_getline_single conf line σ :
  while_getline conf [line] σ = while_body conf line σ.
Proof. simpl. by destruct (while_body conf line σ) as [[e|] σ']. Qed.

(** X18: A newline added at the end of a file changes nothing, as long as no
    key of the table has a newline in it: the last line does not need
    one, and one more is an empty line. *)
Theorem final_newline_optional fs conf p p' f f' σ :
  (∀ c, c ∈ conf → LF ∉ key c) →
  fs !! p = Some f → fs !! p' = Some f' →
  f_data f' = f_data f ++ [LF] →
  f_close f' = f_close f →
  micro_conf_parse fs (Some conf) p' σ = micro_conf_parse fs (Some conf) p σ.
Proof.
  intros Hk Hf Hf' Hd Hcl. unfold micro_conf_parse. rewrite Hf, Hf', Hd, Hcl.
  assert (while_getline conf (getlines (f_data f ++ [LF])) σ
          = while_getline conf (getlines (f_data f)) σ) as ->; [|done].
  destruct (getlines_snoc_lf (f_data f)) as [[_ ->]|(init & l & -> & ->)];
    rewrite !while_getline_app.
  - destruct (while_getline conf (getlines (f_data f)) σ) as [[e|] σ1]; [done|].
    by rewrite while_getline_single, while_body_no_candidate.
  - destruct (while_getline conf init σ) as [[e|] σ1]; [done|].
    by rewrite !while_getline_single, while_body_snoc_lf.
Qed.

Lemma final_newline_optional_witness :
  micro_conf_parse
    (<["with"%string := mkFile (ln "b = x" ++ str "a = 69" ++ [LF]) 0]>
       (one_file "without" (ln "b = x" ++ str "a = 69")))
    (Some ex_conf) "with" ∅
  = micro_conf_parse
      (<["with"%string := mkFile (ln "b = x" ++ str "a = 69" ++ [LF]) 0]>
         (one_file "without" (ln "b = x" ++ str "a = 69")))
      (Some ex_conf) "without" ∅.
Proof.
  apply (final_newline_optional _ ex_conf "without" "with"
           (mkFile (ln "b = x" ++ str "a = 69") 0)
           (mkFile (ln "b = x" ++ str "a = 69" ++ [LF]) 0)).
  - intros c Hc. apply list_elem_of_In in Hc. simpl in Hc.
    repeat (destruct Hc as [<-|Hc];
            [apply (bool_decide_unpack _); vm_compute; exact I|]).
    destruct Hc.
  - reflexivity.
  - reflexivity.
  - reflexivity.
  - reflexivity.
Defined.

(** ** Carriage returns, long keys, large numbers *)

Lemma last_neq_snoc (v s : list ascii) x :
  last s ≠ Some x → v ++ [x] ≠ s.
Proof. intros Hs Hv. apply Hs. by rewrite <- Hv, last_snoc. Qed.

(** X19: A line that ends in a carriage return and a newline keeps the
    carriage return in its value string: an Int and a Bool binding refuse
    the line, a Char binding refuses it unless the value is empty, and a
    Str binding receives the carriage return. *)
Theorem carriage_return_kept conf σ c w0 w1 a w2 v :
  blank w0 → blank w1 → is_assign a = true → blank w2 →
  Forall (λ x, plain_char x = true) v → is_sep (deref v) = false →
  selected conf (w0 ++ key c ++ w1 ++ a :: w2 ++ v ++ [CR; LF]) = Some c →
  value_string c (w0 ++ key c ++ w1 ++ a :: w2 ++ v ++ [CR; LF]) = v ++ [CR] ∧
  (type c = MICRO_CONF_INT →
   aborts_with conf (w0 ++ key c ++ w1 ++ a :: w2 ++ v ++ [CR; LF]) σ
     MICRO_CONF_ERROR_INVALID_INT) ∧
  (type c = MICRO_CONF_BOOL →
   aborts_with conf (w0 ++ key c ++ w1 ++ a :: w2 ++ v ++ [CR; LF]) σ
     MICRO_CONF_ERROR_INVALID_BOOL) ∧
  (type c = MICRO_CONF_CHAR → v ≠ [] →
   aborts_with conf (w0 ++ key c ++ w1 ++ a :: w2 ++ v ++ [CR; LF]) σ
     MICRO_CONF_ERROR_INVALID_CHAR) ∧
  (type c = MICRO_CONF_STR →
   while_body conf (w0 ++ key c ++ w1 ++ a :: w2 ++ v ++ [CR; LF]) σ
   = (None, <[value c := VStr (v ++ [CR])]> σ)).
Proof.
  intros H0 H1 Ha H2 Hp Hd Hc.
  set (line := w0 ++ key c ++ w1 ++ a :: w2 ++ v ++ [CR; LF]) in *.
  assert (value_string c line = v ++ [CR]) as Hv.
  { unfold line. change [CR; LF] with ([CR] ++ [LF]). rewrite (app_assoc v).
    apply value_string_sep; eauto using selected_key_not_sep, selected_key_plain.
    - split; [|split].
      + apply Forall_app. split; [done|by repeat constructor].
      + by destruct v.
      + by apply rstrip_snoc_keep.
    - by repeat constructor. }
  pose proof (while_body_selected_convert conf line σ c Hc) as Hw.
  rewrite Hv in Hw. unfold convert in Hw.
  split; [done|]. split; [|split; [|split]]; intros Ht; rewrite Ht in Hw; simpl in Hw.
  - apply aborts_with_intro. rewrite Hw.
    destruct (Nat.eqb_spec (strtol_of (v ++ [CR])).2 (length (v ++ [CR]))) as [E|_];
      [|done].
    by apply strtol_of_last in E.
  - apply aborts_with_intro. rewrite Hw, !bool_decide_false; [done|..];
      intros [E|E]; by apply last_neq_snoc in E.
  - intros Hne. apply aborts_with_intro. rewrite Hw.
    destruct v as [|x [|y v]]; done.
  - done.
Qed.

Lemma carriage_return_kept_witness :
  aborts_with ex_conf (str "a = 69" ++ [CR; LF]) ∅ MICRO_CONF_ERROR_INVALID_INT.
Proof.
  apply (carriage_return_kept ex_conf ∅ (mkMicroConf MICRO_CONF_INT 1 (str "a"))
           [] [SPACE] "="%char [SPACE] (str "69")).
  - constructor.
  - by repeat constructor.
  - reflexivity.
  - by repeat constructor.
  - by repeat constructor.
  - reflexivity.
  - reflexivity.
  - reflexivity.
Defined.

Lemma rstrip_cons_keep x s : is_end x = false → ∃ r, rstrip (x :: s) = x :: r.
Proof.
  intros Hx. simpl. destruct (rstrip s) as [|y r]; [|by eexists].
  rewrite Hx. by eexists.
Qed.

(** X20: A candidate that goes on after the key of an Int binding with a byte
    that is neither a separator, [=] or [:], a digit or a sign, such as
    the line "xyz = 1" for the key "x", is not skipped as an unknown key:
    the binding is selected and the call ends with
    [MICRO_CONF_ERROR_INVALID_INT]. *)
Theorem longer_key_aborts conf line σ c x rest :
  selected conf line = Some c →
  type c = MICRO_CONF_INT →
  trimmed_text line = key c ++ x :: rest →
  isspace x = false → is_assign x = false → isdigit x = false →
  x ≠ "+"%char → x ≠ "-"%char →
  aborts_with conf line σ MICRO_CONF_ERROR_INVALID_INT.
Proof.
  intros Hc Ht Htext Hsp Has Hdg Hplus Hminus. apply aborts_with_intro.
  rewrite (while_body_selected_convert conf line σ c Hc). unfold convert.
  rewrite Ht. simpl.
  assert (is_sep x = false) as Hsep.
  { unfold isspace in Hsp. unfold is_sep.
    repeat (apply orb_false_iff in Hsp as [Hsp ?]).
    by repeat (apply orb_false_iff; split). }
  assert (∃ r, value_string c line = x :: r) as [r Hv].
  { unfold value_string, value_text. rewrite Htext, drop_app_length.
    rewrite (trim_left_fixed (x :: rest)) by done. simpl deref. rewrite Has.
    rewrite trim_left_fixed by done. apply rstrip_cons_keep.
    destruct (is_end x) eqn:E; [|done]. apply is_end_is_sep in E. congruence. }
  rewrite Hv. unfold strtol_of. simpl span. rewrite Hsp. rewrite drop_0.
  simpl scan_sign.
  destruct (Ascii.eqb_spec x "-") as [|_]; [done|].
  destruct (Ascii.eqb_spec x "+") as [|_]; [done|].
  rewrite drop_0. simpl span. rewrite Hdg. done.
Qed.

Lemma longer_key_aborts_witness :
  aborts_with [mkMicroConf MICRO_CONF_INT 1 (str "x")] (ln "xyz = 1") ∅
    MICRO_CONF_ERROR_INVALID_INT.
Proof.
  apply (longer_key_aborts _ _ _ (mkMicroConf MICRO_CONF_INT 1 (str "x"))
           "y"%char (ln "z = 1")); [reflexivity..| |]; by intros [=].
Defined.

Lemma digit_val_range c : isdigit c = true → 0 ≤ digit_val c ≤ 9.
Proof.
  intros Hc. unfold digit_val. rewrite Hc. unfold isdigit in Hc.
  apply andb_true_iff in Hc as [H1 H2]. apply Z.leb_le in H1, H2.
  change (uchar "0") with 48 in *. change (uchar "9") with 57 in *. lia.
Qed.

Lemma digits_val_nonneg ds : Forall (λ c, isdigit c = true) ds → 0 ≤ digits_val 10 ds.
Proof.
  intros H. unfold digits_val.
  assert (∀ acc, 0 ≤ acc → 0 ≤ fold_left (λ acc c, 10 * acc + digit_val c) ds acc) as Hacc;
    [|by apply Hacc].
  induction H as [|c ds Hc _ IH]; intros acc Hacc; simpl; [done|].
  apply IH. pose proof (digit_val_range c Hc). lia.
Qed.

Lemma int_of_long_small v : INT_MIN ≤ v ≤ INT_MAX → int_of_long v = v.
Proof.
  unfold INT_MIN, INT_MAX, int_of_long. intros H.
  rewrite Z.mod_small by lia. lia.
Qed.

Lemma int_of_long_range v : INT_MIN ≤ int_of_long v ≤ INT_MAX.
Proof.
  unfold INT_MIN, INT_MAX, int_of_long.
  pose proof (Z.mod_pos_bound (v + 2 ^ 31) (2 ^ 32)). lia.
Qed.

(** X21: Int: a number of decimal digits that fits an [int] is written as it
    is, also after a minus sign; a larger one is no error: the
    destination receives another number, and -1 for every number from
    [LONG_MAX] on. *)
Theorem int_range conf line σ c ds :
  selected conf line = Some c →
  type c = MICRO_CONF_INT →
  ds ≠ [] → Forall (λ x, isdigit x = true) ds →
  (value_string c line = ds →
   (digits_val 10 ds ≤ INT_MAX →
    while_body conf line σ = (None, <[value c := VInt (digits_val 10 ds)]> σ)) ∧
   (INT_MAX < digits_val 10 ds →
    ∃ r, while_body conf line σ = (None, <[value c := VInt r]> σ) ∧
         r ≠ digits_val 10 ds ∧ INT_MIN ≤ r ≤ INT_MAX) ∧
   (LONG_MAX ≤ digits_val 10 ds →
    while_body conf line σ = (None, <[value c := VInt (-1)]> σ))) ∧
  (value_string c line = "-"%char :: ds →
   digits_val 10 ds ≤ - INT_MIN →
   while_body conf line σ = (None, <[value c := VInt (- digits_val 10 ds)]> σ)).
Proof.
  intros Hc Ht Hne Hds. pose proof (digits_val_nonneg ds Hds) as Hpos.
  pose proof (while_body_selected_convert conf line σ c Hc) as Hw.
  unfold convert in Hw. rewrite Ht in Hw. simpl in Hw. split.
  - intros Hv. rewrite Hv, strtol_of_digits in Hw by done. cbn [fst snd] in Hw.
    rewrite Nat.eqb_refl in Hw. rewrite Hw. unfold clamp_long.
    split; [|split].
    + intros Hle. unfold INT_MAX, LONG_MIN, LONG_MAX in *.
      destruct (Z.ltb_spec (digits_val 10 ds) (- 2 ^ 63)); [lia|].
      destruct (Z.ltb_spec (2 ^ 63 - 1) (digits_val 10 ds)); [lia|].
      rewrite int_of_long_small; [done|unfold INT_MIN, INT_MAX; lia].
    + intros Hgt. eexists. split; [done|].
      split; [|apply int_of_long_range].
      match goal with |- int_of_long ?v ≠ _ => pose proof (int_of_long_range v) end. lia.
    + intros Hge. unfold LONG_MIN, LONG_MAX in *.
      destruct (Z.ltb_spec (digits_val 10 ds) (- 2 ^ 63)); [lia|].
      destruct (Z.ltb_spec (2 ^ 63 - 1) (digits_val 10 ds)); [done|].
      by replace (digits_val 10 ds) with (2 ^ 63 - 1) by lia.
  - intros Hv Hle. rewrite Hv, strtol_of_minus in Hw by done. cbn [fst snd length] in Hw.
    rewrite Nat.eqb_refl in Hw. rewrite Hw. unfold clamp_long.
    unfold INT_MIN, LONG_MIN, LONG_MAX in *.
    destruct (Z.ltb_spec (- digits_val 10 ds) (- 2 ^ 63)); [lia|].
    destruct (Z.ltb_spec (2 ^ 63 - 1) (- digits_val 10 ds)); [lia|].
    rewrite int_of_long_small; [done|unfold INT_MIN, INT_MAX; lia].
Qed.

Lemma int_range_witness :
  while_body ex_conf (ln "a = 2147483647") ∅ = (None, <[1 := VInt 2147483647]> ∅) ∧
  while_body ex_conf (ln "a = 99999999999999999999") ∅ = (None, <[1 := VInt (-1)]> ∅) ∧
  while_body ex_conf (ln "a = -2147483648") ∅ = (None, <[1 := VInt (- 2147483648)]> ∅).
Proof.
  split; [|split].
  - destruct (int_range ex_conf (ln "a = 2147483647") ∅
                (mkMicroConf MICRO_CONF_INT 1 (str "a")) (str "2147483647")
                eq_refl eq_refl) as [H _]; [discriminate|by repeat constructor|].
    destruct (H eq_refl) as [H1 _]. apply H1. vm_compute. discriminate.
  - destruct (int_range ex_conf (ln "a = 99999999999999999999") ∅
                (mkMicroConf MICRO_CONF_INT 1 (str "a")) (str "99999999999999999999")
                eq_refl eq_refl) as [H _]; [discriminate|by repeat constructor|].
    destruct (H eq_refl) as (_ & _ & H3). apply H3. vm_compute. discriminate.
  - destruct (int_range ex_conf (ln "a = -2147483648") ∅
                (mkMicroConf MICRO_CONF_INT 1 (str "a")) (str "2147483648")
                eq_refl eq_refl) as [_ H]; [discriminate|by repeat constructor|].
    apply (H eq_refl). vm_compute. discriminate.
Defined.

(** ** The rounding of [strtod] and [strtof] *)

(** The quotient is an integer within a half of [n / d]. *)
Lemma div_nearest_even_spec n d :
  0 ≤ n → 0 < d →
  0 ≤ div_nearest_even n d ∧ 2 * Z.abs (n - div_nearest_even n d * d) ≤ d.
Proof.
  intros Hn Hd. unfold div_nearest_even.
  pose proof (Z.div_mod n d ltac:(lia)) as E.
  pose proof (Z.mod_pos_bound n d Hd) as B.
  pose proof (Z.div_pos n d Hn Hd) as Q.
  destruct (Z.ltb_spec (2 * (n mod d)) d); [split; [lia|nia]|].
  destruct (Z.ltb_spec d (2 * (n mod d))); [split; [lia|nia]|].
  destruct (Z.even (n / d)); split; try lia; nia.
Qed.

Lemma div_nearest_even_mono_lb n d k :
  0 ≤ n → 0 < d → k * d ≤ n → k ≤ div_nearest_even n d.
Proof.
  intros Hn Hd Hk. unfold div_nearest_even.
  assert (k ≤ n / d) by (apply Z.div_le_lower_bound; lia).
  destruct (_ <? _); [lia|]. destruct (_ <? _); [lia|]. destruct (Z.even _); lia.
Qed.

Lemma div_nearest_even_ub n d k :
  0 ≤ n → 0 < d → n < k * d → div_nearest_even n d ≤ k.
Proof.
  intros Hn Hd Hk. unfold div_nearest_even.
  assert (n / d < k) by (apply Z.div_lt_upper_bound; lia).
  destruct (_ <? _); [lia|]. destruct (_ <? _); [lia|]. destruct (Z.even _); lia.
Qed.

Lemma pow2_pos e : 0 < 2 ^ Z.max 0 e.
Proof. apply Z.pow_pos_nonneg; lia. Qed.

Lemma scale2_succ n d e n1 d1 n2 d2 :
  scale2 n d e = (n1, d1) → scale2 n d (e + 1) = (n2, d2) →
  n1 * d2 = 2 * (n2 * d1).
Proof.
  unfold scale2. intros [= <- <-] [= <- <-].
  destruct (Z_le_gt_dec 0 e).
  - rewrite (Z.max_r 0 e), (Z.max_r 0 (e + 1)) by lia.
    rewrite (Z.max_l 0 (- e)), (Z.max_l 0 (- (e + 1))) by lia.
    rewrite Z.pow_add_r by lia. change (2 ^ 1) with 2. ring.
  - rewrite (Z.max_l 0 e), (Z.max_l 0 (e + 1)) by lia.
    rewrite (Z.max_r 0 (- e)), (Z.max_r 0 (- (e + 1))) by lia.
    replace (- e) with (- (e + 1) + 1) at 1 by lia.
    rewrite Z.pow_add_r by lia. change (2 ^ 1) with 2. ring.
Qed.

Lemma scale2_pos n d e : 0 < n → 0 < d → 0 < (scale2 n d e).1 ∧ 0 < (scale2 n d e).2.
Proof.
  intros Hn Hd. unfold scale2. cbn [fst snd].
  pose proof (pow2_pos e). pose proof (pow2_pos (- e)). split; nia.
Qed.

(** [2 ^ l ≤ n / d < 2 ^ (l + 1)] for [l = log2_frac n d]. *)
Lemma log2_frac_spec n d :
  0 < n → 0 < d →
  (scale2 n d (log2_frac n d)).2 ≤ (scale2 n d (log2_frac n d)).1
  < 2 * (scale2 n d (log2_frac n d)).2.
Proof.
  intros Hn Hd. unfold log2_frac.
  pose proof (Z.log2_spec n Hn) as [Ha1 Ha2]. pose proof (Z.log2_spec d Hd) as [Hb1 Hb2].
  pose proof (Z.log2_nonneg n) as Ha0. pose proof (Z.log2_nonneg d) as Hb0.
  set (a := Z.log2 n) in *. set (b := Z.log2 d) in *. set (l := a - b).
  rewrite !Z.pow_succ_r in * by lia.
  destruct (scale2 n d l) as [n1 d1] eqn:E1.
  destruct (scale2 n d (l - 1)) as [n0 d0] eqn:E0.
  pose proof (scale2_succ n d (l - 1) n0 d0 n1 d1 E0) as Hs.
  replace (l - 1 + 1) with l in Hs by lia. specialize (Hs E1).
  pose proof (scale2_pos n d l Hn Hd) as [Hp1 Hp2]. rewrite E1 in Hp1, Hp2.
  pose proof (scale2_pos n d (l - 1) Hn Hd) as [Hp3 Hp4]. rewrite E0 in Hp3, Hp4.
  cbn [fst snd] in *.
  pose proof (Z.pow_pos_nonneg 2 a ltac:(lia) Ha0) as Pa.
  pose proof (Z.pow_pos_nonneg 2 b ltac:(lia) Hb0) as Pb.
  assert (d1 < 2 * n1 ∧ n1 < 2 * d1) as [H1 H2].
  { unfold scale2 in E1. injection E1 as <- <-. unfold l in *.
    destruct (Z_le_gt_dec 0 (a - b)).
    - rewrite (Z.max_r 0 (a - b)), (Z.max_l 0 (- (a - b))) by lia.
      assert (2 ^ a = 2 ^ b * 2 ^ (a - b)) as Ea
        by (rewrite <- Z.pow_add_r by lia; f_equal; lia).
      pose proof (Z.pow_pos_nonneg 2 (a - b) ltac:(lia) ltac:(lia)).
      rewrite Z.pow_0_r. nia.
    - rewrite (Z.max_l 0 (a - b)), (Z.max_r 0 (- (a - b))) by lia.
      assert (2 ^ b = 2 ^ a * 2 ^ (- (a - b))) as Eb
        by (rewrite <- Z.pow_add_r by lia; f_equal; lia).
      pose proof (Z.pow_pos_nonneg 2 (- (a - b)) ltac:(lia) ltac:(lia)).
      rewrite Z.pow_0_r. nia. }
  destruct (Z.ltb_spec n1 d1) as [Hlt|Hge].
  - rewrite E0. cbn [fst snd]. split; nia.
  - rewrite E1. cbn [fst snd]. split; [lia|nia].
Qed.

(** Dividing by [2 ^ (e + k)] is dividing by [2 ^ e] and by [2 ^ k]. *)
Lemma scale2_shift n d e k :
  0 ≤ k →
  (scale2 n d e).1 * (scale2 n d (e + k)).2
  = 2 ^ k * ((scale2 n d (e + k)).1 * (scale2 n d e).2).
Proof.
  intros Hk. unfold scale2. cbn [fst snd].
  destruct (Z_le_gt_dec 0 e); [|destruct (Z_le_gt_dec (e + k) 0)].
  - rewrite (Z.max_r 0 e), (Z.max_r 0 (e + k)) by lia.
    rewrite (Z.max_l 0 (- e)), (Z.max_l 0 (- (e + k))) by lia.
    rewrite Z.pow_add_r by lia. ring.
  - rewrite (Z.max_l 0 e), (Z.max_l 0 (e + k)) by lia.
    rewrite (Z.max_r 0 (- e)), (Z.max_r 0 (- (e + k))) by lia.
    assert (2 ^ (- e) = 2 ^ (- (e + k)) * 2 ^ k) as ->
      by (rewrite <- Z.pow_add_r by lia; f_equal; lia).
    ring.
  - rewrite (Z.max_l 0 e), (Z.max_r 0 (e + k)) by lia.
    rewrite (Z.max_r 0 (- e)), (Z.max_l 0 (- (e + k))) by lia.
    assert (2 ^ k = 2 ^ (- e) * 2 ^ (e + k)) as ->
      by (rewrite <- Z.pow_add_r by lia; f_equal; lia).
    rewrite !Z.pow_0_r. ring.
Qed.

(** The significand before the result is put together: it has at most
    [prec] bits, and no fewer when the exponent is that of the number. *)
Lemma round_core prec n d ex :
  0 < prec → 0 < n → 0 < d →
  log2_frac n d - (prec - 1) ≤ ex →
  let q := div_nearest_even (scale2 n d ex).1 (scale2 n d ex).2 in
  0 ≤ q ≤ 2 ^ prec ∧
  (ex = log2_frac n d - (prec - 1) → 2 ^ (prec - 1) ≤ q) ∧
  within_half n d q ex.
Proof.
  intros Hp Hn Hd Hex q.
  pose proof (log2_frac_spec n d Hn Hd) as HL.
  set (L := log2_frac n d) in *.
  pose proof (scale2_pos n d ex Hn Hd) as [Hn' Hd'].
  pose proof (scale2_pos n d L Hn Hd) as [HnL HdL].
  pose proof (scale2_pos n d (L - (prec - 1)) Hn Hd) as [Hn0 Hd0].
  pose proof (scale2_shift n d (L - (prec - 1)) (prec - 1) ltac:(lia)) as S1.
  replace (L - (prec - 1) + (prec - 1)) with L in S1 by lia.
  pose proof (scale2_shift n d (L - (prec - 1)) (ex - (L - (prec - 1))) ltac:(lia)) as S2.
  replace (L - (prec - 1) + (ex - (L - (prec - 1)))) with ex in S2 by lia.
  assert (2 ^ prec = 2 * 2 ^ (prec - 1)) as Ep
    by (rewrite <- Z.pow_succ_r by lia; f_equal; lia).
  pose proof (Z.pow_pos_nonneg 2 (prec - 1) ltac:(lia) ltac:(lia)) as Pp.
  pose proof (Z.pow_pos_nonneg 2 (ex - (L - (prec - 1))) ltac:(lia) ltac:(lia)) as Pk.
  destruct (div_nearest_even_spec (scale2 n d ex).1 (scale2 n d ex).2) as [Hq0 Hq];
    [lia|lia|].
  fold q in Hq0, Hq.
  assert (within_half n d q ex) as Hw by exact Hq.
  set (n' := (scale2 n d ex).1) in *. set (d' := (scale2 n d ex).2) in *.
  set (nL := (scale2 n d L).1) in *. set (dL := (scale2 n d L).2) in *.
  set (n0 := (scale2 n d (L - (prec - 1))).1) in *.
  set (d0 := (scale2 n d (L - (prec - 1))).2) in *.
  set (P := 2 ^ (prec - 1)) in *.
  remember (2 ^ (ex - (L - (prec - 1)))) as K eqn:EK.
  assert (q = div_nearest_even n' d') as Eq by reflexivity.
  clearbody q n' d' nL dL n0 d0 P.
  (* n0 / d0 = P * nL / dL, so P ≤ n0 / d0 < 2 P *)
  assert (P * d0 ≤ n0 ∧ n0 < 2 * P * d0) as [B1 B2].
  { split.
    - apply (Z.mul_le_mono_pos_r _ _ dL); [lia|]. rewrite S1. nia.
    - apply (Z.mul_lt_mono_pos_r dL); [lia|]. rewrite S1. nia. }
  (* n' / d' = n0 / d0 / K *)
  assert (n' < 2 * P * d') as B3.
  { apply (Z.mul_lt_mono_pos_r d0); [lia|].
    apply (Z.mul_lt_mono_pos_l K); [lia|].
    rewrite <- S2.
    assert (n0 * d' < 2 * P * d0 * d') by (apply Z.mul_lt_mono_pos_r; lia).
    assert (0 < 2 * P * d0 * d') by (repeat apply Z.mul_pos_pos; lia).
    nia. }
  split; [|split].
  - split; [lia|]. rewrite Ep, Eq. apply div_nearest_even_ub; lia.
  - intros Ee. assert (K = 1) as EK1 by (rewrite EK, Ee, Z.sub_diag; reflexivity).
    rewrite EK1, Z.mul_1_l in S2.
    rewrite Eq. apply div_nearest_even_mono_lb; [lia|lia|].
    apply (Z.mul_le_mono_pos_r _ _ d0); [lia|]. nia.
  - exact Hw.
Qed.

(** A result that is a number and not zero is a number of the format,
    within half a unit of its last place of the number rounded. *)
Lemma round_binary_finite prec emax neg m r e s q rx ex :
  0 < prec → 0 ≤ m → 0 < r →
  round_binary prec emax (FNum neg m r e) = FNum s q rx ex →
  q ≠ 0 →
  s = neg ∧ rx = 2 ∧ 0 < q < 2 ^ prec ∧
  3 - emax - prec ≤ ex ≤ emax - prec ∧
  (2 ^ (prec - 1) ≤ q ∨ ex = 3 - emax - prec) ∧
  within_half (m * r ^ Z.max 0 e) (r ^ Z.max 0 (- e)) q ex.
Proof.
  intros Hp Hm Hr. unfold round_binary.
  assert (0 < r ^ Z.max 0 (- e)) as Hd by (apply Z.pow_pos_nonneg; lia).
  assert (0 ≤ m * r ^ Z.max 0 e) as Hn
    by (apply Z.mul_nonneg_nonneg; [lia|apply Z.pow_nonneg; lia]).
  set (n := m * r ^ Z.max 0 e) in *. set (d := r ^ Z.max 0 (- e)) in *.
  destruct (Z.eqb_spec n 0) as [|Hn0]; [intros [= <- <- <- <-]; congruence|].
  set (L := log2_frac n d).
  set (ex0 := Z.max (L - (prec - 1)) (3 - emax - prec)).
  destruct (round_core prec n d ex0 Hp ltac:(lia) Hd ltac:(lia)) as (Hq & Hlow & Hw).
  assert (2 ^ prec = 2 * 2 ^ (prec - 1)) as Ep
    by (rewrite <- Z.pow_succ_r by lia; f_equal; lia).
  pose proof (Z.pow_pos_nonneg 2 (prec - 1) ltac:(lia) ltac:(lia)) as Pp.
  unfold within_half in *.
  pose proof (scale2_shift n d ex0 1 ltac:(lia)) as S. change (2 ^ 1) with 2 in S.
  pose proof (scale2_pos n d ex0 ltac:(lia) Hd) as [Hn' Hd'].
  pose proof (scale2_pos n d (ex0 + 1) ltac:(lia) Hd) as [Hn2 Hd2].
  destruct (scale2 n d ex0) as [n' d'] eqn:E. cbn [fst snd] in *.
  set (q0 := div_nearest_even n' d') in *.
  destruct (Z.eqb_spec q0 (2 ^ prec)) as [E0|E0].
  - destruct (Z.eqb_spec (2 ^ (prec - 1)) 0); [lia|].
    destruct (Z.ltb_spec (emax - prec) (ex0 + 1)); [discriminate|].
    intros [= <- <- <- <-] _. split; [reflexivity|]. split; [reflexivity|].
    split; [lia|]. split; [lia|]. split; [lia|].
    set (n2 := (scale2 n d (ex0 + 1)).1) in *. set (d2 := (scale2 n d (ex0 + 1)).2) in *.
    clearbody n2 d2 q0. rewrite E0, Ep in Hw.
    apply (Z.mul_le_mono_pos_r _ _ d'); [lia|]. nia.
  - destruct (Z.eqb_spec q0 0); [intros [= <- <- <- <-]; congruence|].
    destruct (Z.ltb_spec (emax - prec) ex0); [discriminate|].
    intros [= <- <- <- <-] _. split; [reflexivity|]. split; [reflexivity|].
    split; [lia|]. split; [lia|]. split; [|rewrite E; exact Hw].
    destruct (Z.max_spec (L - (prec - 1)) (3 - emax - prec)) as [[_ Hmx]|[_ Hmx]];
      [right; exact Hmx|left; apply Hlow; exact Hmx].
Qed.

Lemma log2_frac_lb n d k :
  0 < n → 0 < d → 0 ≤ k → d * 2 ^ k ≤ n → k ≤ log2_frac n d.
Proof.
  intros Hn Hd Hk Hle. pose proof (log2_frac_spec n d Hn Hd) as [_ HL].
  set (L := log2_frac n d) in *.
  destruct (Z_le_gt_dec k L) as [|Hgt]; [assumption|exfalso].
  unfold scale2 in HL. cbn [fst snd] in HL.
  pose proof (Z.pow_pos_nonneg 2 k ltac:(lia) Hk) as Pk.
  destruct (Z_le_gt_dec 0 L).
  - rewrite (Z.max_r 0 L), (Z.max_l 0 (- L)), Z.pow_0_r in HL by lia.
    assert (2 * 2 ^ L ≤ 2 ^ k).
    { rewrite <- Z.pow_succ_r by lia. apply Z.pow_le_mono_r; lia. }
    nia.
  - rewrite (Z.max_l 0 L), (Z.max_r 0 (- L)), Z.pow_0_r in HL by lia.
    pose proof (Z.pow_pos_nonneg 2 (- L) ltac:(lia) ltac:(lia)).
    assert (1 ≤ 2 ^ k) by lia.
    assert (2 ≤ 2 ^ k ∨ k = 0) as [?| ->] by
      (destruct (Z.eq_dec k 0); [by right|left; change 2 with (2 ^ 1) at 1;
        apply Z.pow_le_mono_r; lia]).
    + nia.
    + rewrite Z.pow_0_r in *.
      assert (2 ≤ 2 ^ (- L))
        by (change 2 with (2 ^ 1) at 1; apply Z.pow_le_mono_r; lia).
      nia.
Qed.

(** A number of [2 ^ emax] or more is rounded to an infinity. *)
Lemma round_binary_overflow prec emax neg m r e :
  0 < prec < emax → 0 < r →
  r ^ Z.max 0 (- e) * 2 ^ emax ≤ m * r ^ Z.max 0 e →
  round_binary prec emax (FNum neg m r e) = FInf neg.
Proof.
  intros Hp Hr Hbig. unfold round_binary.
  assert (0 < r ^ Z.max 0 (- e)) as Hd by (apply Z.pow_pos_nonneg; lia).
  set (n := m * r ^ Z.max 0 e) in *. set (d := r ^ Z.max 0 (- e)) in *.
  pose proof (Z.pow_pos_nonneg 2 emax ltac:(lia) ltac:(lia)) as Pe.
  assert (0 < n) as Hn by nia.
  destruct (Z.eqb_spec n 0) as [|_]; [lia|].
  pose proof (log2_frac_lb n d emax Hn Hd ltac:(lia) Hbig) as HL.
  set (L := log2_frac n d) in *.
  rewrite (Z.max_l (L - (prec - 1))) by lia.
  destruct (round_core prec n d (L - (prec - 1)) ltac:(lia) Hn Hd ltac:(lia))
    as (_ & Hlow & _).
  specialize (Hlow eq_refl).
  pose proof (Z.pow_pos_nonneg 2 (prec - 1) ltac:(lia) ltac:(lia)) as Pp.
  destruct (scale2 n d (L - (prec - 1))) as [n' d']. cbn [fst snd] in Hlow.
  destruct (Z.eqb_spec (div_nearest_even n' d') (2 ^ prec)).
  - destruct (Z.eqb_spec (2 ^ (prec - 1)) 0); [lia|].
    destruct (Z.ltb_spec (emax - prec) (L - (prec - 1) + 1)); [reflexivity|lia].
  - destruct (Z.eqb_spec (div_nearest_even n' d') 0); [lia|].
    destruct (Z.ltb_spec (emax - prec) (L - (prec - 1))); [reflexivity|lia].
Qed.

(** What [round_binary] returns is a rounding of the number. *)
Lemma round_binary_rounded prec emax neg m r e :
  0 < prec < emax → 0 ≤ m → 0 < r →
  rounded prec emax (m * r ^ Z.max 0 e) (r ^ Z.max 0 (- e)) neg
    (round_binary prec emax (FNum neg m r e)).
Proof.
  intros Hp Hm Hr.
  assert (0 < r ^ Z.max 0 (- e)) as Hd by (apply Z.pow_pos_nonneg; lia).
  assert (0 ≤ m * r ^ Z.max 0 e) as Hn
    by (apply Z.mul_nonneg_nonneg; [lia|apply Z.pow_nonneg; lia]).
  destruct (round_binary prec emax (FNum neg m r e)) as [s q rx ex|s|s] eqn:E.
  - destruct (Z.eq_dec q 0) as [->|Hq].
    + revert E. unfold round_binary.
      set (n := m * r ^ Z.max 0 e) in *. set (d := r ^ Z.max 0 (- e)) in *.
      destruct (Z.eqb_spec n 0) as [Hn0|Hn0].
      { intros [= <- _ _]. split; [reflexivity|]. left. split; [reflexivity|].
        unfold within_half, scale2. cbn [fst snd]. rewrite Hn0. simpl.
        pose proof (pow2_pos (3 - emax - prec)). nia. }
      set (L := log2_frac n d).
      set (ex0 := Z.max (L - (prec - 1)) (3 - emax - prec)).
      destruct (round_core prec n d ex0 ltac:(lia) ltac:(lia) Hd ltac:(lia))
        as (_ & Hlow & Hw).
      pose proof (Z.pow_pos_nonneg 2 (prec - 1) ltac:(lia) ltac:(lia)) as Pp.
      pose proof (Z.pow_pos_nonneg 2 prec ltac:(lia) ltac:(lia)) as Pp'.
      unfold within_half in Hw |- *.
      destruct (scale2 n d ex0) as [n' d'] eqn:E'. cbn [fst snd] in *.
      destruct (Z.eqb_spec (div_nearest_even n' d') (2 ^ prec)) as [E0|E0].
      { destruct (Z.eqb_spec (2 ^ (prec - 1)) 0); [lia|].
        destruct (Z.ltb_spec (emax - prec) (ex0 + 1)); [discriminate|].
        intros [= _ ? _ _]. lia. }
      destruct (Z.eqb_spec (div_nearest_even n' d') 0) as [Ez|Ez].
      * intros [= <- _ _]. split; [reflexivity|]. left. split; [reflexivity|].
        assert (ex0 = 3 - emax - prec) as <-.
        { destruct (Z.max_spec (L - (prec - 1)) (3 - emax - prec)) as [[_ Hmx]|[_ Hmx]];
            [exact Hmx|]. specialize (Hlow Hmx). lia. }
        unfold within_half. rewrite E'. cbn [fst snd]. rewrite Ez in Hw. exact Hw.
      * destruct (Z.ltb_spec (emax - prec) ex0); [discriminate|].
        intros [= _ ? _ _]. lia.
    + destruct (round_binary_finite prec emax neg m r e s q rx ex ltac:(lia) Hm Hr E Hq)
        as (-> & H). split; [reflexivity|]. right. exact H.
  - revert E. unfold round_binary.
    set (n := m * r ^ Z.max 0 e) in *. set (d := r ^ Z.max 0 (- e)) in *.
    destruct (Z.eqb_spec n 0) as [Hn0|Hn0]; [discriminate|].
    pose proof (log2_frac_spec n d ltac:(lia) Hd) as [HL _].
    set (L := log2_frac n d) in *.
    set (ex0 := Z.max (L - (prec - 1)) (3 - emax - prec)).
    destruct (round_core prec n d ex0 ltac:(lia) ltac:(lia) Hd ltac:(lia))
      as (_ & _ & Hw).
    assert (emax - prec < ex0 → d * 2 ^ emax ≤ n) as Hbig.
    { intros Hex. assert (emax ≤ L) as HeL by lia.
      unfold scale2 in HL. cbn [fst snd] in HL.
      rewrite (Z.max_r 0 L), (Z.max_l 0 (- L)), Z.pow_0_r in HL by lia.
      assert (2 ^ emax ≤ 2 ^ L) by (apply Z.pow_le_mono_r; lia). nia. }
    unfold within_half in Hw |- *.
    destruct (scale2 n d ex0) as [n' d'] eqn:E'. cbn [fst snd] in *.
    destruct (Z.eqb_spec (div_nearest_even n' d') (2 ^ prec)) as [E0|E0].
    + destruct (Z.eqb_spec (2 ^ (prec - 1)) 0); [discriminate|].
      destruct (Z.ltb_spec (emax - prec) (ex0 + 1)); [|discriminate].
      intros [= <-]. split; [reflexivity|].
      destruct (Z.eq_dec ex0 (emax - prec)) as [Ee|Ee].
      * right. unfold within_half. rewrite <- Ee, E'. cbn [fst snd]. rewrite <- E0. exact Hw.
      * left. apply Hbig. lia.
    + destruct (Z.eqb_spec (div_nearest_even n' d') 0); [discriminate|].
      destruct (Z.ltb_spec (emax - prec) ex0); [|discriminate].
      intros [= <-]. split; [reflexivity|]. left. by apply Hbig.
  - exfalso. revert E. unfold round_binary.
    repeat (destruct (_ =? _) || destruct (_ <? _) || destruct (scale2 _ _ _));
      discriminate.
Qed.

(** ** What [strtod] accepts *)

Lemma isdigit_facts c :
  isdigit c = true →
  tolower c = c ∧ c ≠ "."%char ∧ c ≠ "i"%char ∧ c ≠ "n"%char ∧ c ≠ "x"%char.
Proof. destruct c as [[] [] [] [] [] [] [] []]; vm_compute; intros; by repeat split. Qed.

Lemma starts_nocase_first x lit c s :
  x ≠ tolower c → starts_nocase (x :: lit) (c :: s) = false.
Proof. intros H. simpl. by destruct (Ascii.eqb_spec x (tolower c)). Qed.

(** Digits, a point and more digits are read whole, in base 10. *)
Lemma strtod_of_decimal ds fs :
  ds ≠ [] → Forall (λ c, isdigit c = true) ds → Forall (λ c, isdigit c = true) fs →
  strtod_of (ds ++ "."%char :: fs)
  = (FNum false (digits_val 10 (ds ++ fs)) 10 (- Z.of_nat (length fs)),
     length (ds ++ "."%char :: fs)).
Proof.
  intros Hne Hds Hfs. destruct ds as [|d ds]; [done|].
  pose proof (Forall_inv Hds) as Hd. simpl in Hd.
  destruct (isdigit_facts d Hd) as (Hlow & Hdot & Hi & Hn & Hx).
  unfold strtod_of.
  assert (span isspace ((d :: ds) ++ "."%char :: fs) = 0%nat) as ->
    by (simpl; by rewrite isdigit_not_isspace).
  rewrite drop_0. change ((d :: ds) ++ "."%char :: fs) with (d :: (ds ++ "."%char :: fs)).
  rewrite scan_sign_digit, drop_0 by done.
  change (str "infinity") with ("i"%char :: str "nfinity").
  change (str "inf") with ("i"%char :: str "nf").
  change (str "nan") with ("n"%char :: str "an").
  rewrite !starts_nocase_first by (rewrite Hlow; congruence).
  destruct (scan_mantissa isxdigit 16 (drop 2 (d :: ds ++ "."%char :: fs)))
    as [[hm hf] hn].
  assert (starts_nocase (str "0x") (d :: ds ++ "."%char :: fs) = false) as ->.
  { change (str "0x") with ["0"%char; "x"%char]. cbn [starts_nocase].
    apply andb_false_iff. right. destruct ds as [|d' ds]; [done|].
    apply Forall_inv_tail, Forall_inv in Hds. simpl in Hds.
    destruct (isdigit_facts d' Hds) as (Hlow' & _ & _ & _ & Hx').
    change ((d' :: ds) ++ "."%char :: fs) with (d' :: (ds ++ "."%char :: fs)).
    cbv iota. rewrite Hlow'. by destruct (Ascii.eqb_spec "x" d'). }
  cbn [andb]. unfold scan_mantissa.
  change (d :: ds ++ "."%char :: fs) with ((d :: ds) ++ "."%char :: fs).
  rewrite span_app, (span_all isdigit (d :: ds)), Nat.eqb_refl by done.
  change (span isdigit ("."%char :: fs)) with 0%nat. rewrite Nat.add_0_r.
  rewrite drop_app_length, take_app_length. simpl deref. simpl Ascii.eqb. cbv iota.
  simpl drop. rewrite drop_0, span_all, firstn_all by done.
  replace (Nat.eqb (length (d :: ds) + length fs) 0) with false by done.
  cbv iota beta.
  replace (Nat.eqb (length (d :: ds) + 1 + length fs) 0) with false
    by done.
  cbv iota.
  replace (drop (length (d :: ds) + 1 + length fs) (d :: ds ++ "."%char :: fs))
    with (@nil ascii).
  2: { symmetry. apply drop_ge. simpl. rewrite length_app. simpl. lia. }
  change (scan_exponent "e" []) with (0, 0%nat). cbv iota beta.
  rewrite Z.sub_0_l. f_equal. rewrite length_app. simpl. lia.
Qed.

Lemma isspace_facts x :
  isspace x = true →
  isdigit x = false ∧ isxdigit x = false ∧ tolower x = x ∧
  x ≠ "."%char ∧ x ≠ "-"%char ∧ x ≠ "+"%char ∧ x ≠ "("%char ∧ x ≠ ")"%char ∧
  x ≠ "e"%char ∧ x ≠ "p"%char ∧
  (isdigit x || ((uchar "a" <=? uchar (tolower x)) && (uchar (tolower x) <=? uchar "z"))
   || Ascii.eqb x "_") = false ∧
  Forall (λ y, y ≠ x) (str "infinity0xnan").
Proof.
  destruct x as [[] [] [] [] [] [] [] []]; vm_compute; intros; try done;
    repeat split; try done; repeat constructor; done.
Qed.

Section Inert.
(** [x] stands at the end of the string and is white space. *)
Context (x : ascii) (Hx : isspace x = true).

Lemma span_inert f u : f x = false → (span f (u ++ [x]) ≤ length u)%nat.
Proof.
  intros Hf. rewrite span_app. simpl. rewrite Hf. pose proof (span_le f u).
  destruct (Nat.eqb _ _); lia.
Qed.

Lemma drop_inert n u : (n ≤ length u)%nat → drop n (u ++ [x]) = drop n u ++ [x].
Proof. intros Hn. by rewrite drop_app_le. Qed.

Lemma deref_inert u c : Ascii.eqb (deref (u ++ [x])) c = true → c ≠ x →
                        (1 ≤ length u)%nat.
Proof.
  destruct u as [|y u]; simpl; [|lia]. intros H%Ascii.eqb_eq. congruence.
Qed.

Lemma scan_sign_inert u : ((scan_sign (u ++ [x])).2 ≤ length u)%nat.
Proof.
  destruct (isspace_facts x Hx) as (_ & _ & _ & _ & Hm & Hp & _).
  destruct u as [|y u]; simpl.
  - destruct (Ascii.eqb_spec x "-"); [done|]. by destruct (Ascii.eqb_spec x "+").
  - destruct (Ascii.eqb y "-"); [simpl; lia|]. destruct (Ascii.eqb y "+"); simpl; lia.
Qed.

Lemma starts_nocase_inert lit u :
  Forall (λ y, y ≠ x) lit → starts_nocase lit (u ++ [x]) = true →
  (length lit ≤ length u)%nat.
Proof.
  destruct (isspace_facts x Hx) as (_ & _ & Hlow & _).
  revert u. induction lit as [|y lit IH]; intros u Hlit H; simpl in *; [lia|].
  apply Forall_cons in Hlit as [Hy Hlit]. destruct u as [|c u]; simpl in *.
  - rewrite Hlow in H. destruct (Ascii.eqb_spec y x); [done|]. done.
  - apply andb_true_iff in H as [_ H]. apply IH in H; [lia|done].
Qed.

Lemma scan_mantissa_inert isd radix u :
  isd x = false → ((scan_mantissa isd radix (u ++ [x])).2 ≤ length u)%nat.
Proof.
  intros Hd. destruct (isspace_facts x Hx) as (_ & _ & _ & Hdot & _).
  unfold scan_mantissa. pose proof (span_inert isd u Hd) as Hi.
  set (ni := span isd (u ++ [x])) in *. rewrite drop_inert by done.
  destruct (Ascii.eqb (deref (drop ni u ++ [x])) ".") eqn:E; [|done].
  apply deref_inert in E; [|done]. rewrite length_drop in E.
  replace (drop 1 (drop ni u ++ [x])) with (drop (ni + 1) u ++ [x]).
  2: { rewrite (drop_inert 1 (drop ni u)) by (rewrite length_drop; lia).
       by rewrite drop_drop. }
  pose proof (span_inert isd (drop (ni + 1) u) Hd) as Hf. rewrite length_drop in Hf.
  destruct (Nat.eqb _ 0); cbn [snd]; lia.
Qed.

Lemma scan_exponent_inert mark u :
  x ≠ mark → ((scan_exponent mark (u ++ [x])).2 ≤ length u)%nat.
Proof.
  intros Hm. destruct (isspace_facts x Hx) as (Hdg & _ & Hlow & _).
  unfold scan_exponent.
  destruct (Ascii.eqb (tolower (deref (u ++ [x]))) mark) eqn:E; [|cbn [snd]; lia].
  destruct u as [|y u].
  { simpl in E. rewrite Hlow in E. apply Ascii.eqb_eq in E. congruence. }
  change (drop 1 ((y :: u) ++ [x])) with (u ++ [x]).
  pose proof (scan_sign_inert u) as H1.
  destruct (scan_sign (u ++ [x])) as [neg n1]. cbn [snd] in H1.
  change (drop (1 + n1) ((y :: u) ++ [x])) with (drop n1 (u ++ [x])).
  rewrite drop_inert by done.
  pose proof (span_inert isdigit (drop n1 u) Hdg) as H2. rewrite length_drop in H2.
  destruct (Nat.eqb _ 0); cbn [snd length]; lia.
Qed.

Lemma scan_nan_payload_inert u : (scan_nan_payload (u ++ [x]) ≤ length u)%nat.
Proof.
  destruct (isspace_facts x Hx) as (_ & _ & _ & _ & _ & _ & Hl & Hr & _ & _ & Hpay & _).
  unfold scan_nan_payload.
  destruct (Ascii.eqb (deref (u ++ [x])) "(") eqn:E; [|lia].
  apply deref_inert in E; [|done]. destruct u as [|y u]; [simpl in E; lia|].
  change (drop 1 ((y :: u) ++ [x])) with (u ++ [x]).
  match goal with |- context [span ?f (u ++ [x])] =>
    pose proof (span_inert f u Hpay) as Hn; set (n := span f (u ++ [x])) in * end.
  change (drop (1 + n) ((y :: u) ++ [x])) with (drop n (u ++ [x])).
  rewrite drop_inert by done.
  destruct (Ascii.eqb (deref (drop n u ++ [x])) ")") eqn:E'; [|lia].
  apply deref_inert in E'; [|done]. rewrite length_drop in E'. simpl. lia.
Qed.

(** White space at the end of a string is not consumed by [strtod]. *)
Lemma strtod_of_last_space u : (strtod_of (u ++ [x])).2 ≠ length (u ++ [x]).
Proof.
  destruct (isspace_facts x Hx)
    as (Hdg & Hxd & Hlow & _ & _ & _ & _ & _ & He & Hp & _ & Hlit).
  rewrite length_app. simpl length. unfold strtod_of.
  set (n1 := span isspace (u ++ [x])).
  destruct (decide (n1 ≤ length u)%nat) as [Hn1|Hn1].
  - rewrite drop_inert by done.
    pose proof (scan_sign_inert (drop n1 u)) as H2. rewrite length_drop in H2.
    destruct (scan_sign (drop n1 u ++ [x])) as [neg n2]. cbn [snd] in H2.
    rewrite drop_inert by (rewrite length_drop; lia).
    set (u2 := drop n2 (drop n1 u)).
    assert (length u2 = length u - n1 - n2)%nat as Hu2
      by (unfold u2; by rewrite !length_drop).
    assert (Forall (λ y, y ≠ x) (str "infinity")) as L1
      by exact (Forall_take _ 8 _ Hlit).
    assert (Forall (λ y, y ≠ x) (str "inf")) as L2
      by exact (Forall_take _ 3 _ Hlit).
    assert (Forall (λ y, y ≠ x) (str "nan")) as L3
      by exact (Forall_drop _ 10 _ Hlit).
    assert (Forall (λ y, y ≠ x) (str "0x")) as L4
      by exact (Forall_take _ 2 _ (Forall_drop _ 8 _ Hlit)).
    destruct (starts_nocase (str "infinity") (u2 ++ [x])) eqn:E1.
    { apply starts_nocase_inert in E1; [|done].
      change (length (str "infinity")) with 8%nat in E1. cbn [snd]. lia. }
    destruct (starts_nocase (str "inf") (u2 ++ [x])) eqn:E2.
    { apply starts_nocase_inert in E2; [|done].
      change (length (str "inf")) with 3%nat in E2. cbn [snd]. lia. }
    destruct (starts_nocase (str "nan") (u2 ++ [x])) eqn:E3.
    { apply starts_nocase_inert in E3; [|done].
      change (length (str "nan")) with 3%nat in E3.
      rewrite drop_inert by lia.
      pose proof (scan_nan_payload_inert (drop 3 u2)) as H. rewrite length_drop in H.
      cbn [snd]. lia. }
    assert (∀ n0,
      ((let '(m, f, n) := scan_mantissa isdigit 10 (u2 ++ [x]) in
        if Nat.eqb n 0 then (fzero, 0%nat)
        else
          let '(e, en) := scan_exponent "e" (drop n (u2 ++ [x])) in
          (FNum neg m 10 (e - Z.of_nat f), (n0 + n + en)%nat)).2
       ≤ n0 + length u2)%nat) as Hdec.
    { intros n0. pose proof (scan_mantissa_inert isdigit 10 u2 Hdg) as Hm.
      destruct (scan_mantissa isdigit 10 (u2 ++ [x])) as [[m f] n']. cbn [snd] in Hm.
      rewrite drop_inert by done.
      pose proof (scan_exponent_inert "e" (drop n' u2) He) as Hex.
      rewrite length_drop in Hex.
      destruct (scan_exponent "e" (drop n' u2 ++ [x])) as [e en]. cbn [snd] in Hex.
      destruct (Nat.eqb_spec n' 0); cbn [snd]; lia. }
    specialize (Hdec (n1 + n2)%nat).
    destruct (starts_nocase (str "0x") (u2 ++ [x])) eqn:E4.
    + apply starts_nocase_inert in E4; [|done].
      change (length (str "0x")) with 2%nat in E4.
      rewrite drop_inert by lia.
      pose proof (scan_mantissa_inert isxdigit 16 (drop 2 u2) Hxd) as Hh.
      rewrite length_drop in Hh.
      destruct (scan_mantissa isxdigit 16 (drop 2 u2 ++ [x])) as [[hm hf] hn].
      cbn [snd] in Hh. cbn [andb].
      destruct (Nat.eqb_spec hn 0); cbn [negb]; [lia|].
      replace (drop (2 + hn) (u2 ++ [x])) with (drop (2 + hn) u2 ++ [x])
        by (by rewrite drop_inert by lia).
      pose proof (scan_exponent_inert "p" (drop (2 + hn) u2) Hp) as Hex.
      rewrite length_drop in Hex.
      destruct (scan_exponent "p" (drop (2 + hn) u2 ++ [x])) as [e en].
      cbn [snd] in *. lia.
    + destruct (scan_mantissa isxdigit 16 (drop 2 (u2 ++ [x]))) as [[hm hf] hn].
      cbn [andb]. lia.
  - assert (drop n1 (u ++ [x]) = []) as ->.
    { apply drop_ge. rewrite length_app. simpl. lia. }
    cbn. lia.
Qed.
End Inert.

(** X5: Double and Float: the value string is read by [strtod] and [strtof]
    and has to be consumed whole; the number stored is the number read,
    rounded to the type: digits, a point and digits are read in base 10
    and what is stored is within half a unit of the last place of that
    decimal; a number too large for the type is stored as an infinity,
    without an error; a value string that ends in white space, such as a
    tab or a carriage return, ends the call with the error of the type. *)
Theorem real_conversion conf line σ c :
  selected conf line = Some c →
  type c = MICRO_CONF_DOUBLE ∨ type c = MICRO_CONF_FLOAT →
  ((strtod_of (value_string c line)).2 = length (value_string c line) →
   while_body conf line σ
   = (None, <[value c := real_val (type c) (strtod_of (value_string c line)).1]> σ)) ∧
  ((strtod_of (value_string c line)).2 ≠ length (value_string c line) →
   aborts_with conf line σ (real_error (type c))) ∧
  (∀ ds fs, ds ≠ [] → Forall (λ x, isdigit x = true) ds →
            Forall (λ x, isdigit x = true) fs →
            value_string c line = ds ++ "."%char :: fs →
            while_body conf line σ
            = (None, <[value c := real_val (type c)
                          (FNum false (digits_val 10 (ds ++ fs)) 10
                             (- Z.of_nat (length fs)))]> σ) ∧
            rounded (real_prec (type c)) (real_emax (type c))
              (digits_val 10 (ds ++ fs)) (10 ^ Z.of_nat (length fs)) false
              (real_round (type c)
                 (FNum false (digits_val 10 (ds ++ fs)) 10 (- Z.of_nat (length fs))))) ∧
  (∀ neg m r e,
     (strtod_of (value_string c line)).2 = length (value_string c line) →
     (strtod_of (value_string c line)).1 = FNum neg m r e →
     0 < r →
     r ^ Z.max 0 (- e) * 2 ^ real_emax (type c) ≤ m * r ^ Z.max 0 e →
     while_body conf line σ = (None, <[value c := real_store (type c) (FInf neg)]> σ)) ∧
  (∀ u x, value_string c line = u ++ [x] → isspace x = true →
          aborts_with conf line σ (real_error (type c))).
Proof.
  intros Hc Ht. pose proof (while_body_selected_convert conf line σ c Hc) as Hw.
  assert (while_body conf line σ
          = if Nat.eqb (strtod_of (value_string c line)).2 (length (value_string c line))
            then (None, <[value c := real_val (type c)
                                        (strtod_of (value_string c line)).1]> σ)
            else (Some (real_error (type c)), σ)) as Hw'.
  { rewrite Hw. unfold convert, real_val, real_store, real_round, real_error.
    destruct Ht as [-> | ->]; simpl; by destruct (Nat.eqb _ _). }
  clear Hw.
  assert (0 < real_prec (type c) < real_emax (type c)) as Hfmt
    by (by destruct Ht as [-> | ->]).
  assert ((strtod_of (value_string c line)).2 ≠ length (value_string c line) →
          aborts_with conf line σ (real_error (type c))) as Hbad.
  { intros Hn. apply aborts_with_intro. rewrite Hw'.
    by destruct (Nat.eqb_spec (strtod_of (value_string c line)).2
                   (length (value_string c line))). }
  split; [|split; [done|split; [|split]]].
  - intros Hn. by rewrite Hw', Hn, Nat.eqb_refl.
  - intros ds fs Hne Hds Hfs Hv. split.
    + rewrite Hw', Hv, strtod_of_decimal by done.
      cbn [fst snd]. by rewrite Nat.eqb_refl.
    + pose proof (round_binary_rounded (real_prec (type c)) (real_emax (type c)) false
                    (digits_val 10 (ds ++ fs)) 10 (- Z.of_nat (length fs)) Hfmt) as H.
      rewrite Z.max_l, Z.pow_0_r, Z.mul_1_r, Z.opp_involutive, Z.max_r in H by lia.
      apply H; [|lia]. apply digits_val_nonneg, Forall_app. by split.
  - intros neg m r e Hn Hx Hr Hbig. rewrite Hw', Hn, Nat.eqb_refl, Hx.
    unfold real_val, real_round. by rewrite round_binary_overflow.
  - intros u x Hv Hx. apply Hbad. rewrite Hv. by apply strtod_of_last_space.
Qed.

Lemma real_conversion_witness :
  while_body ex_conf (ln "d = 78.78") ∅
  = (None, <[4 := VDouble (FNum false 5543649666316370 2 (-46))]> ∅) ∧
  while_body ex_conf (ln "f = 420.1") ∅
  = (None, <[5 := VFloat (FNum false 13765837 2 (-15))]> ∅) ∧
  while_body ex_conf (ln "d = 1e999") ∅ = (None, <[4 := VDouble (FInf false)]> ∅) ∧
  aborts_with ex_conf (str "f = 420.1" ++ [TAB; LF]) ∅ MICRO_CONF_ERROR_INVALID_FLOAT.
Proof.
  split; [|split; [|split]].
  - destruct (real_conversion ex_conf (ln "d = 78.78") ∅
                (mkMicroConf MICRO_CONF_DOUBLE 4 (str "d")) eq_refl (or_introl eq_refl))
      as (_ & _ & H & _).
    destruct (H (str "78") (str "78")) as [H1 _];
      [discriminate|by repeat constructor..|reflexivity|].
    rewrite H1. reflexivity.
  - destruct (real_conversion ex_conf (ln "f = 420.1") ∅
                (mkMicroConf MICRO_CONF_FLOAT 5 (str "f")) eq_refl (or_intror eq_refl))
      as (_ & _ & H & _).
    destruct (H (str "420") (str "1")) as [H1 _];
      [discriminate|by repeat constructor..|reflexivity|].
    rewrite H1. reflexivity.
  - destruct (real_conversion ex_conf (ln "d = 1e999") ∅
                (mkMicroConf MICRO_CONF_DOUBLE 4 (str "d")) eq_refl (or_introl eq_refl))
      as (_ & _ & _ & H & _).
    apply (H false 1 10 999); [reflexivity|reflexivity|reflexivity|].
    apply Z.leb_le. vm_compute. reflexivity.
  - destruct (real_conversion ex_conf (str "f = 420.1" ++ [TAB; LF]) ∅
                (mkMicroConf MICRO_CONF_FLOAT 5 (str "f")) eq_refl (or_intror eq_refl))
      as (_ & _ & _ & _ & H).
    apply (H (str "420.1") TAB); reflexivity.
Defined.

Lemma parse_well_typed_witness :
  well_typed ex_conf
    (micro_conf_parse (one_file "micro.conf" (ln "a = 69" ++ ln "flag = 1"))
       (Some ex_conf) "micro.conf" ∅).2.
Proof.
  apply parse_well_typed.
  - intros c c' Hc Hc' Hv. apply list_elem_of_In in Hc, Hc'. simpl in Hc, Hc'.
    repeat (destruct Hc as [<-|Hc]; [repeat (destruct Hc' as [<-|Hc']; try done)|]);
      done.
  - intros c w _ Hw. by rewrite lookup_empty in Hw.
Defined.

(** ** The order of the lines *)

Lemma while_body_commute conf l1 l2 σ :
  line_error conf l1 = None → line_error conf l2 = None →
  (∀ c1 c2, selected conf l1 = Some c1 → selected conf l2 = Some c2 →
            value c1 ≠ value c2) →
  while_getline conf [l1; l2] σ = while_getline conf [l2; l1] σ.
Proof.
  intros H1 H2 Hne. rewrite !while_getline_writes.
  cbn [first_error writes]. rewrite H1, H2. f_equal.
  unfold line_error in H1, H2.
  destruct (selected conf l1) as [c1|] eqn:E1; [|reflexivity].
  destruct (convert c1 (value_string c1 l1)) as [e1|w1]; [discriminate H1|].
  destruct (selected conf l2) as [c2|] eqn:E2; [|reflexivity].
  destruct (convert c2 (value_string c2 l2)) as [e2|w2]; [discriminate H2|].
  unfold apply_writes. cbn [foldl fst snd].
  apply insert_insert_ne. apply not_eq_sym. by apply Hne.
Qed.

(** X22: Two neighbouring lines that both convert and write to different
    destinations can change places: the call returns the same code and
    leaves the same store. *)
Theorem independent_lines_commute fs conf p p' f f' before l1 l2 after σ :
  fs !! p = Some f → fs !! p' = Some f' → f_close f = f_close f' →
  getlines (f_data f) = before ++ l1 :: l2 :: after →
  getlines (f_data f') = before ++ l2 :: l1 :: after →
  line_error conf l1 = None → line_error conf l2 = None →
  (∀ c1 c2, selected conf l1 = Some c1 → selected conf l2 = Some c2 →
            value c1 ≠ value c2) →
  micro_conf_parse fs (Some conf) p σ = micro_conf_parse fs (Some conf) p' σ.
Proof.
  intros Hf Hf' Hcl Hl Hl' H1 H2 Hne. unfold micro_conf_parse.
  rewrite Hf, Hf', Hl, Hl', Hcl.
  change (l1 :: l2 :: after) with ([l1; l2] ++ after).
  change (l2 :: l1 :: after) with ([l2; l1] ++ after).
  rewrite !while_getline_app.
  destruct (while_getline conf before σ) as [[e|] σ1]; [reflexivity|].
  cbv beta iota. by rewrite !while_getline_app, (while_body_commute conf l1 l2 σ1).
Qed.

Lemma independent_lines_commute_witness :
  micro_conf_parse
    (<["ba"%string := mkFile (ln "b = x" ++ ln "a = 1") 0]>
       (one_file "ab" (ln "a = 1" ++ ln "b = x")))
    (Some ex_conf) "ab" ∅
  = micro_conf_parse
      (<["ba"%string := mkFile (ln "b = x" ++ ln "a = 1") 0]>
         (one_file "ab" (ln "a = 1" ++ ln "b = x")))
      (Some ex_conf) "ba" ∅.
Proof.
  apply (independent_lines_commute _ ex_conf "ab" "ba"
           (mkFile (ln "a = 1" ++ ln "b = x") 0) (mkFile (ln "b = x" ++ ln "a = 1") 0)
           [] (ln "a = 1") (ln "b = x") []); try reflexivity.
  intros c1 c2 [= <-] [= <-]. discriminate.
Defined.
